(** * point-cluster: the hierarchy builder and its queries

    A shallow embedding of [src/index.ts] (class [PointClusterImpl]).

    - JS numbers that hold coordinates and radii are an abstract type [num]
      with the operations the code applies to them; integer-valued slots of
      a record (zoom marker, id, parent, count) are [Z], and every store
      into a [Float32Array] goes through [f32], IEEE-754 round-to-nearest
      at 24 bits of precision.
    - The flat array with [stride] slots per record is a [list Rec]; a slot
      index [i] of the source is [stride] times a position of the list.
    - [KDBush] is an external library: its two queries are parameters
      ([within], [range]) and what the proofs need of them is stated as
      hypotheses.
    - Property aggregation ([map], [reduce], [clusterProps] and the
      [OFFSET_PROP] slot) touches no coordinate, marker, id, parent or
      count: the class is modelled without it first, and as it runs with
      [reduce] in the module [WithReduce]. The [log] timers are left out.
    - The properties of an input point are an abstract type: a query
      result is an input point, named by its position in [this.points], or
      a cluster, so [isCluster] is a case distinction and an input point
      has no [cluster_id]. *)

From Stdlib Require Import ZArith QArith Qround Lia.
From stdpp Require Import base option list gmap.

Local Open Scope Z_scope.

(** ** Numbers *)

(** [ToInt32] of an integral JS number. *)
Definition toInt32 (v : Z) : Z := (v + 2 ^ 31) mod 2 ^ 32 - 2 ^ 31.

(** [v << 5] *)
Definition shl5 (v : Z) : Z := toInt32 (Z.shiftl (toInt32 v) 5).

(** [v >> 5] *)
Definition sar5 (v : Z) : Z := Z.shiftr (toInt32 v) 5.

(** The value read back after storing the integer [n] in a [Float32Array]:
    24 significant bits, ties to even (the exponent range is not modelled:
    integers below 2^128 only). *)
Definition f32 (n : Z) : Z :=
  let a := Z.abs n in
  if a <=? 2 ^ 24 then n
  else
    let e := Z.log2 a - 23 in
    let q := a / 2 ^ e in
    let r := a mod 2 ^ e in
    let h := 2 ^ (e - 1) in
    let q' := if r <? h then q
              else if h <? r then q + 1
              else if Z.even q then q else q + 1 in
    Z.sgn n * (q' * 2 ^ e).

(** A JS number that is an integer or [Infinity] ([limit], [offset]). *)
Inductive xnum := XZ (z : Z) | XInf.

(** [a || d] for an optional numeric argument: [undefined] and [0] are
    falsy. *)
Definition orDefault (a : option xnum) (d : Z) : xnum :=
  match a with
  | None => XZ d
  | Some (XZ 0) => XZ d
  | Some v => v
  end.

(** [a <= o] and [a < o] for an integer [a]. *)
Definition xle (a : Z) (o : xnum) : bool :=
  match o with XZ z => a <=? z | XInf => true end.
Definition xlt (a : Z) (o : xnum) : bool :=
  match o with XZ z => a <? z | XInf => true end.

(** [result.length === limit] *)
Definition lenEq (n : nat) (l : xnum) : bool :=
  match l with XZ z => Z.of_nat n =? z | XInf => false end.

(** The zoom marker of a record: [Infinity] or the zoom of the pass that
    last visited it. *)
Inductive zmark := ZInfinity | ZAt (z : Z).

(** [m <= zoom] and [m > zoom] *)
Definition markLe (m : zmark) (zoom : Z) : bool :=
  match m with ZInfinity => false | ZAt k => k <=? zoom end.
Definition markGt (m : zmark) (zoom : Z) : bool :=
  match m with ZInfinity => true | ZAt k => zoom <? k end.

(** ** Errors *)

Inductive error :=
  | NoCluster    (* Error("No cluster with the specified id.") *)
  | RangeError   (* new Array(n) with an invalid length *)
  | TypeError.   (* a property read on undefined *)

Inductive outcome (A : Type) := Ok (a : A) | Err (e : error).
Arguments Ok {A} a.
Arguments Err {A} e.

Definition failed {A} (r : outcome A) : Prop := ∃ e, r = Err e.

(** ** Identifier encoding *)

(** [(((i / stride) | 0) << 5) + (zoom + 1) + this.points.length], for the
    record at position [i]. *)
Definition encodeId (N : Z) (i : Z) (zoom : Z) : Z :=
  shl5 (toInt32 i) + (zoom + 1) + N.

(** [(clusterId - this.points.length) >> 5] *)
Definition _getOriginId (N : Z) (clusterId : Z) : Z := sar5 (clusterId - N).

(** [(clusterId - this.points.length) % 32]: the remainder has the sign of
    the dividend. *)
Definition _getOriginZoom (N : Z) (clusterId : Z) : Z := Z.rem (clusterId - N) 32.

(** [point_count_abbreviated]: the count itself, or a number followed by
    the letter k. *)
Inductive Abbrev :=
  | AbbrevNum (n : Z)          (* count *)
  | AbbrevK (k : Z)            (* `${Math.round(count / 1000)}k` *)
  | AbbrevTenthsK (t : Z).     (* `${t / 10}k`, t = Math.round(count / 100) *)

Definition abbreviate (count : Z) : Abbrev :=
  if 10000 <=? count then AbbrevK ((count + 500) / 1000)
  else if 1000 <=? count then AbbrevTenthsK ((count + 50) / 100)
  else AbbrevNum count.

(** JS numbers used as coordinates and radii, with the operations the code
    applies to them: the conversion of an integer, [+], [*], [/], [<=] and
    [Math.fround]. *)
Class JSNumber := {
  num : Type;
  ofZ : Z → num;
  nadd : num → num → num;
  nmul : num → num → num;
  ndiv : num → num → num;
  nle : num → num → bool;
  fround : num → num
}.

(** The spatial index: [tree.within(x, y, r)] and
    [tree.range(minX, minY, maxX, maxY)] of KDBush, as functions of the
    coordinates the tree was built from. A query coordinate is [None] when
    the source passes [undefined]. *)
Class KDBush {JS : JSNumber} := {
  within : list (num * num) → option num → option num → num → list nat;
  range : list (num * num) → num * num * num * num → list nat
}.

Section PointCluster.

Context {JS : JSNumber} {KD : KDBush}.

(** Properties of an input point. *)
Context {P : Type}.

(** ** Data *)

Record Point := mkPoint { coordinates : num * num; properties : P }.

(** One record of a level: the slots 0 .. 5 of the flat array. *)
Record Rec := mkRec {
  rx : num;          (* 0 *)
  ry : num;          (* 1 *)
  rzoom : zmark;     (* OFFSET_ZOOM *)
  rid : Z;           (* OFFSET_ID *)
  rparent : Z;       (* OFFSET_PARENT *)
  rnum : Z           (* OFFSET_NUM *)
}.

Record Options := mkOptions {
  minZoom : Z;
  maxZoom : Z;
  minPoints : Z;
  radius : num;
  nodeSize : Z;
  (* not a member of Options in types.ts: the README documents it, and
     Object.assign copies every key of the argument of the constructor *)
  scalingFunction : option (Z → num)
}.

Record PartialOptions := mkPartial {
  p_minZoom : option Z;
  p_maxZoom : option Z;
  p_minPoints : option Z;
  p_radius : option num;
  p_nodeSize : option Z;
  p_scalingFunction : option (Z → num)
}.

Definition defaultOptions : Options :=
  mkOptions 1 16 2 (ofZ 40) 64 None.

(** [Object.assign(Object.create(this.defaultOptions), options)] *)
Definition mergeOptions (o : PartialOptions) : Options :=
  mkOptions (default (minZoom defaultOptions) (p_minZoom o))
            (default (maxZoom defaultOptions) (p_maxZoom o))
            (default (minPoints defaultOptions) (p_minPoints o))
            (default (radius defaultOptions) (p_radius o))
            (default (nodeSize defaultOptions) (p_nodeSize o))
            (p_scalingFunction o).

(** [minX, minY, maxX, maxY] *)
Definition BBox : Type := num * num * num * num.

Definition inside (b : BBox) (p : num * num) : bool :=
  let '(minX, minY, maxX, maxY) := b in
  nle minX p.1 && nle p.1 maxX && nle minY p.2 && nle p.2 maxY.

(** A tree is built from the records' first two slots, and [tree.data] is
    the buffer the records live in. *)
Definition coordsOf (data : list Rec) : list (num * num) :=
  map (λ r, (rx r, ry r)) data.

Record PointCluster := mkState {
  options : Options;
  trees : gmap Z (list Rec);
  points : list Point
}.

(** [new Array(n)] needs [n] to be an array length. *)
Definition validArrayLength (n : Z) : bool := (0 <=? n) && (n <? 2 ^ 32).

Definition constructor (o : PartialOptions) : outcome PointCluster :=
  let opts := mergeOptions o in
  if validArrayLength (maxZoom opts + 1)
  then Ok (mkState opts ∅ [])
  else Err RangeError.

(** [new Float32Array(data)] *)
Definition markF32 (m : zmark) : zmark :=
  match m with ZInfinity => ZInfinity | ZAt z => ZAt (f32 z) end.

Definition toFloat32 (r : Rec) : Rec :=
  mkRec (fround (rx r)) (fround (ry r)) (markF32 (rzoom r))
        (f32 (rid r)) (f32 (rparent r)) (f32 (rnum r)).

Definition _createTree (data : list Rec) : list Rec := map toFloat32 data.

(** [data[k + OFFSET_ZOOM] = zoom] and [data[k + OFFSET_PARENT] = id] *)
Definition setZoom (zoom : Z) (r : Rec) : Rec :=
  mkRec (rx r) (ry r) (ZAt (f32 zoom)) (rid r) (rparent r) (rnum r).
Definition setParent (id : Z) (r : Rec) : Rec :=
  mkRec (rx r) (ry r) (rzoom r) (rid r) (f32 id) (rnum r).

(** ** The merge pass: [_cluster(tree, zoom)] *)

Section Pass.
Variable opts : Options.
Variable N : Z.      (* this.points.length *)
Variable zoom : Z.

(** [const r = radius / zoom] *)
Definition clusterRadius : num := ndiv (radius opts) (ofZ zoom).

(** The counting loop:
    [if (data[k + OFFSET_ZOOM] > zoom) numPoints += data[k + OFFSET_NUM]].
    KDBush returns positions of the tree, so the case [None] of this loop
    and of the next two is there for totality only. *)
Definition countStep (data : list Rec) (numPoints : Z) (k : nat) : Z :=
  match data !! k with
  | Some rk => if markGt (rzoom rk) zoom then numPoints + rnum rk else numPoints
  | None => numPoints
  end.

(** The body of the loop that absorbs the neighbours into the cluster
    [id]; the state is the buffer and the weighted sums [wx], [wy]. *)
Definition absorbStep (id : Z) (acc : list Rec * num * num) (k : nat)
  : list Rec * num * num :=
  let '(data, wx, wy) := acc in
  match data !! k with
  | Some rk =>
      if markLe (rzoom rk) zoom then acc
      else
        let numPoints2 := rnum rk in
        (<[k := setParent id (setZoom zoom rk)]> data,
         nadd wx (nmul (rx rk) (ofZ numPoints2)),
         nadd wy (nmul (ry rk) (ofZ numPoints2)))
  | None => acc
  end.

(** The body of the loop that copies the unvisited neighbours of an
    unclustered record forward; the state is the buffer and [nextData]. *)
Definition copyStep (acc : list Rec * list Rec) (k : nat)
  : list Rec * list Rec :=
  let '(data, nextData) := acc in
  match data !! k with
  | Some rk =>
      if markLe (rzoom rk) zoom then acc
      else
        let rk' := setZoom zoom rk in
        (<[k := rk']> data, nextData ++ [rk'])
  | None => acc
  end.

(** One iteration of the outer loop, for the record at position [i]. *)
Definition clusterStep (acc : list Rec * list Rec) (i : nat)
  : list Rec * list Rec :=
  let '(data, nextData) := acc in
  match data !! i with
  | None => acc
  | Some ri0 =>
      if markLe (rzoom ri0) zoom then acc
      else
        let ri := setZoom zoom ri0 in
        let data := <[i := ri]> data in
        let x := rx ri in
        let y := ry ri in
        let neighborIds := within (coordsOf data) (Some x) (Some y) clusterRadius in
        let numPointsOrigin := rnum ri in
        let numPoints := fold_left (countStep data) neighborIds numPointsOrigin in
        if (numPointsOrigin <? numPoints) && (minPoints opts <=? numPoints) then
          let id := encodeId N (Z.of_nat i) zoom in
          let '(data, wx, wy) :=
            fold_left (absorbStep id) neighborIds
                      (data, nmul x (ofZ numPointsOrigin), nmul y (ofZ numPointsOrigin)) in
          let data := alter (setParent id) i data in
          (data,
           nextData ++ [mkRec (ndiv wx (ofZ numPoints)) (ndiv wy (ofZ numPoints))
                              ZInfinity id (-1) numPoints])
        else
          let nextData := nextData ++ [ri] in
          if 1 <? numPoints
          then fold_left copyStep neighborIds (data, nextData)
          else (data, nextData)
  end.

(** The pass returns [nextData]; the buffer of [tree] is updated in place,
    so the updated buffer is returned with it. *)
Definition _cluster (data : list Rec) : list Rec * list Rec :=
  fold_left clusterStep (seq 0 (length data)) (data, []).

End Pass.

(** ** [load] *)

Definition initialRec (i : nat) (p : Point) : Rec :=
  mkRec (fround (coordinates p).1) (fround (coordinates p).2)
        ZInfinity (Z.of_nat i) (-1) 1.

(** [for (let z = maxZoom; z >= minZoom; z--)], with [n] iterations left:
    [tree] is the local variable, and the buffer of [trees[z + 1]], the
    same object, is the one the pass has written to. *)
Fixpoint loadLoop (opts : Options) (N : Z) (n : nat) (z : Z)
    (tree : list Rec) (ts : gmap Z (list Rec)) : gmap Z (list Rec) :=
  match n with
  | O => ts
  | S n' =>
      let '(data', nextData) := _cluster opts N z tree in
      let tree' := _createTree nextData in
      loadLoop opts N n' (z - 1) tree' (<[z := tree']> (<[z + 1 := data']> ts))
  end.

Definition load (st : PointCluster) (pts : list Point) : outcome PointCluster :=
  let opts := options st in
  let data := imap initialRec pts in
  let tree := _createTree data in
  let ts := <[maxZoom opts + 1 := tree]> (trees st) in
  Ok (mkState opts
        (loadLoop opts (Z.of_nat (length pts))
                  (Z.to_nat (maxZoom opts - minZoom opts + 1)) (maxZoom opts) tree ts)
        pts).

(** ** Queries *)

(** What a query returns for a record: an input point, by its position in
    [this.points], a cluster, or [undefined]. *)
Record ClusterJSON := mkCluster {
  cj_id : Z;
  cluster_id : Z;
  point_count : Z;
  point_count_abbreviated : Abbrev;
  cj_coordinates : num * num
}.

Inductive Feature :=
  | FPoint (idx : Z)
  | FCluster (c : ClusterJSON)
  | FUndefined.

(** [arr[i]] for an integral JS number [i]. *)
Definition lookupZ {A} (l : list A) (i : Z) : option A :=
  if i <? 0 then None else l !! Z.to_nat i.

Definition _getClusterJSON (r : Rec) : ClusterJSON :=
  mkCluster (rid r) (rid r) (rnum r) (abbreviate (rnum r)) (rx r, ry r).

(** [data[k + OFFSET_NUM] > 1 ? this._getClusterJSON(data, k, ..) :
    this.points[data[k + OFFSET_ID]]] *)
Definition project (st : PointCluster) (r : Rec) : Feature :=
  if 1 <? rnum r then FCluster (_getClusterJSON r)
  else match lookupZ (points st) (rid r) with
       | Some _ => FPoint (rid r)
       | None => FUndefined
       end.

(** [Math.max(minZoom, Math.min(Math.floor(+z), maxZoom + 1))] *)
Definition _limitZoom (opts : Options) (z : Q) : Z :=
  Z.max (minZoom opts) (Z.min (Qfloor z) (maxZoom opts + 1)).

Definition getClusters (st : PointCluster) (bbox : BBox) (zoom : Q)
  : outcome (list Feature) :=
  match trees st !! _limitZoom (options st) zoom with
  | None => Err TypeError
  | Some data =>
      Ok (map (λ id, match data !! id with
                     | Some r => project st r
                     | None => FUndefined
                     end)
              (range (coordsOf data) bbox))
  end.

(** The neighbours of the anchor whose parent slot is [clusterId]. *)
Definition childrenOf (st : PointCluster) (data : list Rec) (clusterId : Z)
    (ids : list nat) : list Feature :=
  omap (λ id, match data !! id with
              | Some rk => if rparent rk =? clusterId then Some (project st rk) else None
              | None => None
              end) ids.

Definition getChildren (st : PointCluster) (clusterId : Z) : outcome (list Feature) :=
  let N := Z.of_nat (length (points st)) in
  let originId := _getOriginId N clusterId in
  let originZoom := _getOriginZoom N clusterId in
  match trees st !! originZoom with
  | None => Err NoCluster
  | Some data =>
      if Z.of_nat (length data) <=? originId then Err NoCluster
      else
        let r := ndiv (radius (options st)) (ofZ (originZoom - 1)) in
        let anchor := lookupZ data originId in
        let ids := within (coordsOf data) (rx <$> anchor) (ry <$> anchor) r in
        let children := childrenOf st data clusterId ids in
        match children with
        | [] => Err NoCluster
        | _ => Ok children
        end
  end.

(** [_appendLeaves]: [result] is the array the leaves are pushed to, and
    the function returns it with [skipped]. [fuel] bounds the depth of the
    recursion; [None] is an exhausted bound. *)
Fixpoint _appendLeaves (fuel : nat) (st : PointCluster) (result : list Z)
    (clusterId : Z) (limit offset : xnum) (skipped : Z)
  : option (outcome (list Z * Z)) :=
  match fuel with
  | O => None
  | S fuel' =>
      match getChildren st clusterId with
      | Err e => Some (Err e)
      | Ok children =>
          (fix loop (cs : list Feature) (result : list Z) (skipped : Z) :=
             match cs with
             | [] => Some (Ok (result, skipped))
             | child :: cs' =>
                 let after :=
                   match child with
                   | FCluster props =>
                       if xle (skipped + point_count props) offset
                       then Some (Ok (result, skipped + point_count props))
                       else _appendLeaves fuel' st result (cluster_id props)
                                          limit offset skipped
                   | FPoint idx =>
                       if xlt skipped offset
                       then Some (Ok (result, skipped + 1))
                       else Some (Ok (result ++ [idx], skipped))
                   | FUndefined => Some (Err TypeError)
                   end in
                 match after with
                 | Some (Ok (result', skipped')) =>
                     if lenEq (length result') limit
                     then Some (Ok (result', skipped'))
                     else loop cs' result' skipped'
                 | other => other
                 end
             end) children result skipped
      end
  end.

Definition getLeaves (fuel : nat) (st : PointCluster) (clusterId : Z)
    (limit offset : option xnum) : option (outcome (list Z)) :=
  let limit := orDefault limit 10 in
  let offset := orDefault offset 0 in
  match _appendLeaves fuel st [] clusterId limit offset 0 with
  | Some (Ok (leaves, _)) => Some (Ok leaves)
  | Some (Err e) => Some (Err e)
  | None => None
  end.

(** [getChildren] on the value of the variable [clusterId], which is
    [undefined] (here [None]) after the [cluster_id] of a point was read:
    [trees[NaN]] is [undefined]. *)
Definition getChildrenOpt (st : PointCluster) (clusterId : option Z)
  : outcome (list Feature) :=
  match clusterId with
  | Some c => getChildren st c
  | None => Err NoCluster
  end.

(** The [while] loop of [getClusterExpansionZoom]; [expansionZoom] grows by
    one in each iteration, so [maxZoom - expansionZoom + 1] iterations are
    enough. *)
Fixpoint expansionLoop (n : nat) (st : PointCluster) (clusterId : option Z)
    (expansionZoom : Z) : outcome Z :=
  match n with
  | O => Ok expansionZoom
  | S n' =>
      if expansionZoom <=? maxZoom (options st) then
        match getChildrenOpt st clusterId with
        | Err e => Err e
        | Ok children =>
            let expansionZoom := expansionZoom + 1 in
            match children with
            | [FCluster c] => expansionLoop n' st (Some (cluster_id c)) expansionZoom
            | [FPoint _] => expansionLoop n' st None expansionZoom
            | [FUndefined] => Err TypeError
            | _ => Ok expansionZoom
            end
        end
      else Ok expansionZoom
  end.

Definition getClusterExpansionZoom (st : PointCluster) (clusterId : Z) : outcome Z :=
  let expansionZoom := _getOriginZoom (Z.of_nat (length (points st))) clusterId - 1 in
  expansionLoop (Z.to_nat (maxZoom (options st) - expansionZoom + 1)) st
                (Some clusterId) expansionZoom.

End PointCluster.

(** ** Notions used to state the properties *)

Definition sumZ (l : list Z) : Z := foldr Z.add 0 l.

Section Specification.

Context {JS : JSNumber} {KD : KDBush} {P : Type}.

(** The slots of a record that no pass writes to. *)
Definition static (r : Rec) : num * num * Z * Z := (rx r, ry r, rid r, rnum r).

(** The identifier a merge at [zoom] gives the cluster anchored at
    position [i], when nothing wraps around. *)
Definition cidOf (N : Z) (zoom : Z) (i : nat) : Z := 32 * Z.of_nat i + (zoom + 1) + N.

Definition rnumAt (data : list Rec) (k : nat) : Z :=
  match data !! k with Some r => rnum r | None => 0 end.

(** The record at position [k] has not been visited by the pass at [zoom]. *)
Definition unv (zoom : Z) (data : list Rec) (k : nat) : bool :=
  match data !! k with Some r => markGt (rzoom r) zoom | None => false end.

Definition parentIs (data : list Rec) (id : Z) (k : nat) : bool :=
  match data !! k with Some r => rparent r =? id | None => false end.

(** The positions a trigger at [i] takes with it: its unvisited
    neighbours. *)
Definition taken (zoom : Z) (data : list Rec) (i : nat) (nb : list nat) : list nat :=
  filter (λ k, k ≠ i ∧ unv zoom data k = true) nb.

(** [f] applied to the records at the positions [C]. *)
Definition upd (C : list nat) (f : Rec → Rec) (data : list Rec) : list Rec :=
  imap (λ k r, if decide (k ∈ C) then f r else r) data.

(** The number of input points a feature stands for. *)
Definition pointCountOf (f : @Feature JS) : Z :=
  match f with
  | FPoint _ => 1
  | FCluster c => point_count c
  | FUndefined => 0
  end.

(** [hasLeaves st d f L]: the feature [f] is an input point and [L] is its
    position, or it is a cluster of at least two children, found by
    [getChildren], whose leaves in order make up [L], and [point_count]
    is the length of [L]; [d] bounds the depth of the descent. *)
Fixpoint hasLeaves (st : @PointCluster JS P) (d : nat) (f : @Feature JS) (L : list Z) : Prop :=
  match f with
  | FPoint idx => L = [idx]
  | FUndefined => False
  | FCluster c =>
      match d with
      | O => False
      | S d' =>
          ∃ cs Ls, getChildren st (cluster_id c) = Ok cs
                   ∧ (2 ≤ length cs)%nat
                   ∧ Forall2 (hasLeaves st d') cs Ls
                   ∧ L = concat Ls
                   ∧ point_count c = Z.of_nat (length L)
      end
  end.

(** What the loops of [_appendLeaves] do to [result] and [skipped] over a
    sequence of leaves. *)
Fixpoint walk (limit offset : xnum) (ls : list Z) (result : list Z) (skipped : Z)
  : list Z * Z :=
  match ls with
  | [] => (result, skipped)
  | l :: ls' =>
      let '(result', skipped') :=
        if xlt skipped offset then (result, skipped + 1) else (result ++ [l], skipped) in
      if lenEq (length result') limit then (result', skipped')
      else walk limit offset ls' result' skipped'
  end.

(** The records the pass for zoom [maxZoom - k] reads, for [k] = 0, 1, ..:
    the level [maxZoom + 1 - k] as [_createTree] leaves it. *)
Fixpoint levelIn (opts : Options) (pts : list (@Point JS P)) (k : nat) : list Rec :=
  match k with
  | O => _createTree (imap initialRec pts)
  | S k' =>
      _createTree (_cluster opts (Z.of_nat (length pts))
                            (maxZoom opts - Z.of_nat k') (levelIn opts pts k')).2
  end.

(** The number of passes [load] runs. *)
Definition passes (opts : Options) : nat :=
  Z.to_nat (maxZoom opts - minZoom opts + 1).

(** [r] is a cluster record of some level of the hierarchy. *)
Definition clusterRecord (st : @PointCluster JS P) (r : Rec) : Prop :=
  ∃ z data j, trees st !! z = Some data ∧ data !! j = Some r ∧ 1 < rnum r.

End Specification.

(** ** Invariants of the build and contracts of the index *)

Section Invariants.

Context {JS : JSNumber} {KD : KDBush} {P : Type}.

(** What a loop over the neighbours does to one record: nothing if the
    pass at [zoom] has visited it. *)
Definition onceAt (zoom : Z) (f : Rec → Rec) (r : Rec) : Rec :=
  if markLe (rzoom r) zoom then r else f r.

(** What the pass at [zoom] expects of the records it reads: none is
    visited, and each stands for at least one point. *)
Definition PassPre (zoom : Z) (data0 : list Rec) : Prop :=
  ∀ k r, data0 !! k = Some r → markLe (rzoom r) zoom = false ∧ 1 ≤ rnum r.

(** How a record [o] of [nextData] stands for the positions [g] of the
    level read, whose buffer is [data0] before the pass and [data] now.
    Either [o] is the record at one position, marked and copied forward, *)
Definition copiedFrom (zoom : Z) (data0 data : list Rec) (g : list nat) (o : Rec) : Prop :=
  ∃ k r0, g = [k] ∧ data0 !! k = Some r0 ∧ o = setZoom zoom r0 ∧ data !! k = Some o.

(** or [o] is the cluster the record at position [a] formed with its
    unvisited neighbours [U]: its count is the sum of theirs, and each of
    them is marked and has the identifier of the cluster as its parent. *)
Definition mergedFrom (opts : Options) (N zoom : Z) (data0 data : list Rec)
    (g : list nat) (o : Rec) : Prop :=
  ∃ a ra U cx cy,
    g = a :: U ∧ U ≠ [] ∧ data0 !! a = Some ra
    ∧ (∀ k, k ∈ U → k ∈ within (coordsOf data0) (Some (rx ra)) (Some (ry ra))
                               (clusterRadius opts zoom))
    ∧ o = mkRec cx cy ZInfinity (encodeId N (Z.of_nat a) zoom) (-1)
                (sumZ (rnumAt data0 <$> g))
    ∧ ∀ k, k ∈ g →
           ∃ r0, data0 !! k = Some r0
                 ∧ data !! k = Some (setParent (encodeId N (Z.of_nat a) zoom) (setZoom zoom r0)).

Definition GroupRel (opts : Options) (N zoom : Z)
    (data0 data : list Rec) (g : list nat) (o : Rec) : Prop :=
  copiedFrom zoom data0 data g o ∨ mergedFrom opts N zoom data0 data g o.

(** The state of the outer loop before it looks at position [i]: the
    visited positions are those of the groups, each in one group. *)
Record PassInv (opts : Options) (N zoom : Z) (data0 : list Rec) (i : nat)
    (data next : list Rec) (groups : list (list nat)) : Prop := {
  inv_static : static <$> data = static <$> data0;
  inv_unv : ∀ k r, data !! k = Some r → markLe (rzoom r) zoom = false → data0 !! k = Some r;
  inv_done : ∀ k r, (k < i)%nat → data !! k = Some r → markLe (rzoom r) zoom = true;
  inv_nodup : NoDup (concat groups);
  inv_mem : ∀ k, k ∈ concat groups ↔ ∃ r, data !! k = Some r ∧ markLe (rzoom r) zoom = true;
  inv_groups : Forall2 (GroupRel opts N zoom data0 data) groups next
}.

(** What the code relies on from KDBush: a query returns positions of
    the tree, each at most once. *)
Definition WithinContract : Prop :=
  ∀ cs x y r, NoDup (within cs x y r) ∧ ∀ k, k ∈ within cs x y r → (k < length cs)%nat.

(** What a pass leaves behind: the buffer [data'] it has written to and
    [nextData], whose records stand for groups of positions that
    partition the level. *)
Definition PassPost (opts : Options) (N zoom : Z) (data0 data' next : list Rec) : Prop :=
  ∃ groups,
    static <$> data' = static <$> data0
    ∧ concat groups ≡ₚ seq 0 (length data0)
    ∧ Forall2 (GroupRel opts N zoom data0 data') groups next.

(** The builds whose zoom markers and counts are exact in the
    single-precision buffers: integers up to 2^24. *)
Record Exact (opts : Options) (N : Z) : Prop := {
  ex_min : - 2 ^ 24 ≤ minZoom opts;
  ex_max : maxZoom opts ≤ 2 ^ 24;
  ex_N : N ≤ 2 ^ 24
}.

(** The level read by pass [k]: the counts add up to the number of input
    points, no record is visited, and a record with count 1 is an input
    point. *)
Record LevelInv (opts : Options) (N : Z) (k : nat) (lvl : list Rec) : Prop := {
  lvl_sum : sumZ (rnum <$> lvl) = N;
  lvl_rec : ∀ j r, lvl !! j = Some r →
            1 ≤ rnum r
            ∧ (rzoom r = ZInfinity ∨ rzoom r = ZAt (maxZoom opts - Z.of_nat k + 1))
            ∧ (rnum r = 1 → 0 ≤ rid r < N)
}.

(** The builds whose identifiers are exact as well: the zooms 0 .. 30 are
    those the five low bits have room for, and at most 2^24 / 33 (508400)
    points keep every identifier within 2^24. *)
Record Configured (opts : Options) (N : Z) : Prop := {
  cfg_min : 0 ≤ minZoom opts;
  cfg_max : maxZoom opts ≤ 30;
  cfg_N : 33 * N ≤ 2 ^ 24
}.

(** The identity of a record of the level read by pass [k]: the position
    of an input point, or the identifier of a cluster formed by an
    earlier pass. *)
Definition idOK (opts : Options) (N : Z) (k : nat) (r : Rec) : Prop :=
  (rnum r = 1 ∧ 0 ≤ rid r < N)
  ∨ (1 < rnum r
     ∧ ∃ (a : nat) z', Z.of_nat a < N
                       ∧ minZoom opts ≤ z'
                       ∧ maxZoom opts - Z.of_nat k < z' ≤ maxZoom opts
                       ∧ rid r = cidOf N z' a).

Definition LevelIds (opts : Options) (N : Z) (k : nat) (lvl : list Rec) : Prop :=
  ∀ j r, lvl !! j = Some r → rparent r = -1 ∧ idOK opts N k r.

(** What the pass at [zoom] needs for its identifiers to be exact. *)
Record IdsExact (N zoom : Z) (data0 : list Rec) : Prop := {
  ids_zoom : 0 ≤ zoom ≤ 30;
  ids_N : 0 ≤ N;
  ids_bound : 32 * Z.of_nat (length data0) + N ≤ 2 ^ 24;
  ids_parent : ∀ k r, data0 !! k = Some r → rparent r = -1
}.

(** [GroupRel] when the identifiers are exact: the group of a cluster is
    made of the positions whose parent slot holds its identifier. *)
Definition GroupIds (opts : Options) (N zoom : Z)
    (data0 data' : list Rec) (g : list nat) (o : Rec) : Prop :=
  (∃ k, g = [k] ∧ data' !! k = Some o ∧ rzoom o = ZAt zoom ∧ rparent o = -1)
  ∨ (∃ a ra, data0 !! a = Some ra
       ∧ rzoom o = ZInfinity ∧ rid o = cidOf N zoom a ∧ rparent o = -1
       ∧ rnum o = sumZ (rnumAt data0 <$> g) ∧ 1 < rnum o
       ∧ NoDup g
       ∧ (∀ k, k ∈ g ↔ parentIs data' (cidOf N zoom a) k = true)
       ∧ a ∈ g ∧ (2 ≤ length g)%nat
       ∧ ∀ k, k ∈ g →
              k = a ∨ k ∈ within (coordsOf data0) (Some (rx ra)) (Some (ry ra))
                                 (clusterRadius opts zoom)).

(** [range] returns the positions of the coordinates inside the box, each
    once. *)
Definition RangeContract : Prop :=
  ∀ cs b, NoDup (range cs b)
          ∧ ∀ i, i ∈ range cs b ↔ ∃ p, cs !! i = Some p ∧ inside b p = true.

(** When a query around the coordinates of a record of the tree returns
    anything, it returns that record: its distance to itself is 0. This is
    asked of the radii the passes use. *)
Definition WithinSelf (opts : Options) : Prop :=
  ∀ z cs a x y,
    minZoom opts ≤ z ≤ maxZoom opts →
    cs !! a = Some (x, y) →
    within cs (Some x) (Some y) (clusterRadius opts z) ≠ [] →
    a ∈ within cs (Some x) (Some y) (clusterRadius opts z).

(** A query around [undefined] coordinates returns nothing: every
    comparison with [NaN] is false. *)
Definition WithinUndefined : Prop := ∀ cs r, within cs None None r = [].

(** Two features that [hasLeaves] cannot tell apart. *)
Definition sameFeature (f f' : @Feature JS) : Prop :=
  match f, f' with
  | FPoint i, FPoint j => i = j
  | FCluster c, FCluster c' =>
      cluster_id c = cluster_id c' ∧ point_count c = point_count c'
  | FUndefined, FUndefined => True
  | _, _ => False
  end.

(** The records of a level, with the leaves each stands for: together,
    the input points. *)
Definition LeavesInv (st : @PointCluster JS P) (d : nat) (lvl : list Rec) : Prop :=
  ∃ Ls : list (list Z),
    Forall2 (λ r L, hasLeaves st d (project st r) L ∧ Z.of_nat (length L) = rnum r) lvl Ls
    ∧ concat Ls ≡ₚ Z.of_nat <$> seq 0 (length (points st)).

(** The records at the positions a query returned. *)
Definition recordsAt (data : list Rec) (ids : list nat) : list Rec :=
  omap (λ id, data !! id) ids.

(** The loop of [_appendLeaves] over the children, with the recursive
    call as a parameter. *)
Fixpoint leafLoop (rec : list Z → Z → xnum → xnum → Z → option (outcome (list Z * Z)))
    (limit offset : xnum) (cs : list (@Feature JS)) (result : list Z) (skipped : Z)
  : option (outcome (list Z * Z)) :=
  match cs with
  | [] => Some (Ok (result, skipped))
  | child :: cs' =>
      let after :=
        match child with
        | FCluster props =>
            if xle (skipped + point_count props) offset
            then Some (Ok (result, skipped + point_count props))
            else rec result (cluster_id props) limit offset skipped
        | FPoint idx =>
            if xlt skipped offset
            then Some (Ok (result, skipped + 1))
            else Some (Ok (result ++ [idx], skipped))
        | FUndefined => Some (Err TypeError)
        end in
      match after with
      | Some (Ok (result', skipped')) =>
          if lenEq (length result') limit
          then Some (Ok (result', skipped'))
          else leafLoop rec limit offset cs' result' skipped'
      | other => other
      end
  end.

(** The options with [scalingFunction] set, as the README configures it. *)
Definition withScalingFunction (f : Z → num) (opts : Options) : Options :=
  mkOptions (minZoom opts) (maxZoom opts) (minPoints opts) (radius opts)
            (nodeSize opts) (Some f).

End Invariants.

(** ** Notions used to state further properties *)

Section Further.

Context {JS : JSNumber} {KD : KDBush} {P : Type}.

(** What identifies a query result: the position of an input point in
    [this.points], or the [cluster_id] of a cluster. *)
Definition featureId (f : @Feature JS) : option Z :=
  match f with
  | FPoint idx => Some idx
  | FCluster c => Some (cluster_id c)
  | FUndefined => None
  end.

(** All the leaves of a query result: an input point is its own leaf,
    and a cluster has those of [getLeaves(cluster_id, Infinity)]. *)
Definition leavesOf (fuel : nat) (st : @PointCluster JS P) (f : @Feature JS)
  : option (outcome (list Z)) :=
  match f with
  | FPoint idx => Some (Ok [idx])
  | FCluster c => getLeaves fuel st (cluster_id c) (Some XInf) None
  | FUndefined => Some (Err TypeError)
  end.

(** The number of leaves the loops of [_appendLeaves] skip before the
    first one they keep, when [skipped] have been skipped already. *)
Definition toSkip (offset : xnum) (skipped : Z) (L : list Z) : nat :=
  match offset with
  | XZ m => Z.to_nat (m - skipped)
  | XInf => length L
  end.

(** What a pass writes to [nextData]: the marked copy of a record it
    read, or a new cluster, of more than one point and of at least
    [minPoints]. *)
Definition writtenBy (opts : Options) (zoom : Z) (data0 : list Rec) (o : Rec) : Prop :=
  (∃ k r0, data0 !! k = Some r0 ∧ o = setZoom zoom r0)
  ∨ (1 < rnum o ∧ minPoints opts ≤ rnum o).

(** No cluster of a level has fewer than [minPoints] points. *)
Definition LevelMin (opts : Options) (lvl : list Rec) : Prop :=
  ∀ j r, lvl !! j = Some r → 1 < rnum r → minPoints opts ≤ rnum r.

End Further.

(** ** Notions used to state the position of a cluster *)

Section WeightedSums.

Context {JS : JSNumber}.

(** [w += data[k + c] * data[k + OFFSET_NUM]] over the positions [U],
    in their order, for the coordinate [c]. *)
Definition weightedSum (data : list Rec) (c : Rec → num) (U : list nat) (w : num) : num :=
  fold_left (λ w k, match data !! k with
                    | Some rk => nadd w (nmul (c rk) (ofZ (rnum rk)))
                    | None => w
                    end) U w.

End WeightedSums.

(** ** Property aggregation

    An instance constructed with [reduce]: [stride] is 7, and every record
    has the slot [OFFSET_PROP] after the six others. For a cluster the slot
    holds the position in [this.clusterProps] of its aggregated
    properties, or -1. The definitions of this module are those of the
    class as they run with that stride; the six slots are a [Rec] as
    before. *)
Module WithReduce.

(** A record: the slots 0 .. 5, and the slot [OFFSET_PROP]. *)
Abbreviation PRec := (Rec * Z)%type.

Section WithReduce.

Context {JS : JSNumber} {KD : KDBush}.

(** Properties of an input point, and aggregated properties. *)
Context {P C : Type}.

(** The callbacks of the options, as functions of the values of their
    arguments. As the README asks, [map(props)] returns a new object, and
    [reduce(accumulated, props)] does not mutate [props]: it changes
    [accumulated] into [reduceFn accumulated props]. [props] is [None]
    when the code passes [undefined]. [emptyObject] is [{}]. *)
Record Callbacks := mkCallbacks {
  mapFn : option (P → C);
  reduceFn : C → option C → C;
  emptyObject : C
}.

Record PointCluster := mkState {
  options : Options;
  callbacks : Callbacks;
  trees : gmap Z (list PRec);
  clusterProps : list C;
  points : list (@Point JS P)
}.

Definition constructor (o : PartialOptions) (cb : Callbacks) : outcome PointCluster :=
  let opts := mergeOptions o in
  if validArrayLength (maxZoom opts + 1)
  then Ok (mkState opts cb ∅ [] [])
  else Err RangeError.

(** [new Float32Array(data)], over the seven slots *)
Definition _createTree (data : list PRec) : list PRec :=
  (λ r, (toFloat32 r.1, f32 r.2)) <$> data.

Section Pass.
Variable opts : Options.
Variable cb : Callbacks.
Variable points : list (@Point JS P).   (* this.points *)
Variable zoom : Z.

(** [_map(data, i, clone)] for the record [r] at [i]. It is called under
    [if (map && reduce)] only, with [m] the [map] of the options. The
    result is [None] for [undefined]; a property read on [undefined]
    throws. *)
Definition _map (m : P → C) (clusterProps : list C) (r : PRec) (clone : bool)
  : outcome (option C) :=
  if 1 <? rnum r.1 then
    let props := lookupZ clusterProps r.2 in
    Ok (if clone then Some (default (emptyObject cb) props) else props)
  else
    match lookupZ points (rid r.1) with
    | Some p => Ok (Some (m (properties p)))
    | None => Err TypeError
    end.

(** The body of the loop that absorbs the neighbours of the record at [i]
    into the cluster [id]. The state is the buffer, the weighted sums,
    [clusterProperties], [clusterPropIndex] and [this.clusterProps];
    [clusterProperties] is the object at [clusterPropIndex] of
    [this.clusterProps], so what [reduce] leaves in it is stored there. *)
Definition absorbStep (i : nat) (id : Z)
    (acc : outcome (list PRec * num * num * option C * Z * list C)) (k : nat)
  : outcome (list PRec * num * num * option C * Z * list C) :=
  match acc with
  | Err e => Err e
  | Ok (data, wx, wy, clusterProperties, clusterPropIndex, clusterProps) =>
      match data !! k with
      | Some rk =>
          if markLe (rzoom rk.1) zoom then acc
          else
            let numPoints2 := rnum rk.1 in
            let rk' := (setParent id (setZoom zoom rk.1), rk.2) in
            let data := <[k := rk']> data in
            let wx := nadd wx (nmul (rx rk.1) (ofZ numPoints2)) in
            let wy := nadd wy (nmul (ry rk.1) (ofZ numPoints2)) in
            match mapFn cb with
            | Some m =>
                let started :=
                  match clusterProperties with
                  | Some cp => Ok (cp, clusterPropIndex, clusterProps)
                  | None =>
                      match data !! i with
                      | Some ri =>
                          match _map m clusterProps ri true with
                          | Ok (Some cp) =>
                              Ok (cp, Z.of_nat (length clusterProps), clusterProps ++ [cp])
                          | Ok None => Err TypeError   (* not reached: a clone is an object *)
                          | Err e => Err e
                          end
                      | None => Err TypeError   (* [this.points[undefined].properties] *)
                      end
                  end in
                match started with
                | Ok (cp, clusterPropIndex, clusterProps) =>
                    match _map m clusterProps rk' false with
                    | Ok props =>
                        let cp := reduceFn cb cp props in
                        Ok (data, wx, wy, Some cp, clusterPropIndex,
                            <[Z.to_nat clusterPropIndex := cp]> clusterProps)
                    | Err e => Err e
                    end
                | Err e => Err e
                end
            | None => Ok (data, wx, wy, clusterProperties, clusterPropIndex, clusterProps)
            end
      | None => acc
      end
  end.

(** [for (let j = 0; j < stride; j++) nextData.push(data[k + j])]: the
    slot [OFFSET_PROP] is copied with the others. *)
Definition copyStep (acc : list PRec * list PRec) (k : nat)
  : list PRec * list PRec :=
  let '(data, nextData) := acc in
  match data !! k with
  | Some rk =>
      if markLe (rzoom rk.1) zoom then acc
      else
        let rk' := (setZoom zoom rk.1, rk.2) in
        (<[k := rk']> data, nextData ++ [rk'])
  | None => acc
  end.

(** One iteration of the outer loop; the state is the buffer, [nextData]
    and [this.clusterProps]. *)
Definition clusterStep (acc : outcome (list PRec * list PRec * list C)) (i : nat)
  : outcome (list PRec * list PRec * list C) :=
  match acc with
  | Err e => Err e
  | Ok (data, nextData, clusterProps) =>
      match data !! i with
      | None => acc
      | Some ri0 =>
          if markLe (rzoom ri0.1) zoom then acc
          else
            let ri := (setZoom zoom ri0.1, ri0.2) in
            let data := <[i := ri]> data in
            let x := rx ri.1 in
            let y := ry ri.1 in
            let neighborIds :=
              within (coordsOf data.*1) (Some x) (Some y) (clusterRadius opts zoom) in
            let numPointsOrigin := rnum ri.1 in
            let numPoints := fold_left (countStep zoom data.*1) neighborIds numPointsOrigin in
            if (numPointsOrigin <? numPoints) && (minPoints opts <=? numPoints) then
              let id := encodeId (Z.of_nat (length points)) (Z.of_nat i) zoom in
              match fold_left (absorbStep i id) neighborIds
                              (Ok (data, nmul x (ofZ numPointsOrigin),
                                   nmul y (ofZ numPointsOrigin), None, -1, clusterProps)) with
              | Ok (data, wx, wy, _, clusterPropIndex, clusterProps) =>
                  let data := alter (λ r, (setParent id r.1, r.2)) i data in
                  Ok (data,
                      nextData ++ [(mkRec (ndiv wx (ofZ numPoints)) (ndiv wy (ofZ numPoints))
                                          ZInfinity id (-1) numPoints,
                                    clusterPropIndex)],
                      clusterProps)
              | Err e => Err e
              end
            else
              let nextData := nextData ++ [ri] in
              if 1 <? numPoints
              then
                let '(data, nextData) := fold_left copyStep neighborIds (data, nextData) in
                Ok (data, nextData, clusterProps)
              else Ok (data, nextData, clusterProps)
      end
  end.

(** The pass returns [nextData]; the buffer of [tree] and
    [this.clusterProps] are updated in place, and are returned with it. *)
Definition _cluster (data : list PRec) (clusterProps : list C)
  : outcome (list PRec * list PRec * list C) :=
  fold_left clusterStep (seq 0 (length data)) (Ok (data, [], clusterProps)).

End Pass.

(** [load]: every input point gets 0 in the slot [OFFSET_PROP], and
    [this.clusterProps] is the array the passes push to, from one [load]
    to the next. *)
Fixpoint loadLoop (opts : Options) (cb : Callbacks) (pts : list (@Point JS P)) (n : nat) (z : Z)
    (tree : list PRec) (ts : gmap Z (list PRec)) (clusterProps : list C)
  : outcome (gmap Z (list PRec) * list C) :=
  match n with
  | O => Ok (ts, clusterProps)
  | S n' =>
      match _cluster opts cb pts z tree clusterProps with
      | Ok (data', nextData, clusterProps') =>
          let tree' := _createTree nextData in
          loadLoop opts cb pts n' (z - 1) tree'
                   (<[z := tree']> (<[z + 1 := data']> ts)) clusterProps'
      | Err e => Err e
      end
  end.

Definition load (st : PointCluster) (pts : list (@Point JS P)) : outcome PointCluster :=
  let opts := options st in
  let data := imap (λ i p, (initialRec i p, 0)) pts in
  let tree := _createTree data in
  let ts := <[maxZoom opts + 1 := tree]> (trees st) in
  match loadLoop opts (callbacks st) pts
                 (Z.to_nat (maxZoom opts - minZoom opts + 1)) (maxZoom opts)
                 tree ts (clusterProps st) with
  | Ok (ts', clusterProps') => Ok (mkState opts (callbacks st) ts' clusterProps' pts)
  | Err e => Err e
  end.

(** [_getClusterProperties]: the object that [cluster], [cluster_id],
    [point_count] and [point_count_abbreviated] are then assigned to. *)
Definition _getClusterProperties (cb : Callbacks) (clusterProps : list C) (r : PRec) : C :=
  let propIndex := r.2 in
  if propIndex =? -1 then emptyObject cb
  else default (emptyObject cb) (lookupZ clusterProps propIndex).

(** What a query returns for a record: an input point, by its position
    in [this.points], a cluster, with the aggregated properties that its
    own four keys are assigned over, or [undefined]. *)
Inductive Feature :=
  | FPoint (idx : Z)
  | FCluster (c : ClusterJSON) (aggregated : C)
  | FUndefined.

(** [data[k + OFFSET_NUM] > 1 ? this._getClusterJSON(data, k, this.clusterProps) :
    this.points[data[k + OFFSET_ID]]] *)
Definition project (st : PointCluster) (r : PRec) : Feature :=
  if 1 <? rnum r.1
  then FCluster (_getClusterJSON r.1)
                (_getClusterProperties (callbacks st) (clusterProps st) r)
  else match lookupZ (points st) (rid r.1) with
       | Some _ => FPoint (rid r.1)
       | None => FUndefined
       end.

Definition getClusters (st : PointCluster) (bbox : BBox) (zoom : Q)
  : outcome (list Feature) :=
  match trees st !! _limitZoom (options st) zoom with
  | None => Err TypeError
  | Some data =>
      Ok ((λ id, match data !! id with
                 | Some r => project st r
                 | None => FUndefined
                 end) <$> range (coordsOf data.*1) bbox)
  end.

Definition childrenOf (st : PointCluster) (data : list PRec) (clusterId : Z)
    (ids : list nat) : list Feature :=
  omap (λ id, match data !! id with
              | Some rk => if rparent rk.1 =? clusterId then Some (project st rk) else None
              | None => None
              end) ids.

Definition getChildren (st : PointCluster) (clusterId : Z) : outcome (list Feature) :=
  let N := Z.of_nat (length (points st)) in
  let originId := _getOriginId N clusterId in
  let originZoom := _getOriginZoom N clusterId in
  match trees st !! originZoom with
  | None => Err NoCluster
  | Some data =>
      if Z.of_nat (length data) <=? originId then Err NoCluster
      else
        let r := ndiv (radius (options st)) (ofZ (originZoom - 1)) in
        let anchor := fst <$> lookupZ data originId in
        let ids := within (coordsOf data.*1) (rx <$> anchor) (ry <$> anchor) r in
        let children := childrenOf st data clusterId ids in
        match children with
        | [] => Err NoCluster
        | _ => Ok children
        end
  end.

End WithReduce.

End WithReduce.

Section WithoutProps.

Context {JS : JSNumber} {KD : KDBush} {P C : Type}.

(** The instance with the seventh slot, the callbacks and
    [this.clusterProps] dropped: what the queries read, apart from the
    aggregated properties of a cluster. *)
Definition withoutProps (st : @WithReduce.PointCluster JS P C) : @PointCluster JS P :=
  mkState (WithReduce.options st)
          ((λ data : list WithReduce.PRec, data.*1) <$> WithReduce.trees st)
          (WithReduce.points st).

(** A query result with the aggregated properties dropped. *)
Definition plainFeature (f : @WithReduce.Feature JS C) : @Feature JS :=
  match f with
  | WithReduce.FPoint idx => FPoint idx
  | WithReduce.FCluster c _ => FCluster c
  | WithReduce.FUndefined => FUndefined
  end.

End WithoutProps.

(** ** Notions used to state the properties of the aggregation *)

Section AggregatedValues.

Context {JS : JSNumber} {KD : KDBush} {P C : Type}.

(** The aggregated properties a record stands for: what [map] makes of
    the properties of an input point, or the entry of [clusterProps] that
    the slot [OFFSET_PROP] of a cluster names. *)
Definition valueOf (m : P → C) (pts : list (@Point JS P)) (clusterProps : list C)
    (r : WithReduce.PRec) : option C :=
  if 1 <? rnum r.1 then lookupZ clusterProps r.2
  else (λ p, m (properties p)) <$> lookupZ pts (rid r.1).

(** What [map] makes of the input point at position [l]. *)
Definition mapped (m : P → C) (pts : list (@Point JS P)) (l : Z) : option C :=
  (λ p, m (properties p)) <$> lookupZ pts l.

(** [clusterPropIndex] in the loop that absorbs the neighbours, when
    [clusterProps] held [cps] before the loop: -1 until
    [clusterProperties] is set, the position of the new entry then. *)
Definition indexOf (cps : list C) (clusterProperties : option C) : Z :=
  match clusterProperties with Some _ => Z.of_nat (length cps) | None => -1 end.

(** What [_map] needs of a record that is no cluster: its identifier is
    the position of an input point, whose properties it reads. *)
Definition pointRecord (pts : list (@Point JS P)) (r : WithReduce.PRec) : Prop :=
  (1 <? rnum r.1) = false → is_Some (lookupZ pts (rid r.1)).

End AggregatedValues.

(** ** Invariants of the aggregation *)

Section AggregationInvariants.

Context {JS : JSNumber} {KD : KDBush} {P C : Type}.
Variable m : P → C.
Variable pts : list (@Point JS P).

(** A measure of aggregated properties, such as the value of one key. *)
Variable μ : C → Z.

(** The measure of what the record at position [k] stands for. *)
Definition measureAt (cps : list C) (data : list WithReduce.PRec) (k : nat) : Z :=
  match data !! k ≫= valueOf m pts cps with Some v => μ v | None => 0 end.

(** A record [o] of [nextData] and the positions [g] it stands for: its
    slot [OFFSET_PROP] is within [clusterProps], and the measure of its
    properties is the sum of the measures over [g]. *)
Definition AggRel (cps0 : list C) (data0 : list WithReduce.PRec) (cps : list C)
    (g : list nat) (o : WithReduce.PRec) : Prop :=
  0 ≤ o.2 ≤ Z.of_nat (length cps)
  ∧ ∃ V, valueOf m pts cps o = Some V ∧ μ V = sumZ (measureAt cps0 data0 <$> g).

(** Every record of a level stands for aggregated properties. *)
Definition AggLevel (cps : list C) (lvl : list WithReduce.PRec) : Prop :=
  ∀ j rp, lvl !! j = Some rp →
          0 ≤ rp.2 ≤ Z.of_nat (length cps) ∧ is_Some (valueOf m pts cps rp).

(** The state of the outer loop of the pass with aggregation: that of the
    pass on the six slots, with the same groups; the slots [OFFSET_PROP]
    of the buffer are unchanged, and [clusterProps] has grown by at most
    one entry for each record written. *)
Record AggInv (opts : Options) (N z : Z) (data0 : list WithReduce.PRec) (cps0 : list C)
    (i : nat) (data next : list WithReduce.PRec) (cps : list C)
    (groups : list (list nat)) : Prop := {
  agg_pass : PassInv opts N z data0.*1 i data.*1 next.*1 groups;
  agg_props : data.*2 = data0.*2;
  agg_prefix : cps0 `prefix_of` cps;
  agg_length : (length cps ≤ length cps0 + length next)%nat;
  agg_groups : Forall2 (AggRel cps0 data0 cps) groups next
}.

(** The measure of what [map] makes of the input point at position [l]. *)
Definition pointMeasure (l : Z) : Z :=
  match mapped m pts l with Some v => μ v | None => 0 end.

(** The records of a level of the instance [st] with their leaves: the
    measure of the properties of each is the sum over its leaves. *)
Definition AggLeaves (st : @PointCluster JS P) (d : nat) (cps : list C)
    (lvl : list WithReduce.PRec) : Prop :=
  ∃ Ls : list (list Z),
    Forall2 (λ rp L, hasLeaves st d (project st rp.1) L
                     ∧ Z.of_nat (length L) = rnum rp.1
                     ∧ 0 ≤ rp.2 ≤ Z.of_nat (length cps)
                     ∧ ∃ V, valueOf m pts cps rp = Some V
                            ∧ μ V = sumZ (pointMeasure <$> L)) lvl Ls.

(** The cluster records of a stored level: each has an entry of
    [clusterProps], whose measure is the sum over the leaves of the
    cluster. *)
Definition AggStored (st : @PointCluster JS P) (cps : list C)
    (data : list WithReduce.PRec) : Prop :=
  ∀ j r p, data !! j = Some (r, p) → 1 < rnum r →
    ∃ V L d, (d ≤ passes (options st))%nat
             ∧ lookupZ cps p = Some V
             ∧ hasLeaves st d (FCluster (_getClusterJSON r)) L
             ∧ μ V = sumZ (pointMeasure <$> L).

End AggregationInvariants.

(** ** A reference instance

    Exact rational arithmetic ([Math.fround] is the identity, and [x / 0]
    is Rocq's 0, so the examples cluster at zoom 1 and above) with an
    index that scans the coordinates in order, as KDBush does for a tree
    of at most [nodeSize] points. *)
Module Reference.

Definition sqDist (ax ay bx by' : Q) : Q :=
  ((ax - bx) * (ax - bx) + (ay - by') * (ay - by'))%Q.

#[export] Instance QNumber : JSNumber := {|
  num := Q;
  ofZ := inject_Z;
  nadd := Qplus;
  nmul := Qmult;
  ndiv := Qdiv;
  nle := Qle_bool;
  fround := λ q, q
|}.

Definition nearB (cs : list (Q * Q)) (x y r : Q) (i : nat) : bool :=
  match cs !! i with
  | Some (px, py) => Qle_bool (sqDist px py x y) (r * r)
  | None => false
  end.

Definition scanWithin (cs : list (Q * Q)) (qx qy : option Q) (r : Q) : list nat :=
  match qx, qy with
  | Some x, Some y => filter (λ i, nearB cs x y r i = true) (seq 0 (length cs))
  | _, _ => []
  end.

Definition insideB (cs : list (Q * Q)) (b : Q * Q * Q * Q) (i : nat) : bool :=
  match cs !! i with
  | Some p => inside b p
  | None => false
  end.

Definition scanRange (cs : list (Q * Q)) (b : Q * Q * Q * Q) : list nat :=
  filter (λ i, insideB cs b i = true) (seq 0 (length cs)).

#[export] Instance ScanIndex : KDBush := {|
  within := scanWithin;
  range := scanRange
|}.

Definition pt (x y : Z) : @Point QNumber unit := mkPoint (inject_Z x, inject_Z y) tt.

(** radius 40, minPoints 2, minZoom 1, maxZoom 4 *)
Definition opts14 : PartialOptions :=
  mkPartial (Some 1) (Some 4) None None None None.

Definition threePoints : list (@Point QNumber unit) :=
  [pt 0 0; pt 1 1; pt 100 100].

Definition loaded (o : PartialOptions) (pts : list (@Point QNumber unit))
  : outcome (@PointCluster QNumber unit) :=
  match constructor o with
  | Ok st => load st pts
  | Err e => Err e
  end.

(** The instance [constructor opts14] returns, and the one [load] makes
    of it. *)
Definition st0 : @PointCluster QNumber unit := mkState (mergeOptions opts14) ∅ [].

Definition st3 : @PointCluster QNumber unit :=
  match load st0 threePoints with Ok st => st | Err _ => st0 end.

Definition box : Q * Q * Q * Q :=
  (inject_Z (-10), inject_Z (-10), inject_Z 110, inject_Z 110).

(** The cluster of the points 0 and 1, as the level of zoom 4 holds it. *)
Definition cluster01 : @Rec QNumber := mkRec (1 # 2) (1 # 2) (ZAt 3) 8 (-1) 2.

(** A second point set, for a second [load]. *)
Definition twoPoints : list (@Point QNumber unit) := [pt 7 7; pt 8 8].

(** Options with more zoom levels than the identifier has room for. *)
Definition opts40 : PartialOptions := mkPartial (Some 1) (Some 40) None None None None.

(** Two points 1 apart, loaded with these options. *)
Definition twoClose : list (@Point QNumber unit) := [pt 0 0; pt 1 0].

Definition stDeep : @PointCluster QNumber unit :=
  match loaded opts40 twoClose with Ok st => st | Err _ => st0 end.

(** Options with the zooms up to 31, the last one that five bits hold. *)
Definition opts31 : PartialOptions := mkPartial (Some 1) (Some 31) None None None None.

(** Three points, the first two 1 apart: within 40 / 31 of each other. *)
Definition threeNear : list (@Point QNumber unit) := [pt 0 0; pt 1 0; pt 100 100].

Definition st31 : @PointCluster QNumber unit :=
  match loaded opts31 threeNear with Ok st => st | Err _ => st0 end.

(** The cluster of the points 0 and 1 that the pass at zoom 31 forms, as
    the level of zoom 31 holds it: its identifier is
    (0 << 5) + (31 + 1) + 3. *)
Definition cluster31 : @Rec QNumber := mkRec (1 # 2) (0 # 2) (ZAt 30) 35 (-1) 2.

(** The scaling function of the README: [(zoom) => Math.pow(2, -zoom)]. *)
Definition customScale (zoom : Z) : Q := (1 / 2 ^ zoom)%Q.

Definition optsScaled : PartialOptions :=
  mkPartial (Some 1) (Some 4) None None None (Some customScale).

(** Two points 15 apart, loaded with the scaling function configured. *)
Definition twoApart : list (@Point QNumber unit) := [pt 0 0; pt 15 0].

Definition stScaled : @PointCluster QNumber unit :=
  match loaded optsScaled twoApart with Ok st => st | Err _ => st0 end.

(** The instance [load] makes of no point. *)
Definition stEmpty : @PointCluster QNumber unit :=
  match load st0 [] with Ok st => st | Err _ => st0 end.

(** Input points that carry a number, and the callbacks of the README,
    [map: (props) => ({ sum: props.myValue })] and
    [reduce: (accumulated, props) => { accumulated.sum += props.sum }],
    with the aggregated properties reduced to the number under [sum]. *)
Definition ptv (x y v : Z) : @Point QNumber Z := mkPoint (inject_Z x, inject_Z y) v.

Definition sumCallbacks : @WithReduce.Callbacks Z Z :=
  WithReduce.mkCallbacks (Some (λ v, v)) (λ accumulated props, accumulated + default 0 props) 0.

Definition valued : list (@Point QNumber Z) := [ptv 0 0 5; ptv 1 1 7; ptv 20 20 11].

(** The instance the constructor returns for these callbacks, and the
    one [load] makes of it. *)
Definition sr0 : @WithReduce.PointCluster QNumber Z Z :=
  WithReduce.mkState (mergeOptions opts14) sumCallbacks ∅ [] [].

Definition sr3 : @WithReduce.PointCluster QNumber Z Z :=
  match WithReduce.load sr0 valued with Ok st => st | Err _ => sr0 end.

(** The same with [reduce] and no [map]. *)
Definition reduceOnly : @WithReduce.Callbacks Z Z :=
  WithReduce.mkCallbacks None (λ accumulated props, accumulated + default 0 props) 0.

Definition sn0 : @WithReduce.PointCluster QNumber Z Z :=
  WithReduce.mkState (mergeOptions opts14) reduceOnly ∅ [] [].

End Reference.

(** * Properties *)

(** ** Numbers and the identifier encoding *)

Lemma f32_exact n : Z.abs n ≤ 2 ^ 24 → f32 n = n.
Proof.
  intros Hn. unfold f32.
  destruct (Z.leb_spec (Z.abs n) (2 ^ 24)); [done | lia].
Qed.

Lemma toInt32_small v : - 2 ^ 31 ≤ v < 2 ^ 31 → toInt32 v = v.
Proof.
  intros Hv. unfold toInt32.
  rewrite Z.mod_small by lia. lia.
Qed.

Lemma shl5_small v : 0 ≤ v < 2 ^ 26 → shl5 v = 32 * v.
Proof.
  intros Hv. unfold shl5.
  rewrite (toInt32_small v) by lia.
  rewrite Z.shiftl_mul_pow2 by lia.
  rewrite toInt32_small; lia.
Qed.

Lemma encodeId_small N i zoom :
  0 ≤ i < 2 ^ 26 → encodeId N i zoom = 32 * i + (zoom + 1) + N.
Proof.
  intros Hi. unfold encodeId.
  rewrite (toInt32_small i) by lia.
  by rewrite shl5_small.
Qed.

Lemma getOriginId_encoded N i s :
  0 ≤ i < 2 ^ 26 → 0 ≤ s < 32 → _getOriginId N (32 * i + s + N) = i.
Proof.
  intros Hi Hs. unfold _getOriginId, sar5.
  replace (32 * i + s + N - N) with (s + i * 32) by lia.
  rewrite toInt32_small by lia.
  rewrite Z.shiftr_div_pow2 by lia.
  change (2 ^ 5) with 32.
  rewrite Z.div_add by lia.
  rewrite Z.div_small by lia. lia.
Qed.

Lemma getOriginZoom_encoded N i s :
  0 ≤ i → 0 ≤ s < 32 → _getOriginZoom N (32 * i + s + N) = s.
Proof.
  intros Hi Hs. unfold _getOriginZoom.
  replace (32 * i + s + N - N) with (s + i * 32) by lia.
  rewrite Z.rem_mod_nonneg by lia.
  rewrite Z.mod_add by lia.
  apply Z.mod_small. lia.
Qed.

(** C3, as amended: for every zoom in [0, 30], every anchor position below
    2^26 and every point count N, decoding the identifier
    [(anchor << 5) + (zoom + 1) + N] gives back the anchor position and
    the stored [zoom + 1], which is the origin zoom. *)
Theorem C3_encoding_round_trip N anchor zoom :
  0 ≤ zoom ≤ 30 →
  0 ≤ anchor < 2 ^ 26 →
  _getOriginId N (encodeId N anchor zoom) = anchor
  ∧ _getOriginZoom N (encodeId N anchor zoom) = zoom + 1.
Proof.
  intros Hz Ha. rewrite encodeId_small by done.
  split.
  - apply getOriginId_encoded; lia.
  - apply getOriginZoom_encoded; lia.
Qed.

Lemma C3_encoding_round_trip_witness :
  _getOriginId 3 (encodeId 3 7 30) = 7 ∧ _getOriginZoom 3 (encodeId 3 7 30) = 30 + 1.
Proof. apply (C3_encoding_round_trip 3 7 30); lia. Defined.

(** C3 as stated fails at zoom 31: the identifier of anchor 0 decodes to
    anchor 1 at origin zoom 0. *)
Lemma C3_zoom_31_is_lossy :
  0 ≤ 31 ≤ 31 ∧ 0 ≤ 0 < 2 ^ 26
  ∧ _getOriginId 3 (encodeId 3 0 31) = 1
  ∧ _getOriginId 3 (encodeId 3 0 31) ≠ 0
  ∧ _getOriginZoom 3 (encodeId 3 0 31) = 0
  ∧ _getOriginZoom 3 (encodeId 3 0 31) ≠ 31 + 1
  ∧ _getOriginZoom 3 (encodeId 3 0 31) ≠ 31.
Proof. vm_compute. repeat split; congruence. Qed.

(** ** Sums *)

Lemma sumZ_app l1 l2 : sumZ (l1 ++ l2) = sumZ l1 + sumZ l2.
Proof. induction l1 as [|a l1 IH]; simpl; lia. Qed.

Lemma sumZ_perm l1 l2 : l1 ≡ₚ l2 → sumZ l1 = sumZ l2.
Proof. induction 1; simpl; lia. Qed.

#[global] Instance sumZ_Permutation : Proper ((≡ₚ) ==> (=)) sumZ.
Proof. intros l1 l2. apply sumZ_perm. Qed.

Lemma sumZ_nonneg l : Forall (λ v, 0 ≤ v) l → 0 ≤ sumZ l.
Proof. induction 1; simpl in *; lia. Qed.

Lemma sumZ_elem_le l v : Forall (λ v, 0 ≤ v) l → v ∈ l → v ≤ sumZ l.
Proof.
  induction 1 as [|a l Ha Hl IH]; intros Hin.
  - by apply elem_of_nil in Hin.
  - apply elem_of_cons in Hin as [->|Hin]; simpl.
    + pose proof (sumZ_nonneg l Hl). lia.
    + specialize (IH Hin). lia.
Qed.

Lemma sumZ_length_le l : Forall (λ v, 1 ≤ v) l → Z.of_nat (length l) ≤ sumZ l.
Proof. induction 1; simpl in *; lia. Qed.

Lemma sumZ_pos_nonempty l : Forall (λ v, 1 ≤ v) l → l ≠ [] → 0 < sumZ l.
Proof.
  intros Hl Hne. destruct Hl as [|a l Ha Hl]; [done|].
  simpl in *. pose proof (sumZ_length_le l Hl). lia.
Qed.

(** ** Markers *)

Lemma markGt_negb m z : markGt m z = negb (markLe m z).
Proof.
  destruct m as [|k]; simpl; [done|].
  destruct (Z.ltb_spec z k), (Z.leb_spec k z); simpl; lia || done.
Qed.

Section PassProofs.

Context {JS : JSNumber} {KD : KDBush}.
Variable opts : Options.
Variable N : Z.
Variable z : Z.

Hypothesis z_exact : Z.abs z ≤ 2 ^ 24.

Lemma setZoom_visited r : markLe (rzoom (setZoom z r)) z = true.
Proof. simpl. rewrite f32_exact by done. lia. Qed.

Lemma static_insert (data : list Rec) k r r' :
  data !! k = Some r → static r' = static r →
  static <$> <[k := r']> data = static <$> data.
Proof.
  intros Hk Hs. rewrite list_fmap_insert, Hs.
  apply list_insert_id. by rewrite list_lookup_fmap, Hk.
Qed.

Lemma coordsOf_static (d1 d2 : list Rec) :
  static <$> d1 = static <$> d2 → coordsOf d1 = coordsOf d2.
Proof.
  intros Hs. unfold coordsOf.
  change (map (λ r : Rec, (rx r, ry r)) d1) with ((λ r : Rec, (rx r, ry r)) <$> d1).
  change (map (λ r : Rec, (rx r, ry r)) d2) with ((λ r : Rec, (rx r, ry r)) <$> d2).
  assert (Hc : ∀ d : list Rec, (λ r : Rec, (rx r, ry r)) <$> d = (λ s : num * num * Z * Z, (s.1.1.1, s.1.1.2)) <$> (static <$> d)).
  { intros d. rewrite <- list_fmap_compose. done. }
  by rewrite !Hc, Hs.
Qed.

Lemma static_inv (r r' : Rec) :
  static r = static r' → rx r = rx r' ∧ ry r = ry r' ∧ rid r = rid r' ∧ rnum r = rnum r'.
Proof. unfold static. by intros [= ? ? ? ?]. Qed.

Lemma rnum_static (d1 d2 : list Rec) :
  static <$> d1 = static <$> d2 → rnum <$> d1 = rnum <$> d2.
Proof.
  intros Hs.
  assert (Hc : ∀ d : list Rec, rnum <$> d = (λ s : num * num * Z * Z, s.2) <$> (static <$> d)).
  { intros d. rewrite <- list_fmap_compose. done. }
  by rewrite !Hc, Hs.
Qed.

Lemma static_length (d1 d2 : list Rec) :
  static <$> d1 = static <$> d2 → length d1 = length d2.
Proof. intros Hs. apply (f_equal length) in Hs. by rewrite !length_fmap in Hs. Qed.

Lemma static_lookup (d1 d2 : list Rec) k r :
  static <$> d1 = static <$> d2 → d1 !! k = Some r →
  ∃ r', d2 !! k = Some r' ∧ static r' = static r.
Proof.
  intros Hs Hk.
  assert (Hl : (static <$> d2) !! k = Some (static r)).
  { rewrite <- Hs. by rewrite list_lookup_fmap, Hk. }
  rewrite list_lookup_fmap in Hl.
  destruct (d2 !! k) as [r'|]; [|done]. simpl in Hl. exists r'. split; [done|congruence].
Qed.

Lemma rnumAt_static (d1 d2 : list Rec) k :
  static <$> d1 = static <$> d2 → rnumAt d1 k = rnumAt d2 k.
Proof.
  intros Hs. unfold rnumAt.
  destruct (d1 !! k) as [r|] eqn:Hk.
  - destruct (static_lookup _ _ _ _ Hs Hk) as (r' & -> & Hr). by inversion Hr.
  - destruct (d2 !! k) as [r'|] eqn:Hk'; [|done].
    symmetry in Hs. destruct (static_lookup _ _ _ _ Hs Hk') as (r'' & Hr & _). congruence.
Qed.

(** ** [upd] *)

Lemma upd_lookup C f (data : list Rec) k :
  upd C f data !! k = (λ r, if decide (k ∈ C) then f r else r) <$> data !! k.
Proof. unfold upd. by rewrite list_lookup_imap. Qed.

Lemma upd_static C f (data : list Rec) :
  (∀ r, static (f r) = static r) → static <$> upd C f data = static <$> data.
Proof.
  intros Hf. apply list_eq. intros k.
  rewrite !list_lookup_fmap, upd_lookup.
  destruct (data !! k) as [r|]; simpl; [|done].
  case_decide; by rewrite ?Hf.
Qed.

(** ** The loops over the neighbours *)

Lemma countStep_eq (data : list Rec) acc k :
  countStep z data acc k = acc + (if unv z data k then rnumAt data k else 0).
Proof.
  unfold countStep, unv, rnumAt. destruct (data !! k) as [rk|]; [|lia].
  destruct (markGt (rzoom rk) z); lia.
Qed.

Lemma count_fold (data : list Rec) nb acc :
  fold_left (countStep z data) nb acc
  = acc + sumZ (rnumAt data <$> filter (λ k, unv z data k = true) nb).
Proof.
  revert acc. induction nb as [|k nb IH]; intros acc; simpl; [lia|].
  rewrite IH, countStep_eq, filter_cons.
  destruct (unv z data k) eqn:Hu.
  - rewrite decide_True by done. csimpl. lia.
  - rewrite decide_False by congruence. lia.
Qed.

Local Abbreviation once := (onceAt z).

Lemma once_once f r : markLe (rzoom (f r)) z = true → once f (once f r) = once f r.
Proof.
  intros Hf. unfold once. destruct (markLe (rzoom r) z) eqn:Hr.
  - by rewrite Hr.
  - by rewrite Hf.
Qed.

Lemma absorb_fold id nb (data : list Rec) wx wy :
  ∃ data' wx' wy',
    fold_left (absorbStep z id) nb (data, wx, wy) = (data', wx', wy')
    ∧ ∀ k, data' !! k
           = (if decide (k ∈ nb) then once (λ r, setParent id (setZoom z r)) <$> data !! k
              else data !! k).
Proof.
  revert data wx wy. induction nb as [|a nb IH]; intros data wx wy.
  - exists data, wx, wy. split; [done|]. intros k.
    rewrite decide_False; [done|]. apply not_elem_of_nil.
  - set (f := λ r : Rec, setParent id (setZoom z r)).
    assert (Hf : ∀ r, markLe (rzoom (f r)) z = true) by (intros r; apply setZoom_visited).
    assert (Hstep : ∃ d1 wx1 wy1,
      absorbStep z id (data, wx, wy) a = (d1, wx1, wy1)
      ∧ ∀ k, d1 !! k = if decide (k = a) then once f <$> data !! k else data !! k).
    { simpl. destruct (data !! a) as [ra|] eqn:Ha.
      - destruct (markLe (rzoom ra) z) eqn:Hm.
        + exists data, wx, wy. split; [done|]. intros k. case_decide; [|done].
          subst k. rewrite Ha. simpl. unfold once. by rewrite Hm.
        + eexists _, _, _. split; [done|]. intros k. case_decide.
          * subst k. rewrite list_lookup_insert_eq by (by eapply lookup_lt_Some).
            rewrite Ha. simpl. unfold once. by rewrite Hm.
          * by rewrite list_lookup_insert_ne.
      - exists data, wx, wy. split; [done|]. intros k. case_decide; [|done].
        subst k. by rewrite Ha. }
    destruct Hstep as (d1 & wx1 & wy1 & Hs1 & Hd1).
    cbn [fold_left]. rewrite Hs1.
    destruct (IH d1 wx1 wy1) as (d2 & wx2 & wy2 & -> & Hd2).
    exists d2, wx2, wy2. split; [done|]. intros k.
    rewrite Hd2, Hd1.
    destruct (decide (k ∈ a :: nb)) as [Hin|Hin].
    + apply elem_of_cons in Hin. destruct (decide (k = a)) as [->|Hka].
      * destruct (decide (a ∈ nb)); [|done].
        destruct (data !! a) as [ra|]; simpl; [|done]. f_equal. apply (once_once f), Hf.
      * destruct Hin as [?|Hin]; [contradiction|]. rewrite decide_True by done. reflexivity.
    + apply not_elem_of_cons in Hin as [? ?].
      by rewrite !decide_False.
Qed.

Lemma omap_ext_in {A B} (f g : A → option B) (l : list A) :
  (∀ x, x ∈ l → f x = g x) → omap f l = omap g l.
Proof.
  induction l as [|a l IH]; intros Hfg; [done|]. csimpl.
  rewrite (Hfg a) by (apply elem_of_cons; auto).
  rewrite IH; [done|]. intros x Hx. apply Hfg, elem_of_cons. auto.
Qed.

Lemma omap_cons {A B} (f : A → option B) a (l : list A) :
  omap f (a :: l) = option_list (f a) ++ omap f l.
Proof. csimpl. by destruct (f a). Qed.

Lemma omap_filter {A B} (f : A → option B) (Q : A → Prop) `{∀ x, Decision (Q x)} (l : list A) :
  omap f (filter Q l) = omap (λ x, if decide (Q x) then f x else None) l.
Proof.
  induction l as [|a l IH]; [done|].
  rewrite filter_cons, (omap_cons _ a l). destruct (decide (Q a)).
  - by rewrite omap_cons, IH.
  - by rewrite IH.
Qed.

Lemma unv_false_iff (data : list Rec) k :
  unv z data k = true ↔ ∃ r, data !! k = Some r ∧ markLe (rzoom r) z = false.
Proof.
  unfold unv. destruct (data !! k) as [r|].
  - rewrite markGt_negb, negb_true_iff. split; [eauto|]. by intros (? & [= <-] & ?).
  - split; [done|]. by intros (? & ? & ?).
Qed.

Lemma copy_fold nb (data next : list Rec) :
  NoDup nb →
  ∃ data',
    fold_left (copyStep z) nb (data, next)
    = (data', next ++ omap (λ k, if unv z data k then setZoom z <$> data !! k else None) nb)
    ∧ ∀ k, data' !! k
           = (if decide (k ∈ nb) then once (setZoom z) <$> data !! k else data !! k).
Proof.
  revert data next. induction nb as [|a nb IH]; intros data next Hnd.
  - exists data. split; [by rewrite app_nil_r|]. intros k.
    rewrite decide_False; [done|]. apply not_elem_of_nil.
  - apply NoDup_cons in Hnd as [Ha Hnd].
    set (g := λ d k, if unv z d k then setZoom z <$> d !! k else None).
    assert (Hstep : ∃ d1,
      copyStep z (data, next) a = (d1, next ++ option_list (g data a))
      ∧ (∀ k, d1 !! k = if decide (k = a) then once (setZoom z) <$> data !! k else data !! k)).
    { unfold g, unv. simpl. destruct (data !! a) as [ra|] eqn:Hra.
      - rewrite markGt_negb. destruct (markLe (rzoom ra) z) eqn:Hm; simpl.
        + exists data. rewrite app_nil_r. split; [done|]. intros k. case_decide; [|done].
          subst k. rewrite Hra. simpl. unfold once. by rewrite Hm.
        + eexists. split; [done|]. intros k. case_decide.
          * subst k. rewrite list_lookup_insert_eq by (by eapply lookup_lt_Some).
            rewrite Hra. simpl. unfold once. by rewrite Hm.
          * by rewrite list_lookup_insert_ne.
      - exists data. simpl. rewrite app_nil_r. split; [done|]. intros k. case_decide; [|done].
        subst k. by rewrite Hra. }
    destruct Hstep as (d1 & Hs1 & Hd1).
    cbn [fold_left]. rewrite Hs1.
    destruct (IH d1 (next ++ option_list (g data a)) Hnd) as (d2 & -> & Hd2).
    exists d2. split.
    + f_equal. rewrite <- app_assoc. f_equal.
      rewrite (omap_cons (g data)). f_equal.
      apply omap_ext_in. intros k Hk. unfold g, unv.
      rewrite Hd1. rewrite decide_False; [done|]. by intros ->.
    + intros k. rewrite Hd2, Hd1.
      destruct (decide (k ∈ a :: nb)) as [Hin|Hin].
      * apply elem_of_cons in Hin. destruct (decide (k = a)) as [->|Hka].
        -- by rewrite decide_False.
        -- destruct Hin as [?|Hin]; [contradiction|]. by rewrite decide_True.
      * apply not_elem_of_cons in Hin as [? ?].
        by rewrite !decide_False.
Qed.

(** ** One iteration of the outer loop *)

Lemma clusterStep_skip (data next : list Rec) i :
  (∀ r, data !! i = Some r → markLe (rzoom r) z = true) →
  clusterStep opts N z (data, next) i = (data, next).
Proof.
  intros Hv. unfold clusterStep. destruct (data !! i) as [r|]; [|done].
  by rewrite (Hv r).
Qed.

Lemma taken_alt (data : list Rec) i ri nb :
  data !! i = Some ri →
  filter (λ k, unv z (<[i := setZoom z ri]> data) k = true) nb = taken z data i nb.
Proof.
  intros Hi. apply list_filter_iff. intros k. unfold unv.
  destruct (decide (k = i)) as [->|Hk].
  - rewrite list_lookup_insert_eq by (by eapply lookup_lt_Some).
    rewrite markGt_negb, setZoom_visited. simpl. split; [done|]. by intros [? _].
  - rewrite list_lookup_insert_ne by done. split; [done|]. by intros [_ ?].
Qed.

Lemma clusterStep_visit (data next : list Rec) i ri :
  data !! i = Some ri → markLe (rzoom ri) z = false →
  let nb := within (coordsOf data) (Some (rx ri)) (Some (ry ri)) (clusterRadius opts z) in
  let U := taken z data i nb in
  let total := rnum ri + sumZ (rnumAt data <$> U) in
  let id := encodeId N (Z.of_nat i) z in
  NoDup nb →
  (∀ k, k ∈ U → 1 ≤ rnumAt data k) →
  1 ≤ rnum ri →
  ∃ cx cy,
    clusterStep opts N z (data, next) i
    = if (rnum ri <? total) && (minPoints opts <=? total)
      then (upd (i :: U) (λ r, setParent id (setZoom z r)) data,
            next ++ [mkRec cx cy ZInfinity id (-1) total])
      else (upd (i :: U) (setZoom z) data,
            next ++ omap (λ k, setZoom z <$> data !! k) (i :: U)).
Proof.
  intros Hi Hm nb U total id Hnd HU Hri.
  set (data1 := <[i := setZoom z ri]> data).
  assert (Hst1 : static <$> data1 = static <$> data).
  { by apply static_insert with ri. }
  assert (Hcount : fold_left (countStep z data1) nb (rnum ri) = total).
  { rewrite count_fold. unfold data1. rewrite (taken_alt _ _ _ _ Hi). fold U.
    unfold total. f_equal. f_equal. apply list_fmap_ext. intros ? k ?.
    by apply rnumAt_static. }
  unfold clusterStep. rewrite Hi, Hm. cbv zeta. fold data1.
  rewrite (coordsOf_static _ _ Hst1).
  change (rx (setZoom z ri)) with (rx ri). change (ry (setZoom z ri)) with (ry ri).
  change (rnum (setZoom z ri)) with (rnum ri).
  fold nb. rewrite Hcount. fold id.
  assert (Hd1 : ∀ k, data1 !! k = if decide (k = i) then Some (setZoom z ri) else data !! k).
  { intros k. unfold data1. case_decide.
    - subst k. apply list_lookup_insert_eq. by eapply lookup_lt_Some.
    - by apply list_lookup_insert_ne. }
  assert (HinU : ∀ k, k ∈ U ↔ k ∈ nb ∧ k ≠ i ∧ unv z data k = true).
  { intros k. unfold U, taken. rewrite list_elem_of_filter. tauto. }
  destruct ((rnum ri <? total) && (minPoints opts <=? total)) eqn:Hcond.
  - destruct (absorb_fold id nb data1 (nmul (rx ri) (ofZ (rnum ri)))
                (nmul (ry ri) (ofZ (rnum ri)))) as (d2 & wx & wy & -> & Hd2).
    eexists _, _. f_equal.
    apply list_eq. intros k. rewrite upd_lookup.
    destruct (decide (k = i)) as [->|Hki].
    + rewrite list_lookup_alter_eq, Hd2, Hd1, Hi. cbn [fmap option_fmap option_map].
      rewrite (decide_True (P := i = i)) by done.
      rewrite (decide_True (P := i ∈ i :: U)) by (apply elem_of_cons; auto).
      destruct (decide (i ∈ nb)); simpl; [|done].
      unfold once. by rewrite setZoom_visited.
    + rewrite list_lookup_alter_ne, Hd2, Hd1 by done.
      rewrite (decide_False (P := k = i)) by done.
      destruct (data !! k) as [r|] eqn:Hk; simpl.
      * destruct (decide (k ∈ nb)) as [Hnb|Hnb]; simpl.
        -- unfold once. destruct (markLe (rzoom r) z) eqn:Hr.
           ++ rewrite decide_False; [done|]. intros [?|HkU]%elem_of_cons; [done|].
              apply HinU in HkU as (_ & _ & Hu). apply unv_false_iff in Hu as (r' & ? & ?).
              congruence.
           ++ rewrite decide_True; [done|]. apply elem_of_cons. right. apply HinU.
              split_and!; [done..|]. apply unv_false_iff. eauto.
        -- rewrite decide_False; [done|]. intros [?|HkU]%elem_of_cons; [done|].
           apply HinU in HkU. tauto.
      * by destruct (decide (k ∈ nb)).
  - exists (rx ri), (rx ri).
    rewrite (omap_cons _ i U), Hi. cbn [fmap option_fmap option_map option_list].
    assert (Hupd1 : ∀ d2 : list Rec,
      (∀ k, d2 !! k = (if decide (k ∈ nb) then once (setZoom z) <$> data1 !! k else data1 !! k)) →
      d2 = upd (i :: U) (setZoom z) data).
    { intros d2 Hd2. apply list_eq. intros k. rewrite upd_lookup, Hd2, Hd1.
      destruct (decide (k = i)) as [->|Hki].
      - rewrite Hi. cbn [fmap option_fmap option_map].
        rewrite (decide_True (P := i ∈ i :: U)) by (apply elem_of_cons; auto).
        destruct (decide (i ∈ nb)); simpl; [|done].
        unfold once. by rewrite setZoom_visited.
      - destruct (data !! k) as [r|] eqn:Hk; simpl.
        + destruct (decide (k ∈ nb)) as [Hnb|Hnb]; simpl.
          * unfold once. destruct (markLe (rzoom r) z) eqn:Hr.
            -- rewrite decide_False; [done|]. intros [?|HkU]%elem_of_cons; [done|].
               apply HinU in HkU as (_ & _ & Hu). apply unv_false_iff in Hu as (r' & ? & ?).
               congruence.
            -- rewrite decide_True; [done|]. apply elem_of_cons. right. apply HinU.
               split_and!; [done..|]. apply unv_false_iff. eauto.
          * rewrite decide_False; [done|]. intros [?|HkU]%elem_of_cons; [done|].
            apply HinU in HkU. tauto.
        + by destruct (decide (k ∈ nb)). }
    destruct (1 <? total) eqn:Htot.
    + destruct (copy_fold nb data1 (next ++ [setZoom z ri]) Hnd) as (d2 & -> & Hd2).
      f_equal; [by apply Hupd1|].
      rewrite <- app_assoc. f_equal. simpl. f_equal.
      unfold U, taken. rewrite omap_filter. apply omap_ext_in. intros k Hk.
      rewrite Hd1. unfold unv. rewrite Hd1.
      destruct (decide (k = i)) as [->|Hki].
      * rewrite markGt_negb, setZoom_visited. simpl.
        rewrite decide_False; [done|]. by intros [? _].
      * destruct (data !! k) as [r|] eqn:Hr.
        -- destruct (markGt (rzoom r) z) eqn:Hg.
           ++ by rewrite decide_True.
           ++ rewrite decide_False; [done|]. intros [_ ?]. congruence.
        -- rewrite decide_False; [done|]. by intros [_ ?].
    + assert (HUnil : U = []).
      { destruct U as [|u U'] eqn:HUeq; [done|]. exfalso.
        assert (0 < sumZ (rnumAt data <$> (u :: U'))).
        { apply sumZ_pos_nonempty; [|done].
          apply Forall_fmap, Forall_forall. intros k Hk. by apply HU. }
        apply Z.ltb_ge in Htot. unfold total in Htot. lia. }
      rewrite HUnil. f_equal.
      rewrite <- HUnil. apply Hupd1. intros k.
      destruct (decide (k ∈ nb)) as [Hnb|]; [|done].
      destruct (data1 !! k) as [r|] eqn:Hk; [|done]. simpl. f_equal.
      unfold once. destruct (markLe (rzoom r) z) eqn:Hr; [done|]. exfalso.
      rewrite Hd1 in Hk. destruct (decide (k = i)) as [->|Hki].
      * simplify_eq. by rewrite setZoom_visited in Hr.
      * assert (k ∈ U) as HkU; [|rewrite HUnil in HkU; by apply elem_of_nil in HkU].
        apply HinU. split_and!; [done..|]. apply unv_false_iff. eauto.
Qed.

(** ** The invariant of the outer loop *)

Variable data0 : list Rec.
Hypothesis pre : PassPre z data0.
Hypothesis within_ok : WithinContract.

Lemma PassInv_init : PassInv opts N z data0 0 data0 [] [].
Proof.
  split; try done.
  - intros k r Hk. lia.
  - constructor.
  - intros k. split; [by intros ?%elem_of_nil|].
    intros (r & Hk & Hv). destruct (pre k r Hk) as (Hu & _). congruence.
Qed.

(** A later iteration leaves the visited records alone, and so the groups
    formed so far. *)
Lemma GroupRel_step (data data' : list Rec) g o :
  (∀ k r, data !! k = Some r → markLe (rzoom r) z = true → data' !! k = Some r) →
  GroupRel opts N z data0 data g o →
  GroupRel opts N z data0 data' g o.
Proof.
  intros Hvis [(k & r0 & -> & Hk0 & -> & Hk)
              |(a & ra & U & cx & cy & -> & HU & Ha & Hnb & -> & Hmem)].
  - left. exists k, r0. split_and!; try done.
    apply Hvis; [done|]. apply setZoom_visited.
  - right. exists a, ra, U, cx, cy. split_and!; try done.
    intros k Hk. destruct (Hmem k Hk) as (r0 & Hr0 & Hd). exists r0. split; [done|].
    apply Hvis; [done|]. apply (setZoom_visited r0).
Qed.

(** The positions a visit of [i] marks. *)
Lemma marked_facts i (data next : list Rec) groups ri nb :
  PassInv opts N z data0 i data next groups →
  data !! i = Some ri → markLe (rzoom ri) z = false →
  NoDup nb →
  let C := i :: taken z data i nb in
  NoDup C
  ∧ (∀ k, k ∈ C → ∃ r, data !! k = Some r ∧ data0 !! k = Some r
                       ∧ markLe (rzoom r) z = false ∧ 1 ≤ rnum r)
  ∧ (∀ k, k ∈ C → k ∉ concat groups).
Proof.
  intros Hinv Hi Hm Hnd C.
  assert (HC : ∀ k, k ∈ C → ∃ r, data !! k = Some r ∧ markLe (rzoom r) z = false).
  { intros k [->|Hk]%elem_of_cons; [eauto|].
    apply list_elem_of_filter in Hk as [[_ Hu] _]. by apply unv_false_iff. }
  split_and!.
  - apply NoDup_cons. split.
    + intros Hin. apply list_elem_of_filter in Hin as [[? _] _]. done.
    + by apply NoDup_filter.
  - intros k Hk. destruct (HC k Hk) as (r & Hr & Hu). exists r.
    pose proof (inv_unv _ _ _ _ _ _ _ _ Hinv k r Hr Hu) as Hk0.
    destruct (pre k r Hk0) as (_ & ?). done.
  - intros k Hk Hin. destruct (HC k Hk) as (r & Hr & Hu).
    apply (inv_mem _ _ _ _ _ _ _ _ Hinv) in Hin as (r' & Hr' & Hv). congruence.
Qed.

(** What marking the positions [C] does to the invariant. *)
Lemma upd_inv i (data next : list Rec) groups C f :
  PassInv opts N z data0 i data next groups →
  i ∈ C →
  (∀ k, k ∈ C → ∃ r, data !! k = Some r ∧ markLe (rzoom r) z = false) →
  (∀ r, static (f r) = static r) →
  (∀ r, markLe (rzoom (f r)) z = true) →
  let data' := upd C f data in
  static <$> data' = static <$> data0
  ∧ (∀ k r, data' !! k = Some r → markLe (rzoom r) z = false → data0 !! k = Some r)
  ∧ (∀ k r, (k < S i)%nat → data' !! k = Some r → markLe (rzoom r) z = true)
  ∧ (∀ k r, data !! k = Some r → markLe (rzoom r) z = true → data' !! k = Some r)
  ∧ (∀ k, (∃ r, data' !! k = Some r ∧ markLe (rzoom r) z = true)
          ↔ (∃ r, data !! k = Some r ∧ markLe (rzoom r) z = true) ∨ k ∈ C).
Proof.
  intros Hinv HiC HC Hfs Hfv data'.
  assert (Hlk : ∀ k, data' !! k = (λ r, if decide (k ∈ C) then f r else r) <$> data !! k).
  { intros k. apply upd_lookup. }
  split_and!.
  - unfold data'. rewrite upd_static by done. apply Hinv.
  - intros k r. rewrite Hlk. destruct (data !! k) as [r0|] eqn:Hk; [|done]. simpl.
    case_decide; intros [= <-] Hu.
    + by rewrite Hfv in Hu.
    + by apply (inv_unv _ _ _ _ _ _ _ _ Hinv).
  - intros k r Hlt. rewrite Hlk. destruct (data !! k) as [r0|] eqn:Hk; [|done]. simpl.
    case_decide as HkC; intros [= <-]; [done|].
    destruct (decide (k = i)) as [->|Hne]; [done|].
    apply (inv_done _ _ _ _ _ _ _ _ Hinv k); [lia|done].
  - intros k r Hk Hv. rewrite Hlk, Hk. simpl.
    rewrite decide_False; [done|]. intros HkC.
    destruct (HC k HkC) as (r1 & Hr1 & Hu). congruence.
  - intros k. rewrite Hlk. split.
    + destruct (data !! k) as [r0|] eqn:Hk; simpl; [|by intros (? & ? & ?)].
      case_decide as HkC; [by right|]. intros (r & [= <-] & Hv). left. eauto.
    + intros [(r & Hk & Hv)|HkC].
      * rewrite Hk. simpl. rewrite decide_False; [eauto|]. intros HkC.
        destruct (HC k HkC) as (r1 & Hr1 & Hu). congruence.
      * destruct (HC k HkC) as (r1 & Hr1 & Hu). rewrite Hr1. simpl.
        rewrite decide_True by done. eauto.
Qed.

Lemma Forall2_singletons (Q : list nat → Rec → Prop) (f : nat → option Rec) C :
  (∀ k, k ∈ C → ∃ o, f k = Some o ∧ Q [k] o) →
  Forall2 Q ((λ k, [k]) <$> C) (omap f C).
Proof.
  induction C as [|c C IH]; intros HC; [constructor|].
  destruct (HC c) as (o & Ho & HQ); [apply elem_of_cons; auto|].
  rewrite omap_cons, Ho. csimpl. constructor; [done|].
  apply IH. intros k Hk. apply HC, elem_of_cons. auto.
Qed.

Lemma concat_singletons (C : list nat) : concat ((λ k, [k]) <$> C) = C.
Proof. induction C as [|c C IH]; csimpl; [done|]. by rewrite IH. Qed.

Lemma PassInv_step i (data next : list Rec) groups :
  PassInv opts N z data0 i data next groups →
  (i < length data0)%nat →
  ∃ data' next' groups',
    clusterStep opts N z (data, next) i = (data', next')
    ∧ PassInv opts N z data0 (S i) data' next' groups'.
Proof.
  intros Hinv Hi.
  assert (Hlen : length data = length data0) by (apply static_length, Hinv).
  destruct (lookup_lt_is_Some_2 data i) as [ri Hri]; [lia|].
  destruct (markLe (rzoom ri) z) eqn:Hm.
  { (* visited as a neighbour of an earlier record *)
    exists data, next, groups. split.
    - apply clusterStep_skip. intros r Hr. congruence.
    - destruct Hinv as [I1 I2 I3 I4 I5 I6]. split; try done.
      intros k r Hk Hr. destruct (decide (k = i)) as [->|?]; [congruence|].
      apply (I3 k); [lia|done]. }
  set (nb := within (coordsOf data) (Some (rx ri)) (Some (ry ri)) (clusterRadius opts z)).
  assert (Hnd : NoDup nb) by apply within_ok.
  destruct (marked_facts i data next groups ri nb Hinv Hri Hm Hnd) as (HCnd & HC & HCg).
  set (U := taken z data i nb) in *. set (C := i :: U) in *.
  destruct (clusterStep_visit data next i ri Hri Hm Hnd) as (cx & cy & Hstep).
  { intros k Hk. destruct (HC k) as (r & Hr & _ & _ & ?); [apply elem_of_cons; auto|].
    unfold rnumAt. by rewrite Hr. }
  { destruct (HC i) as (r & Hr & _ & _ & ?); [apply elem_of_cons; auto|]. congruence. }
  fold nb U C in Hstep.
  set (id := encodeId N (Z.of_nat i) z) in *.
  set (total := rnum ri + sumZ (rnumAt data <$> U)) in *.
  assert (HiC : i ∈ C) by (apply elem_of_cons; auto).
  assert (HC' : ∀ k, k ∈ C → ∃ r, data !! k = Some r ∧ markLe (rzoom r) z = false).
  { intros k Hk. destruct (HC k Hk) as (r & ? & ? & ? & ?). eauto. }
  assert (Hi0 : data0 !! i = Some ri).
  { destruct (HC i HiC) as (r & Hr & Hr0 & _). congruence. }
  assert (Htot : total = sumZ (rnumAt data0 <$> C)).
  { unfold C. csimpl. unfold total. f_equal.
    - unfold rnumAt. by rewrite Hi0.
    - f_equal. apply list_fmap_ext. intros ? k ?. apply rnumAt_static, Hinv. }
  assert (Hnb0 : nb = within (coordsOf data0) (Some (rx ri)) (Some (ry ri)) (clusterRadius opts z)).
  { unfold nb. f_equal. apply coordsOf_static, Hinv. }
  destruct ((rnum ri <? total) && (minPoints opts <=? total)) eqn:Hcond.
  - (* a cluster is formed *)
    set (f := λ r : Rec, setParent id (setZoom z r)) in *.
    destruct (upd_inv i data next groups C f Hinv HiC HC') as (U1 & U2 & U3 & U4 & U5).
    { done. } { intros r. apply (setZoom_visited r). }
    set (data' := upd C f data) in *.
    eexists data', _, (groups ++ [C]). split; [exact Hstep|].
    apply andb_true_iff in Hcond as [Hc1 Hc2]. apply Z.ltb_lt in Hc1.
    split; try done.
    + rewrite concat_app. simpl. rewrite app_nil_r. apply NoDup_app. split_and!.
      * apply Hinv.
      * intros k Hk HkC. by apply (HCg k).
      * done.
    + intros k. rewrite concat_app. simpl. rewrite app_nil_r, elem_of_app.
      rewrite U5. by rewrite (inv_mem _ _ _ _ _ _ _ _ Hinv).
    + apply Forall2_app.
      * eapply Forall2_impl; [apply Hinv|]. intros g' o. by apply GroupRel_step.
      * constructor; [|constructor]. right. exists i, ri, U, cx, cy.
        split_and!; try done.
        -- intros ->. unfold total in Hc1. simpl in Hc1. lia.
        -- intros k Hk. rewrite <- Hnb0. by apply list_elem_of_filter in Hk as [_ ?].
        -- by rewrite Htot.
        -- intros k Hk. destruct (HC k Hk) as (r & Hr & Hr0 & _). exists r. split; [done|].
           unfold data'. rewrite upd_lookup, Hr. simpl. by rewrite decide_True.
  - (* the record and its unvisited neighbours are copied forward *)
    destruct (upd_inv i data next groups C (setZoom z) Hinv HiC HC') as (U1 & U2 & U3 & U4 & U5).
    { done. } { intros r. apply setZoom_visited. }
    set (data' := upd C (setZoom z) data) in *.
    eexists data', _, (groups ++ ((λ k, [k]) <$> C)). split; [exact Hstep|].
    split; try done.
    + rewrite concat_app, concat_singletons. apply NoDup_app. split_and!.
      * apply Hinv.
      * intros k Hk HkC. by apply (HCg k).
      * done.
    + intros k. rewrite concat_app, concat_singletons, elem_of_app.
      rewrite U5. by rewrite (inv_mem _ _ _ _ _ _ _ _ Hinv).
    + apply Forall2_app.
      * eapply Forall2_impl; [apply Hinv|]. intros g' o. by apply GroupRel_step.
      * apply Forall2_singletons. intros k Hk.
        destruct (HC k Hk) as (r & Hr & Hr0 & _).
        exists (setZoom z r). rewrite Hr. split; [done|].
        left. exists k, r. split_and!; try done.
        unfold data'. rewrite upd_lookup, Hr. simpl. by rewrite decide_True.
Qed.

Lemma cluster_prefix i :
  (i ≤ length data0)%nat →
  ∃ data next groups,
    fold_left (clusterStep opts N z) (seq 0 i) (data0, []) = (data, next)
    ∧ PassInv opts N z data0 i data next groups.
Proof.
  induction i as [|i IH]; intros Hi.
  - exists data0, [], []. split; [done|]. apply PassInv_init.
  - destruct IH as (data & next & groups & Hfold & Hinv); [lia|].
    destruct (PassInv_step i data next groups Hinv) as (data' & next' & groups' & Hstep & Hinv');
      [lia|].
    exists data', next', groups'. split; [|done].
    by rewrite seq_S, fold_left_app, Hfold.
Qed.

(** When the loop is over every position is visited, so the groups
    partition the level. *)
Lemma cluster_post :
  PassPost opts N z data0 (_cluster opts N z data0).1 (_cluster opts N z data0).2.
Proof.
  destruct (cluster_prefix (length data0)) as (data & next & groups & Hfold & Hinv); [lia|].
  unfold _cluster. rewrite Hfold. simpl.
  exists groups. split_and!; [apply Hinv| |apply Hinv].
  apply NoDup_Permutation; [apply Hinv|apply NoDup_seq|].
  intros k. rewrite (inv_mem _ _ _ _ _ _ _ _ Hinv), elem_of_seq.
  assert (Hlen : length data = length data0) by (apply static_length, Hinv).
  split.
  - intros (r & Hr & _). apply lookup_lt_Some in Hr. lia.
  - intros [_ Hk]. destruct (lookup_lt_is_Some_2 data k) as [r Hr]; [lia|].
    exists r. split; [done|]. by apply (inv_done _ _ _ _ _ _ _ _ Hinv k).
Qed.

End PassProofs.

(** ** The slots no pass writes to *)

Section Static.
Context {JS : JSNumber} {KD : KDBush}.
Variable opts : Options.
Variables N z : Z.

Lemma absorb_static id nb (data : list Rec) wx wy :
  static <$> (fold_left (absorbStep z id) nb (data, wx, wy)).1.1 = static <$> data.
Proof.
  revert data wx wy. induction nb as [|k nb IH]; intros data wx wy; [done|].
  cbn [fold_left]. unfold absorbStep at 2.
  destruct (data !! k) as [rk|] eqn:Hk; [|apply IH].
  destruct (markLe (rzoom rk) z); [apply IH|].
  rewrite IH. by apply static_insert with rk.
Qed.

Lemma copy_static nb (data next : list Rec) :
  static <$> (fold_left (copyStep z) nb (data, next)).1 = static <$> data.
Proof.
  revert data next. induction nb as [|k nb IH]; intros data next; [done|].
  cbn [fold_left]. unfold copyStep at 2.
  destruct (data !! k) as [rk|] eqn:Hk; [|apply IH].
  destruct (markLe (rzoom rk) z); [apply IH|].
  rewrite IH. by apply static_insert with rk.
Qed.

Lemma clusterStep_static (data next : list Rec) i :
  static <$> (clusterStep opts N z (data, next) i).1 = static <$> data.
Proof.
  unfold clusterStep. destruct (data !! i) as [ri|] eqn:Hi; [|done].
  destruct (markLe (rzoom ri) z); [done|]. cbv zeta.
  assert (Hs1 : static <$> <[i := setZoom z ri]> data = static <$> data)
    by (by apply static_insert with ri).
  match goal with |- context [if ?c then _ else _] => destruct c end.
  - match goal with |- context [fold_left ?f ?l ?a] =>
      pose proof (absorb_static (encodeId N (Z.of_nat i) z) l (<[i := setZoom z ri]> data)
                    (nmul (rx (setZoom z ri)) (ofZ (rnum (setZoom z ri))))
                    (nmul (ry (setZoom z ri)) (ofZ (rnum (setZoom z ri))))) as Ha;
      destruct (fold_left f l a) as [[d2 wx] wy] end.
    simpl in *. rewrite <- Hs1, <- Ha.
    apply list_eq. intros k. rewrite !list_lookup_fmap.
    destruct (decide (k = i)) as [->|Hk].
    + rewrite list_lookup_alter_eq. by destruct (d2 !! i).
    + by rewrite list_lookup_alter_ne.
  - match goal with |- context [if ?c then _ else _] => destruct c end; [|done].
    by rewrite copy_static.
Qed.

Lemma cluster_static (data : list Rec) :
  static <$> (_cluster opts N z data).1 = static <$> data.
Proof.
  unfold _cluster. generalize (seq 0 (length data)). intros l.
  assert (Hgen : ∀ d next, static <$> (fold_left (clusterStep opts N z) l (d, next)).1 = static <$> d).
  { induction l as [|i l IH]; intros d next; [done|].
    cbn [fold_left]. destruct (clusterStep opts N z (d, next) i) as [d1 n1] eqn:Hstep.
    rewrite IH. pose proof (clusterStep_static d next i) as Hs. by rewrite Hstep in Hs. }
  apply Hgen.
Qed.

End Static.

(** ** What [load] stores *)

Section Load.
Context {JS : JSNumber} {KD : KDBush} {P : Type}.

Lemma loadLoop_spec (opts : Options) (pts : list (@Point JS P)) n k0 ts :
  let N := Z.of_nat (length pts) in
  let mz := maxZoom opts in
  let T := loadLoop opts N n (mz - Z.of_nat k0) (levelIn opts pts k0) ts in
  (∀ k, (k0 ≤ k < k0 + n)%nat →
        T !! (mz + 1 - Z.of_nat k)
        = Some (_cluster opts N (mz - Z.of_nat k) (levelIn opts pts k)).1)
  ∧ ((0 < n)%nat → T !! (mz + 1 - Z.of_nat (k0 + n)) = Some (levelIn opts pts (k0 + n)%nat))
  ∧ (∀ key, key < mz + 1 - Z.of_nat (k0 + n) ∨ mz + 1 - Z.of_nat k0 < key →
            T !! key = ts !! key)
  ∧ (n = 0%nat → T = ts).
Proof.
  intros N mz. revert k0 ts. induction n as [|n IH]; intros k0 ts T.
  - split_and!; try done; intros; lia.
  - unfold T. cbn [loadLoop].
    destruct (_cluster opts N (mz - Z.of_nat k0) (levelIn opts pts k0)) as [data' next] eqn:Hc.
    set (z := mz - Z.of_nat k0) in *.
    assert (Htree : _createTree next = levelIn opts pts (S k0)).
    { cbn [levelIn]. fold N mz z. by rewrite Hc. }
    rewrite Htree.
    replace (z - 1) with (mz - Z.of_nat (S k0)) by lia.
    set (ts' := <[z := levelIn opts pts (S k0)]> (<[z + 1 := data']> ts)).
    destruct (IH (S k0) ts') as (I1 & I2 & I3 & I4).
    assert (Hz1 : ts' !! (z + 1) = Some data').
    { unfold ts'. rewrite lookup_insert_ne by lia. apply lookup_insert_eq. }
    assert (Hz : ts' !! z = Some (levelIn opts pts (S k0))).
    { unfold ts'. apply lookup_insert_eq. }
    split_and!.
    + intros k Hk. destruct (decide (k = k0)) as [->|Hne].
      * rewrite I3 by lia. replace (mz + 1 - Z.of_nat k0) with (z + 1) by lia.
        rewrite Hz1. fold z. by rewrite Hc.
      * apply I1. lia.
    + intros _. destruct n as [|n].
      * rewrite I4 by done. replace (mz + 1 - Z.of_nat (k0 + 1)) with z by lia.
        by replace (k0 + 1)%nat with (S k0) by lia.
      * replace (k0 + S (S n))%nat with (S k0 + S n)%nat by lia. apply I2. lia.
    + intros key Hkey. rewrite I3 by lia. unfold ts'.
      rewrite !lookup_insert_ne by lia. done.
    + done.
Qed.

Lemma load_spec (st : @PointCluster JS P) (pts : list Point) :
  ∃ st', load st pts = Ok st'
    ∧ options st' = options st
    ∧ points st' = pts
    ∧ (∀ k, (k < passes (options st))%nat →
            trees st' !! (maxZoom (options st) + 1 - Z.of_nat k)
            = Some (_cluster (options st) (Z.of_nat (length pts))
                             (maxZoom (options st) - Z.of_nat k)
                             (levelIn (options st) pts k)).1)
    ∧ trees st' !! (maxZoom (options st) + 1 - Z.of_nat (passes (options st)))
      = Some (levelIn (options st) pts (passes (options st)))
    ∧ (∀ key, key < maxZoom (options st) + 1 - Z.of_nat (passes (options st))
              ∨ maxZoom (options st) + 1 < key →
              trees st' !! key = trees st !! key).
Proof.
  eexists. split; [reflexivity|]. cbn [options points trees].
  set (opts := options st). set (mz := maxZoom opts).
  set (ts := <[mz + 1 := _createTree (imap initialRec pts)]> (trees st)).
  pose proof (loadLoop_spec opts pts (passes opts) 0 ts) as Hl.
  cbv zeta in Hl. fold mz in Hl.
  replace (mz - Z.of_nat 0) with mz in Hl by lia.
  change (levelIn opts pts 0) with (_createTree (imap initialRec pts)) in Hl.
  change (Z.to_nat (mz - minZoom opts + 1)) with (passes opts).
  destruct Hl as (L1 & L2 & L3 & L4).
  split_and!; try done.
  - intros k Hk. apply L1. lia.
  - destruct (passes opts) as [|n] eqn:Hp.
    + rewrite L4 by done. replace (mz + 1 - Z.of_nat 0) with (mz + 1) by lia.
      unfold ts. apply lookup_insert_eq.
    + apply (L2 ltac:(lia)).
  - intros key Hkey. rewrite L3 by (simpl in *; lia).
    unfold ts. apply lookup_insert_ne. lia.
Qed.

End Load.

(** ** Groups of positions *)

Lemma elem_of_concat {A} (x : A) (ls : list (list A)) :
  x ∈ concat ls ↔ ∃ j l, ls !! j = Some l ∧ x ∈ l.
Proof.
  induction ls as [|l ls IH]; simpl.
  - split; [by intros ?%elem_of_nil|]. by intros (j & l & ? & _).
  - rewrite elem_of_app, IH. split.
    + intros [Hx|(j & l' & Hj & Hx)]; [by exists 0%nat, l|by exists (S j), l'].
    + intros ([|j] & l' & Hj & Hx); [left; by simplify_eq/=|right; by exists j, l'].
Qed.

(** With no position in two groups, a position tells its group. *)
Lemma NoDup_concat_index {A} (ls : list (list A)) j1 j2 l1 l2 x :
  NoDup (concat ls) →
  ls !! j1 = Some l1 → ls !! j2 = Some l2 → x ∈ l1 → x ∈ l2 → j1 = j2.
Proof.
  revert j1 j2. induction ls as [|l ls IH]; intros j1 j2 Hnd H1 H2 Hx1 Hx2; [done|].
  simpl in Hnd. apply NoDup_app in Hnd as (_ & Hdisj & Hnd).
  destruct j1 as [|j1], j2 as [|j2]; simplify_eq/=.
  - done.
  - exfalso. apply (Hdisj x Hx1). apply elem_of_concat. eauto.
  - exfalso. apply (Hdisj x Hx2). apply elem_of_concat. eauto.
  - f_equal. by apply IH.
Qed.

Lemma NoDup_concat_lookup {A} (ls : list (list A)) j l :
  NoDup (concat ls) → ls !! j = Some l → NoDup l.
Proof.
  revert j. induction ls as [|l' ls IH]; intros j Hnd Hj; [done|].
  simpl in Hnd. apply NoDup_app in Hnd as (Hl' & _ & Hnd).
  destruct j as [|j]; simplify_eq/=; [done|]. by eapply IH.
Qed.

Lemma rnumAt_seq {JS : JSNumber} (data : list (@Rec JS)) : rnumAt data <$> seq 0 (length data) = rnum <$> data.
Proof.
  apply list_eq. intros k. rewrite !list_lookup_fmap.
  destruct (decide (k < length data)%nat) as [Hk|Hk].
  - rewrite lookup_seq_lt by done. simpl. unfold rnumAt.
    destruct (lookup_lt_is_Some_2 data k Hk) as [r Hr]. by rewrite Hr.
  - rewrite lookup_seq_ge by lia. by rewrite lookup_ge_None_2 by lia.
Qed.

Section Groups.
Context {JS : JSNumber} {KD : KDBush}.
Variable opts : Options.
Variables N z : Z.
Variables data0 data' : list Rec.
Hypothesis z_exact : Z.abs z ≤ 2 ^ 24.
Hypothesis pre : PassPre z data0.

Lemma rnumAt_members (g : list nat) :
  (∀ k, k ∈ g → is_Some (data0 !! k)) →
  Z.of_nat (length g) ≤ sumZ (rnumAt data0 <$> g).
Proof.
  intros Hg. rewrite <- (length_fmap (rnumAt data0)). apply sumZ_length_le.
  apply Forall_fmap, Forall_forall. intros k Hk. simpl.
  destruct (Hg k Hk) as [r Hr]. unfold rnumAt. rewrite Hr.
  by destruct (pre k r Hr).
Qed.

(** The count of a record written is the sum over its group. *)
Lemma GroupRel_rnum g o :
  GroupRel opts N z data0 data' g o → rnum o = sumZ (rnumAt data0 <$> g).
Proof.
  intros [(k & r0 & -> & Hk0 & -> & _)|(a & ra & U & cx & cy & _ & _ & _ & _ & -> & _)];
    [|done].
  csimpl. unfold rnumAt. rewrite Hk0. simpl. lia.
Qed.

Lemma merged_count g o :
  mergedFrom opts N z data0 data' g o → 1 < rnum o.
Proof.
  intros (a & ra & U & cx & cy & -> & HU & Ha & Hnb & -> & Hmem). cbn [rnum].
  assert (Hle : Z.of_nat (length (a :: U)) ≤ sumZ (rnumAt data0 <$> a :: U)).
  { apply rnumAt_members. intros k Hk. destruct (Hmem k Hk) as (r0 & -> & _). by eexists. }
  destruct U as [|u U]; [done|]. cbn [length] in Hle. lia.
Qed.

Lemma post_sum next :
  PassPost opts N z data0 data' next →
  sumZ (rnum <$> next) = sumZ (rnum <$> data0).
Proof.
  intros (groups & Hst & Hperm & Hg).
  rewrite <- (rnumAt_seq data0), <- Hperm.
  clear Hperm. induction Hg as [|g o groups next Hgo _ IH]; [done|].
  csimpl. rewrite fmap_app, sumZ_app, IH.
  by rewrite (GroupRel_rnum _ _ Hgo).
Qed.

(** Groups and parent slots. *)

Hypothesis ids : IdsExact N z data0.

Lemma cidOf_exact i :
  (i < length data0)%nat →
  encodeId N (Z.of_nat i) z = cidOf N z i ∧ f32 (cidOf N z i) = cidOf N z i.
Proof.
  intros Hi. destruct ids as [Hz HN Hids _]. unfold cidOf.
  split.
  - apply encodeId_small. lia.
  - apply f32_exact. lia.
Qed.

Lemma cidOf_inj a b : cidOf N z a = cidOf N z b → a = b.
Proof. unfold cidOf. lia. Qed.

Lemma cidOf_pos a : 0 < cidOf N z a.
Proof. destruct ids. unfold cidOf. lia. Qed.

(** With exact identifiers, the members of a group are the records whose
    parent slot holds the identifier of its cluster. *)
Lemma post_ids groups next :
  static <$> data' = static <$> data0 →
  concat groups ≡ₚ seq 0 (length data0) →
  Forall2 (GroupRel opts N z data0 data') groups next →
  Forall2 (GroupIds opts N z data0 data') groups next.
Proof.
  intros Hst Hperm Hall.
  assert (Hnd : NoDup (concat groups)) by (rewrite Hperm; apply NoDup_seq).
  apply Forall2_same_length_lookup_2; [by eapply Forall2_length|].
  intros j g o Hg Ho.
  pose proof (Forall2_lookup_lr _ _ _ _ _ _ Hall Hg Ho) as Hrel.
  destruct Hrel as [(k & r0 & -> & Hk0 & -> & Hk)|Hm].
  { left. exists k. split_and!; [done|done| |].
    - simpl. by rewrite f32_exact.
    - simpl. by apply (ids_parent _ _ _ ids k). }
  pose proof (merged_count g o Hm) as Hcount.
  destruct Hm as (a & ra & U & cx & cy & -> & HU & Ha & Hnb & -> & Hmem).
  assert (Hal : (a < length data0)%nat) by (by eapply lookup_lt_Some).
  destruct (cidOf_exact a Hal) as [Hid Hidf].
  rewrite Hid in *.
  right. exists a, ra. split_and!; try done.
  - by eapply NoDup_concat_lookup.
  - intros k. split.
    + intros Hk. destruct (Hmem k Hk) as (r0 & _ & Hd).
      unfold parentIs. rewrite Hd. simpl. rewrite Hidf. lia.
    + unfold parentIs. destruct (data' !! k) as [r|] eqn:Hr; [|done].
      intros Hp%Z.eqb_eq.
      assert (Hkc : k ∈ concat groups).
      { rewrite Hperm. apply elem_of_seq. split; [lia|].
        apply lookup_lt_Some in Hr. rewrite <- (static_length _ _ Hst). lia. }
      apply elem_of_concat in Hkc as (j' & g' & Hg' & Hkg').
      destruct (Forall2_lookup_l _ _ _ _ _ Hall Hg') as (o' & Ho' & Hrel').
      destruct Hrel' as [(k' & r' & -> & Hk0' & -> & Hk')
                        |(a' & ra' & U' & cx' & cy' & -> & _ & Ha' & _ & _ & Hmem')].
      * apply list_elem_of_singleton in Hkg' as ->.
        rewrite Hr in Hk'. injection Hk' as ->. simpl in Hp.
        rewrite (ids_parent _ _ _ ids k' r' Hk0') in Hp.
        pose proof (cidOf_pos a). lia.
      * destruct (Hmem' k Hkg') as (r0 & _ & Hd). rewrite Hr in Hd. injection Hd as ->.
        simpl in Hp.
        assert (Hal' : (a' < length data0)%nat) by (by eapply lookup_lt_Some).
        destruct (cidOf_exact a' Hal') as [Hid' Hidf'].
        rewrite Hid', Hidf' in Hp. apply cidOf_inj in Hp as ->.
        assert (j' = j) as ->.
        { eapply (NoDup_concat_index groups j' j _ _ a Hnd Hg' Hg); apply elem_of_cons; auto. }
        rewrite Hg in Hg'. by injection Hg' as <-.
  - apply elem_of_cons. auto.
  - destruct U; [done|]. simpl. lia.
  - intros k [->|Hk]%elem_of_cons; [by left|]. right. by apply Hnb.
Qed.

End Groups.

(** ** The levels of the hierarchy *)

Section Levels.
Context {JS : JSNumber} {KD : KDBush} {P : Type}.
Variable opts : Options.
Variable pts : list (@Point JS P).
Local Abbreviation N := (Z.of_nat (length pts)).
Hypothesis exact : Exact opts N.
Hypothesis within_ok : WithinContract.

Lemma levelIn_0_lookup j :
  levelIn opts pts 0 !! j = (λ p, toFloat32 (initialRec j p)) <$> pts !! j.
Proof.
  cbn [levelIn]. unfold _createTree. change (map ?f ?l) with (f <$> l).
  rewrite list_lookup_fmap, list_lookup_imap. by destruct (pts !! j).
Qed.

Lemma levelIn_0_length : length (levelIn opts pts 0) = length pts.
Proof. cbn [levelIn]. unfold _createTree. by rewrite length_map, length_imap. Qed.

Lemma levelIn_0_rec j r :
  levelIn opts pts 0 !! j = Some r →
  (j < length pts)%nat ∧ rzoom r = ZInfinity ∧ rid r = Z.of_nat j
  ∧ rparent r = -1 ∧ rnum r = 1.
Proof.
  destruct exact as [_ _ HN].
  rewrite levelIn_0_lookup.
  destruct (pts !! j) as [p|] eqn:Hp; [|done]. simpl. intros [= <-].
  apply lookup_lt_Some in Hp. simpl. split_and!; try done.
  apply f32_exact. lia.
Qed.

Lemma LevelInv_0 : LevelInv opts N 0 (levelIn opts pts 0).
Proof.
  split.
  - assert (Hall : rnum <$> levelIn opts pts 0 = replicate (length pts) 1).
    { apply list_eq. intros j. rewrite list_lookup_fmap.
      destruct (levelIn opts pts 0 !! j) as [r|] eqn:Hr; simpl.
      - destruct (levelIn_0_rec j r Hr) as (Hj & _ & _ & _ & ->).
        symmetry. by apply lookup_replicate_2.
      - symmetry. apply lookup_replicate_None.
        apply lookup_ge_None in Hr. by rewrite levelIn_0_length in Hr. }
    rewrite Hall. generalize (length pts). intros n.
    induction n as [|n IH]; simpl; lia.
  - intros j r Hr. destruct (levelIn_0_rec j r Hr) as (Hj & Hz & Hid & Hp & Hn).
    split_and!; [lia|auto|lia].
Qed.

Lemma LevelInv_length k lvl : LevelInv opts N k lvl → Z.of_nat (length lvl) ≤ N.
Proof.
  intros [Hsum Hrec]. rewrite <- Hsum.
  rewrite <- (length_fmap rnum lvl). apply sumZ_length_le.
  apply Forall_fmap, Forall_lookup. intros j r Hr. by apply Hrec in Hr as (? & _).
Qed.

Lemma LevelInv_PassPre k lvl :
  LevelInv opts N k lvl → PassPre (maxZoom opts - Z.of_nat k) lvl.
Proof.
  intros Hlvl j r Hr. destruct (lvl_rec _ _ _ _ Hlvl j r Hr) as (Hn & Hz & _).
  split; [|done]. destruct Hz as [-> | ->]; simpl; [done|lia].
Qed.

Lemma pass_exact k : (k < passes opts)%nat → Z.abs (maxZoom opts - Z.of_nat k) ≤ 2 ^ 24.
Proof. destruct exact as [Hmin Hmax _]. unfold passes. lia. Qed.

(** What a pass writes to [nextData], record by record. *)
Lemma post_records k (data' next : list Rec) :
  (k < passes opts)%nat →
  LevelInv opts N k (levelIn opts pts k) →
  PassPost opts N (maxZoom opts - Z.of_nat k) (levelIn opts pts k) data' next →
  sumZ (rnum <$> next) = N
  ∧ ∀ j o, next !! j = Some o →
      1 ≤ rnum o ≤ N
      ∧ (rzoom o = ZInfinity ∨ rzoom o = ZAt (maxZoom opts - Z.of_nat k))
      ∧ (rnum o = 1 → 0 ≤ rid o < N).
Proof.
  intros Hk Hlvl Hpost.
  set (data0 := levelIn opts pts k) in *. set (z := maxZoom opts - Z.of_nat k) in *.
  pose proof (LevelInv_PassPre k data0 Hlvl) as Hpre. fold z in Hpre.
  pose proof (post_sum opts N z data0 data' next Hpost) as Hsum.
  rewrite (lvl_sum _ _ _ _ Hlvl) in Hsum.
  destruct Hpost as (groups & Hst & Hperm & Hg).
  assert (Hrec : ∀ j o, next !! j = Some o →
            1 ≤ rnum o ∧ (rzoom o = ZInfinity ∨ rzoom o = ZAt z)
            ∧ (rnum o = 1 → 0 ≤ rid o < N)).
  { intros j o Ho.
    destruct (Forall2_lookup_r _ _ _ _ _ Hg Ho) as (g & _ & [(k0 & r0 & -> & Hk0 & -> & _)|Hm]).
    - destruct (lvl_rec _ _ _ _ Hlvl k0 r0 Hk0) as (Hn0 & _ & Hid0).
      simpl. rewrite f32_exact by (by apply pass_exact). auto.
    - pose proof (merged_count opts N z data0 data' Hpre g o Hm) as Hcount.
      destruct Hm as (a & ra & U & cx & cy & _ & _ & _ & _ & -> & _).
      simpl in *. split_and!; [lia|auto|lia]. }
  split; [done|]. intros j o Ho.
  destruct (Hrec j o Ho) as (Hn & Hzo & Hid).
  split_and!; try done.
  rewrite <- Hsum. apply sumZ_elem_le.
  - apply Forall_fmap, Forall_lookup. intros j' o' Ho'.
    destruct (Hrec j' o' Ho') as (? & _). simpl. lia.
  - apply list_elem_of_fmap. exists o. split; [done|]. by eapply list_elem_of_lookup_2.
Qed.

Lemma LevelInv_S k (data' next : list Rec) :
  (k < passes opts)%nat →
  LevelInv opts N k (levelIn opts pts k) →
  PassPost opts N (maxZoom opts - Z.of_nat k) (levelIn opts pts k) data' next →
  LevelInv opts N (S k) (_createTree next).
Proof.
  intros Hk Hlvl Hpost.
  destruct (post_records k data' next Hk Hlvl Hpost) as [Hsum Hrec].
  pose proof exact as [_ _ HN].
  pose proof (pass_exact k Hk) as Hz.
  split.
  - rewrite <- Hsum. f_equal. unfold _createTree. change (map ?f ?l) with (f <$> l).
    rewrite <- list_fmap_compose. apply list_eq. intros j. rewrite !list_lookup_fmap.
    destruct (next !! j) as [o|] eqn:Ho; [|done]. simpl. f_equal.
    destruct (Hrec j o Ho) as (? & _). apply f32_exact. lia.
  - intros j r. unfold _createTree. change (map ?f ?l) with (f <$> l).
    rewrite list_lookup_fmap. destruct (next !! j) as [o|] eqn:Ho; [|done].
    simpl. intros [= <-].
    destruct (Hrec j o Ho) as (Hn & Hzo & Hid). simpl.
    rewrite (f32_exact (rnum o)) by lia. split_and!; [lia| |].
    + destruct Hzo as [-> | ->]; simpl; [by left|]. right.
      rewrite f32_exact by done. f_equal. lia.
    + intros H1. specialize (Hid H1). rewrite f32_exact; lia.
Qed.

Lemma levelIn_inv k : (k ≤ passes opts)%nat → LevelInv opts N k (levelIn opts pts k).
Proof.
  induction k as [|k IH]; intros Hk.
  - by apply LevelInv_0.
  - specialize (IH ltac:(lia)).
    pose proof (LevelInv_PassPre k _ IH) as Hpre.
    pose proof (cluster_post opts N _ (pass_exact k ltac:(lia)) _ Hpre within_ok) as Hpost.
    apply (LevelInv_S k _ _ ltac:(lia) IH Hpost).
Qed.

Lemma levelIn_post k :
  (k < passes opts)%nat →
  PassPost opts N (maxZoom opts - Z.of_nat k) (levelIn opts pts k)
           (_cluster opts N (maxZoom opts - Z.of_nat k) (levelIn opts pts k)).1
           (_cluster opts N (maxZoom opts - Z.of_nat k) (levelIn opts pts k)).2.
Proof.
  intros Hk. apply cluster_post; [by apply pass_exact| |done].
  apply LevelInv_PassPre. apply levelIn_inv. lia.
Qed.

End Levels.

(** ** The identifiers of the hierarchy *)

Section Identifiers.
Context {JS : JSNumber} {KD : KDBush} {P : Type}.
Variable opts : Options.
Variable pts : list (@Point JS P).
Local Abbreviation N := (Z.of_nat (length pts)).
Hypothesis cfg : Configured opts N.
Hypothesis within_ok : WithinContract.

Lemma Configured_Exact : Exact opts N.
Proof. destruct cfg as [Hmin Hmax HN]. split; lia. Qed.

Lemma idOK_bound k r : idOK opts N k r → 0 ≤ rid r ≤ 2 ^ 24.
Proof.
  destruct cfg as [Hmin Hmax HN].
  intros [[_ ?]|(_ & a & z' & Ha & Hz0 & Hz & ->)]; [lia|].
  unfold cidOf. lia.
Qed.

Lemma idOK_S k r : idOK opts N k r → idOK opts N (S k) r.
Proof.
  intros [?|(Hn & a & z' & Ha & Hz0 & Hz & Hid)]; [by left|].
  right. split; [done|]. exists a, z'. split_and!; try done; lia.
Qed.

Lemma level_IdsExact k :
  (k < passes opts)%nat →
  LevelIds opts N k (levelIn opts pts k) →
  IdsExact N (maxZoom opts - Z.of_nat k) (levelIn opts pts k).
Proof.
  intros Hk Hids.
  pose proof (levelIn_inv opts pts Configured_Exact within_ok k ltac:(lia)) as Hlvl.
  pose proof (LevelInv_length opts pts k _ Hlvl) as Hlen.
  destruct cfg as [Hmin Hmax HN]. unfold passes in Hk.
  split; [lia|lia|lia|]. intros j r Hr. by apply (Hids j r).
Qed.

(** The groups of pass [k], and the records it writes: their
    identifiers and counts are exact. *)
Lemma level_groups k :
  (k < passes opts)%nat →
  LevelIds opts N k (levelIn opts pts k) →
  let z := maxZoom opts - Z.of_nat k in
  let data0 := levelIn opts pts k in
  ∃ groups,
    static <$> (_cluster opts N z data0).1 = static <$> data0
    ∧ concat groups ≡ₚ seq 0 (length data0)
    ∧ Forall2 (λ g o, GroupIds opts N z data0 (_cluster opts N z data0).1 g o
                      ∧ rparent o = -1 ∧ idOK opts N (S k) o
                      ∧ f32 (rid o) = rid o ∧ f32 (rnum o) = rnum o)
              groups (_cluster opts N z data0).2.
Proof.
  intros Hk Hids z data0.
  pose proof Configured_Exact as Hex.
  pose proof (levelIn_inv opts pts Hex within_ok k ltac:(lia)) as Hlvl.
  pose proof (levelIn_post opts pts Hex within_ok k Hk) as Hpost.
  pose proof (level_IdsExact k Hk Hids) as Hidx.
  pose proof (LevelInv_PassPre opts pts k _ Hlvl) as Hpre.
  pose proof (pass_exact opts pts Hex k Hk) as Hz.
  pose proof (LevelInv_length opts pts k _ Hlvl) as Hlen.
  fold z data0 in Hlvl, Hpost, Hidx, Hpre, Hz, Hlen.
  destruct (post_records opts pts Hex k _ _ Hk Hlvl Hpost) as [Hsum Hrec].
  fold z data0 in Hrec, Hsum.
  destruct (_cluster opts N z data0) as [data' next]. cbn [fst snd] in *.
  destruct Hpost as (groups & Hst & Hperm & Hg).
  exists groups. split_and!; [done..|].
  pose proof (post_ids opts N z data0 data' Hz Hpre Hidx groups next Hst Hperm Hg) as Hgi.
  apply Forall2_same_length_lookup_2; [by eapply Forall2_length|].
  intros j g o Hgj Hoj.
  pose proof (Forall2_lookup_lr _ _ _ _ _ _ Hgi Hgj Hoj) as Hgo.
  destruct (Hrec j o Hoj) as (Hn & _ & Hpt).
  pose proof cfg as [Hmin Hmax HN]. unfold passes in Hk.
  assert (Hid : rparent o = -1 ∧ idOK opts N (S k) o).
  { destruct Hgo as [(k0 & -> & Hk0 & _ & Hp)|(a & ra & Ha & _ & Hid & Hp & _ & Hn1 & _)].
    - split; [done|].
      destruct (static_lookup _ _ _ _ Hst Hk0) as (r0 & Hr0 & Hs0).
      destruct (static_inv _ _ Hs0) as (_ & _ & Hi & Hn0).
      apply idOK_S. destruct (Hids k0 r0 Hr0) as [_ [[? ?]|(? & a & z' & ? & ? & ? & ?)]].
      + left. lia.
      + right. split; [lia|]. exists a, z'. split_and!; [done|done|lia|lia|by rewrite <- Hi].
    - split; [done|]. right. split; [done|]. exists a, z.
      apply lookup_lt_Some in Ha. split_and!; try done; unfold z; lia. }
  destruct Hid as [Hp Hid]. pose proof (idOK_bound _ _ Hid).
  split_and!; try done; apply f32_exact; lia.
Qed.

Lemma LevelIds_0 : LevelIds opts N 0 (levelIn opts pts 0).
Proof.
  intros j r Hr.
  destruct (levelIn_0_rec opts pts Configured_Exact j r Hr) as (Hj & _ & Hid & Hp & Hn).
  split; [done|]. left. lia.
Qed.

Lemma levelIn_ids k : (k ≤ passes opts)%nat → LevelIds opts N k (levelIn opts pts k).
Proof.
  induction k as [|k IH]; intros Hk; [apply LevelIds_0|].
  specialize (IH ltac:(lia)).
  destruct (level_groups k ltac:(lia) IH) as (groups & _ & _ & Hg).
  cbn [levelIn]. intros j r. unfold _createTree. change (map ?f ?l) with (f <$> l).
  rewrite list_lookup_fmap.
  destruct (_ !! j) as [o|] eqn:Ho; [|done]. simpl. intros [= <-].
  destruct (Forall2_lookup_r _ _ _ _ _ Hg Ho) as (g & _ & _ & Hp & Hid & Hfi & Hfn).
  simpl. rewrite Hp. split; [done|].
  destruct Hid as [[? ?]|(? & a & z' & ? & ? & ? & ?)].
  - left. simpl. by rewrite Hfn, Hfi.
  - right. simpl. rewrite Hfn, Hfi. split; [done|]. by exists a, z'.
Qed.

End Identifiers.

(** ** [getClusters] *)

Section Final.
Context {JS : JSNumber} {KD : KDBush} {P : Type}.

(** Every level of a loaded instance holds the records a pass has read,
    with the slots no pass writes to unchanged. *)
Lemma final_level (st0 st : @PointCluster JS P) pts key :
  load st0 pts = Ok st →
  maxZoom (options st0) + 1 - Z.of_nat (passes (options st0)) ≤ key ≤ maxZoom (options st0) + 1 →
  ∃ k data, (k ≤ passes (options st0))%nat
            ∧ key = maxZoom (options st0) + 1 - Z.of_nat k
            ∧ trees st !! key = Some data
            ∧ static <$> data = static <$> levelIn (options st0) pts k.
Proof.
  intros Hload Hkey.
  destruct (load_spec st0 pts) as (st' & Hl & Hopt & Hpts & T1 & T2 & T3).
  rewrite Hl in Hload. injection Hload as <-.
  set (k := Z.to_nat (maxZoom (options st0) + 1 - key)).
  assert (Hkk : key = maxZoom (options st0) + 1 - Z.of_nat k) by lia.
  destruct (decide (k = passes (options st0))) as [Heq|Hne].
  - exists k, (levelIn (options st0) pts k). split_and!; [lia|done| |done].
    rewrite Hkk, Heq. apply T2.
  - eexists k, _. split_and!; [lia|done| |].
    + rewrite Hkk. apply T1. lia.
    + apply cluster_static.
Qed.

Lemma limitZoom_range (opts : Options) (zoom : Q) :
  minZoom opts ≤ maxZoom opts + 1 →
  maxZoom opts + 1 - Z.of_nat (passes opts) ≤ _limitZoom opts zoom ≤ maxZoom opts + 1.
Proof. intros Hm. unfold _limitZoom, passes. lia. Qed.

End Final.

Section Queries.
Context {JS : JSNumber} {KD : KDBush} {P : Type}.

Lemma load_fields (st0 st : @PointCluster JS P) pts :
  load st0 pts = Ok st → options st = options st0 ∧ points st = pts.
Proof.
  intros Hload. destruct (load_spec st0 pts) as (st' & Hl & Hopt & Hpts & _).
  rewrite Hl in Hload. by injection Hload as <-.
Qed.

Lemma lookupZ_Some {A} (l : list A) (i : Z) :
  0 ≤ i < Z.of_nat (length l) → is_Some (lookupZ l i).
Proof.
  intros Hi. unfold lookupZ. destruct (Z.ltb_spec i 0); [lia|].
  apply lookup_lt_is_Some_2. lia.
Qed.

Lemma project_point (st : @PointCluster JS P) (r : Rec) :
  rnum r = 1 → 0 ≤ rid r < Z.of_nat (length (points st)) →
  project st r = FPoint (rid r).
Proof.
  intros Hn Hid. unfold project. rewrite Hn. simpl.
  by destruct (lookupZ_Some (points st) (rid r) Hid) as [p ->].
Qed.

Lemma project_cluster (st : @PointCluster JS P) (r : Rec) :
  1 < rnum r → project st r = FCluster (_getClusterJSON r).
Proof. intros Hn. unfold project. by destruct (Z.ltb_spec 1 (rnum r)); [|lia]. Qed.

Lemma project_count (st : @PointCluster JS P) (r : Rec) :
  1 ≤ rnum r →
  (rnum r = 1 → 0 ≤ rid r < Z.of_nat (length (points st))) →
  pointCountOf (project st r) = rnum r.
Proof.
  intros Hn Hid. destruct (decide (rnum r = 1)) as [H1|H1].
  - by rewrite project_point; auto.
  - rewrite project_cluster; [done|lia].
Qed.

Lemma range_all (cs : list (num * num)) b :
  RangeContract →
  (∀ p, p ∈ cs → inside b p = true) →
  range cs b ≡ₚ seq 0 (length cs).
Proof.
  intros Hr Hcov. destruct (Hr cs b) as [Hnd Hin].
  apply NoDup_Permutation; [done|apply NoDup_seq|].
  intros i. rewrite Hin, elem_of_seq. split.
  - intros (p & Hp & _). apply lookup_lt_Some in Hp. lia.
  - intros [_ Hi]. destruct (lookup_lt_is_Some_2 cs i Hi) as [p Hp].
    exists p. split; [done|]. apply Hcov. by eapply list_elem_of_lookup_2.
Qed.


Lemma limitZoom_above (opts : Options) (zoom : Q) :
  minZoom opts ≤ maxZoom opts + 1 →
  (inject_Z (maxZoom opts + 1) <= zoom)%Q →
  _limitZoom opts zoom = maxZoom opts + 1.
Proof.
  intros Hm Hz. unfold _limitZoom.
  apply Qfloor_resp_le in Hz. rewrite Qfloor_Z in Hz. lia.
Qed.


End Queries.

(** ** [getChildren] *)

Section Children.
Context {JS : JSNumber} {KD : KDBush} {P : Type}.

Lemma childrenOf_alt (st : @PointCluster JS P) data clusterId ids :
  childrenOf st data clusterId ids
  = project st <$> filter (λ rk, rparent rk = clusterId) (recordsAt data ids).
Proof.
  unfold childrenOf, recordsAt. induction ids as [|k ids IH]; [done|].
  rewrite !omap_cons, IH, filter_app, fmap_app. f_equal.
  destruct (data !! k) as [rk|]; [|done].
  change (option_list (Some rk)) with [rk]. rewrite filter_cons, filter_nil.
  destruct (Z.eqb_spec (rparent rk) clusterId).
  - by rewrite decide_True.
  - by rewrite decide_False.
Qed.

Lemma childrenOf_positions (st : @PointCluster JS P) data clusterId ids :
  childrenOf st data clusterId ids
  = omap (λ k, project st <$> data !! k) (filter (λ k, parentIs data clusterId k = true) ids).
Proof.
  unfold childrenOf. rewrite omap_filter. apply omap_ext_in. intros k _.
  unfold parentIs. destruct (data !! k) as [rk|]; simpl; [|done].
  by destruct (rparent rk =? clusterId).
Qed.

(** C8: [getChildren] looks at the level of the decoded origin zoom,
    queries the neighbours of the anchor within
    [radius / (originZoom - 1)], with no scaling function, and returns the
    projections of exactly those whose parent slot is [clusterId]; it
    fails, with the unknown-cluster error and no other, exactly when that
    level has no tree, when the anchor position is outside the level, or
    when no neighbour has that parent. *)
Theorem C8_getChildren (st : @PointCluster JS P) (clusterId : Z) :
  WithinUndefined →
  let N := Z.of_nat (length (points st)) in
  let originId := _getOriginId N clusterId in
  let originZoom := _getOriginZoom N clusterId in
  let r := ndiv (radius (options st)) (ofZ (originZoom - 1)) in
  let found data anchor :=
    filter (λ rk, rparent rk = clusterId)
           (recordsAt data (within (coordsOf data) (Some (rx anchor)) (Some (ry anchor)) r)) in
  (∀ cs, getChildren st clusterId = Ok cs ↔
         ∃ data anchor, trees st !! originZoom = Some data
                        ∧ lookupZ data originId = Some anchor
                        ∧ found data anchor ≠ []
                        ∧ cs = project st <$> found data anchor)
  ∧ (failed (getChildren st clusterId) ↔
       trees st !! originZoom = None
       ∨ (∃ data, trees st !! originZoom = Some data ∧ lookupZ data originId = None)
       ∨ (∃ data anchor, trees st !! originZoom = Some data
                         ∧ lookupZ data originId = Some anchor
                         ∧ found data anchor = []))
  ∧ (∀ e, getChildren st clusterId = Err e → e = NoCluster).
Proof.
  intros Hundef N originId originZoom r found.
  unfold getChildren. fold N originId originZoom.
  destruct (trees st !! originZoom) as [data|] eqn:Htree.
  2:{ split_and!.
      - intros cs. split; [done|]. by intros (? & ? & ? & _).
      - split; [by left|]. intros _. by eexists.
      - by intros e [= <-]. }
  destruct (Z.leb_spec (Z.of_nat (length data)) originId) as [Hge|Hlt].
  { assert (Hnone : lookupZ data originId = None).
    { unfold lookupZ. destruct (originId <? 0); [done|]. apply lookup_ge_None. lia. }
    split_and!.
    - intros cs. split; [done|]. intros (d & a & [= <-] & Ha & _). congruence.
    - split; [|by eexists]. intros _. right. left. eauto.
    - by intros e [= <-]. }
  fold r. rewrite childrenOf_alt.
  destruct (lookupZ data originId) as [anchor|] eqn:Hanchor.
  - simpl. fold (found data anchor).
    destruct (found data anchor) as [|c cs'] eqn:Hfound.
    + split_and!.
      * intros cs. split; [done|]. intros (d & a & [= <-] & Ha & Hne & _).
        rewrite Hanchor in Ha. injection Ha as <-. congruence.
      * split; [|by eexists]. intros _. right. right. exists data, anchor. done.
      * by intros e [= <-].
    + csimpl. split_and!.
      * intros cs. split.
        -- intros [= <-]. exists data, anchor. rewrite Hfound. done.
        -- intros (d & a & [= <-] & Ha & _ & ->).
           rewrite Hanchor in Ha. injection Ha as <-. by rewrite Hfound.
      * split; [by intros [e ?]|].
        intros [?|[(d & [= <-] & ?)|(d & a & [= <-] & Ha & Hf)]]; [done|congruence|].
        rewrite Hanchor in Ha. injection Ha as <-. congruence.
      * done.
  - simpl. rewrite !Hundef. unfold recordsAt. csimpl. split_and!.
    + intros cs. split; [done|]. intros (d & a & [= <-] & Ha & _). congruence.
    + split; [|by eexists]. intros _. right. left. eauto.
    + by intros e [= <-].
Qed.

End Children.

(** ** The leaves of a cluster *)

Section Leaves.
Context {JS : JSNumber} {KD : KDBush} {P : Type}.
Implicit Types st : @PointCluster JS P.

Lemma hasLeaves_cluster st d c L :
  hasLeaves st (S d) (FCluster c) L
  ↔ ∃ cs Ls, getChildren st (cluster_id c) = Ok cs
             ∧ (2 ≤ length cs)%nat
             ∧ Forall2 (hasLeaves st d) cs Ls
             ∧ L = concat Ls
             ∧ point_count c = Z.of_nat (length L).
Proof. done. Qed.

Lemma hasLeaves_point st d idx L : hasLeaves st d (FPoint idx) L ↔ L = [idx].
Proof. destruct d; simpl; tauto. Qed.

Lemma hasLeaves_undefined st d L : ¬ hasLeaves st d FUndefined L.
Proof. destruct d; simpl; tauto. Qed.

Lemma hasLeaves_same st d f f' L :
  sameFeature f f' → hasLeaves st d f L → hasLeaves st d f' L.
Proof.
  destruct f as [i|c|], f' as [i'|c'|]; simpl; try done.
  - by intros ->.
  - intros [Hid Hn]. destruct d as [|d]; [done|].
    rewrite !hasLeaves_cluster. by rewrite Hid, Hn.
Qed.

Lemma hasLeaves_S st d f L : hasLeaves st d f L → hasLeaves st (S d) f L.
Proof.
  revert f L. induction d as [|d IH]; intros f L; destruct f as [i|c|]; try done.
  rewrite !hasLeaves_cluster.
  intros (cs & Ls & Hg & Hlen & Hall & HL & Hn).
  exists cs, Ls. split_and!; try done.
  eapply Forall2_impl; [exact Hall|]. intros f' L'. apply IH.
Qed.

Lemma project_same st (r r' : Rec) :
  rid r = rid r' → rnum r = rnum r' → sameFeature (project st r) (project st r').
Proof.
  intros Hid Hn. unfold project. rewrite Hid, Hn.
  destruct (1 <? rnum r'); [done|]. by destruct (lookupZ (points st) (rid r')).
Qed.

Lemma project_static st (r r' : Rec) : static r = static r' → project st r = project st r'.
Proof.
  intros (Hx & Hy & Hid & Hn)%static_inv. unfold project, _getClusterJSON.
  by rewrite Hx, Hy, Hid, Hn.
Qed.

Lemma length_concat_fmap {A} (f : A → list Z) (l : list A) :
  Z.of_nat (length (concat (f <$> l))) = sumZ ((λ a, Z.of_nat (length (f a))) <$> l).
Proof.
  induction l as [|a l IH]; csimpl; [done|]. rewrite length_app. lia.
Qed.

Lemma concat_fmap_singleton {A B} (f : A → B) (l : list A) :
  concat ((λ a, [f a]) <$> l) = f <$> l.
Proof. induction l as [|a l IH]; csimpl; [done|]. by rewrite IH. Qed.

Lemma lookup_total_seq {A} `{!Inhabited A} (l : list A) :
  (λ i, l !!! i) <$> seq 0 (length l) = l.
Proof.
  apply list_eq. intros i. rewrite list_lookup_fmap.
  destruct (decide (i < length l)%nat) as [Hi|Hi].
  - rewrite lookup_seq_lt by done. simpl.
    symmetry. by apply list_lookup_lookup_total_lt.
  - rewrite lookup_seq_ge by lia. symmetry. apply lookup_ge_None. lia.
Qed.

(** [getChildren] on the identifier of a cluster formed at zoom [z] by
    the record at position [a] of the level above. *)
Lemma getChildren_built st z a (data' : list Rec) ra :
  0 ≤ z ≤ 30 →
  Z.of_nat a < 2 ^ 26 →
  trees st !! (z + 1) = Some data' →
  data' !! a = Some ra →
  let id := cidOf (Z.of_nat (length (points st))) z a in
  let ch := filter (λ k, parentIs data' id k = true)
                   (within (coordsOf data') (Some (rx ra)) (Some (ry ra))
                           (clusterRadius (options st) z)) in
  getChildren st id
  = match omap (λ k, project st <$> data' !! k) ch with
    | [] => Err NoCluster
    | cs => Ok cs
    end.
Proof.
  intros Hz Ha Htree Hra id ch. unfold getChildren, id, cidOf.
  rewrite getOriginId_encoded, getOriginZoom_encoded by lia.
  rewrite Htree.
  destruct (Z.leb_spec (Z.of_nat (length data')) (Z.of_nat a)) as [Hge|_].
  { apply lookup_lt_Some in Hra. lia. }
  assert (Hl : lookupZ data' (Z.of_nat a) = Some ra).
  { unfold lookupZ. destruct (Z.ltb_spec (Z.of_nat a) 0); [lia|]. by rewrite Nat2Z.id. }
  rewrite Hl. simpl. replace (z + 1 - 1) with z by lia.
  rewrite childrenOf_positions. fold (cidOf (Z.of_nat (length (points st))) z a). fold id.
  fold (clusterRadius (options st) z). fold ch.
  by destruct (omap _ ch).
Qed.

Lemma Forall2_children st d (data' : list Rec) (Lk : nat → list Z) ch :
  (∀ k, k ∈ ch → ∃ r', data' !! k = Some r' ∧ hasLeaves st d (project st r') (Lk k)) →
  Forall2 (hasLeaves st d) (omap (λ k, project st <$> data' !! k) ch) (Lk <$> ch).
Proof.
  induction ch as [|c ch IH]; intros Hch; [constructor|].
  destruct (Hch c) as (r' & Hr' & Hl); [apply elem_of_cons; auto|].
  rewrite omap_cons, Hr'. csimpl. constructor; [done|].
  apply IH. intros k Hk. apply Hch, elem_of_cons. auto.
Qed.

Lemma Forall2_collect {A B} (R : A → list Z → Prop) (Q : list nat → B → Prop)
    (f : B → A) (Lk : nat → list Z) groups next :
  Forall2 Q groups next →
  (∀ g o, Q g o → ∃ L, R (f o) L ∧ L ≡ₚ concat (Lk <$> g)) →
  ∃ Ls, Forall2 R (f <$> next) Ls ∧ concat Ls ≡ₚ concat (Lk <$> concat groups).
Proof.
  intros Hall HQ. induction Hall as [|g o groups next Hgo _ IH].
  - exists []. split; [constructor|done].
  - destruct IH as (Ls & HLs & Hperm). destruct (HQ g o Hgo) as (L & HR & HL).
    exists (L :: Ls). split; [by constructor|].
    csimpl. rewrite fmap_app, concat_app. by rewrite HL, Hperm.
Qed.

Section Built.
Variables (st0 st : @PointCluster JS P) (pts : list (@Point JS P)).
Hypothesis Hload : load st0 pts = Ok st.
Local Abbreviation opts := (options st0).
Local Abbreviation N := (Z.of_nat (length pts)).
Hypothesis cfg : Configured opts N.
Hypothesis within_ok : WithinContract.
Hypothesis within_self : WithinSelf opts.

Lemma built_tree k :
  (k < passes opts)%nat →
  trees st !! (maxZoom opts - Z.of_nat k + 1)
  = Some (_cluster opts N (maxZoom opts - Z.of_nat k) (levelIn opts pts k)).1.
Proof.
  intros Hk. destruct (load_spec st0 pts) as (st' & Hl & _ & _ & T1 & _).
  rewrite Hl in Hload. injection Hload as <-.
  replace (maxZoom opts - Z.of_nat k + 1) with (maxZoom opts + 1 - Z.of_nat k) by lia.
  by apply T1.
Qed.

Lemma leaves_base : LeavesInv st 0 (levelIn opts pts 0).
Proof.
  destruct (load_fields st0 st pts Hload) as [Hopt Hpts].
  pose proof (Configured_Exact opts pts cfg) as Hex.
  exists ((λ j, [Z.of_nat j]) <$> seq 0 (length pts)). split.
  - apply Forall2_same_length_lookup_2.
    + by rewrite length_fmap, length_seq, levelIn_0_length.
    + intros j r L Hr. rewrite list_lookup_fmap. intros HL.
      destruct (seq 0 (length pts) !! j) as [j'|] eqn:Hj; [|done].
      apply lookup_seq in Hj as [-> Hj]. simpl in HL. injection HL as <-.
      destruct (levelIn_0_rec opts pts Hex j r Hr) as (_ & _ & Hid & _ & Hn).
      rewrite project_point.
      * simpl. by rewrite Hid, Hn.
      * done.
      * rewrite Hid, Hpts. lia.
  - rewrite Hpts. by rewrite concat_fmap_singleton.
Qed.

Lemma leaves_step k :
  (k < passes opts)%nat →
  LeavesInv st k (levelIn opts pts k) →
  LeavesInv st (S k) (levelIn opts pts (S k)).
Proof.
  intros Hk (Ls & HLs & HLperm).
  destruct (load_fields st0 st pts Hload) as [Hopt Hpts].
  pose proof (Configured_Exact opts pts cfg) as Hex.
  pose proof (levelIn_inv opts pts Hex within_ok k ltac:(lia)) as Hlvl.
  pose proof (levelIn_ids opts pts cfg within_ok k ltac:(lia)) as Hids.
  pose proof (level_groups opts pts cfg within_ok k Hk Hids) as Hgroups.
  pose proof (built_tree k Hk) as Htree.
  cbn [levelIn]. cbv zeta in Hgroups.
  set (z := maxZoom opts - Z.of_nat k) in *.
  set (data0 := levelIn opts pts k) in *.
  destruct (_cluster opts N z data0) as [data' next] eqn:Hc. cbn [fst snd] in *.
  destruct Hgroups as (groups & Hst & Hperm & Hg').
  pose proof cfg as [Hmin Hmax HN].
  assert (Hz : 0 ≤ z ≤ 30) by (unfold z, passes in *; lia).
  assert (Hzr : minZoom opts ≤ z ≤ maxZoom opts) by (unfold z, passes in *; lia).
  assert (Hn26 : Z.of_nat (length data0) < 2 ^ 26).
  { pose proof (LevelInv_length opts pts k data0 Hlvl). lia. }
  set (Lk := λ i : nat, Ls !!! i).
  assert (HLk : ∀ i r0, data0 !! i = Some r0 →
            hasLeaves st k (project st r0) (Lk i) ∧ Z.of_nat (length (Lk i)) = rnum r0).
  { intros i r0 Hr0. destruct (Forall2_lookup_l _ _ _ _ _ HLs Hr0) as (L & HL & HQ).
    unfold Lk. by rewrite (list_lookup_total_correct _ _ _ HL). }
  assert (HLk' : ∀ i r', data' !! i = Some r' →
            hasLeaves st k (project st r') (Lk i) ∧ Z.of_nat (length (Lk i)) = rnum r').
  { intros i r' Hr'. destruct (static_lookup _ _ _ _ Hst Hr') as (r0 & Hr0 & Hs0).
    destruct (HLk i r0 Hr0) as [? ?].
    rewrite <- (project_static st r0 r' Hs0).
    apply static_inv in Hs0 as (_ & _ & _ & <-). done. }
  assert (Hlens : length Ls = length data0) by (symmetry; by eapply Forall2_length).
  assert (Hlen' : length data' = length data0) by (by apply static_length).
  unfold _createTree. change (map ?f ?l) with (f <$> l).
  destruct (Forall2_collect
              (λ r L, hasLeaves st (S k) (project st r) L ∧ Z.of_nat (length L) = rnum r)
              _ toFloat32 Lk groups next Hg')
    as (Ls' & HLs' & Hperm').
  2:{ exists Ls'. split; [done|]. rewrite Hperm', Hperm, <- Hlens.
      unfold Lk. by rewrite lookup_total_seq. }
  intros g o ([(k0 & -> & Hk0 & Hzo & Hp)
              |(a & ra0 & Ha0 & Hzo & Hid & Hp & Hn & Hn1 & Hgnd & Hgeq & Hag & Hlen & Hnb)]
              & _ & _ & Hfi & Hfn).
  - (* a record copied forward *)
    destruct (HLk' k0 o Hk0) as [Hl Hlen].
    exists (Lk k0). split_and!.
    + apply hasLeaves_S. eapply hasLeaves_same; [|exact Hl].
      apply project_same; simpl; by rewrite ?Hfi, ?Hfn.
    + simpl. by rewrite Hfn.
    + csimpl. by rewrite app_nil_r.
  - (* a cluster *)
    assert (Hal : (a < length data0)%nat) by (by eapply lookup_lt_Some).
    destruct (lookup_lt_is_Some_2 data' a) as [ra Hra]; [lia|].
    assert (Hcoord : rx ra0 = rx ra ∧ ry ra0 = ry ra).
    { destruct (static_lookup _ _ _ _ Hst Hra) as (r0 & Hr0 & Hs0).
      rewrite Ha0 in Hr0. injection Hr0 as <-.
      by apply static_inv in Hs0 as (-> & -> & _). }
    destruct Hcoord as [Hcx Hcy]. rewrite Hcx, Hcy in Hnb.
    set (id := cidOf N z a) in *.
    set (nb := within (coordsOf data0) (Some (rx ra)) (Some (ry ra)) (clusterRadius opts z)) in *.
    set (ch := filter (λ i, parentIs data' id i = true) nb).
    assert (Hanb : a ∈ nb).
    { apply within_self; [done| |].
      - unfold coordsOf. change (map ?f ?l) with (f <$> l).
        by rewrite list_lookup_fmap, Ha0, <- Hcx, <- Hcy.
      - fold nb. destruct g as [|g1 [|g2 g']]; simpl in Hlen; try lia.
        apply NoDup_cons in Hgnd as [Hg1 _].
        assert (g1 ≠ g2) by (intros ->; apply Hg1, elem_of_cons; auto).
        destruct (decide (g1 = a)) as [->|Hne].
        + destruct (Hnb g2) as [?|Hin]; [apply elem_of_cons; right; apply elem_of_cons; auto|done|].
          intros Hnil. rewrite Hnil in Hin. by apply elem_of_nil in Hin.
        + destruct (Hnb g1) as [?|Hin]; [apply elem_of_cons; auto|done|].
          intros Hnil. rewrite Hnil in Hin. by apply elem_of_nil in Hin. }
    assert (Hchg : ch ≡ₚ g).
    { apply NoDup_Permutation; [apply NoDup_filter, within_ok|done|].
      intros i. unfold ch. rewrite list_elem_of_filter, Hgeq. split.
      - by intros [Hpi _].
      - intros Hpi. split; [done|].
        destruct (Hnb i) as [->|?]; [by apply Hgeq|done..]. }
    assert (Hget : getChildren st id
              = match omap (λ i, project st <$> data' !! i) ch with
                | [] => Err NoCluster
                | cs => Ok cs
                end).
    { pose proof (getChildren_built st z a data' ra Hz ltac:(lia) ltac:(by replace (z + 1) with (maxZoom opts - Z.of_nat k + 1) by (unfold z; lia)) Hra) as Hgc.
      cbv zeta in Hgc. rewrite Hpts, Hopt in Hgc.
      rewrite (coordsOf_static _ _ Hst) in Hgc. exact Hgc. }
    assert (Hall : Forall2 (hasLeaves st k) (omap (λ i, project st <$> data' !! i) ch) (Lk <$> ch)).
    { apply Forall2_children. intros i Hi.
      assert (Hil : (i < length data')%nat).
      { apply list_elem_of_filter in Hi as [_ Hi]. apply within_ok in Hi.
        unfold coordsOf in Hi. rewrite length_map in Hi. lia. }
      destruct (lookup_lt_is_Some_2 data' i Hil) as [r' Hr'].
      exists r'. split; [done|]. by apply HLk'. }
    assert (Hcsl : length (omap (λ i, project st <$> data' !! i) ch) = length g).
    { rewrite (Forall2_length _ _ _ Hall), length_fmap. by rewrite Hchg. }
    exists (concat (Lk <$> ch)).
    assert (Hcount : Z.of_nat (length (concat (Lk <$> ch))) = rnum o).
    { rewrite length_concat_fmap, Hn, <- Hchg. f_equal.
      apply list_fmap_ext. intros ? i Hi%list_elem_of_lookup_2.
      assert (Hil : (i < length data0)%nat).
      { apply list_elem_of_filter in Hi as [_ Hi]. apply within_ok in Hi.
        unfold coordsOf in Hi. rewrite length_map in Hi. lia. }
      destruct (lookup_lt_is_Some_2 data0 i Hil) as [r0 Hr0].
      destruct (HLk i r0 Hr0) as [_ ->]. unfold rnumAt. by rewrite Hr0. }
    split_and!.
    + rewrite project_cluster by (simpl; rewrite Hfn; lia).
      apply hasLeaves_cluster. simpl. rewrite Hfi, Hid, Hfn.
      destruct (omap (λ i, project st <$> data' !! i) ch) as [|c1 cs1] eqn:Hcs.
      { simpl in Hcsl. lia. }
      exists (c1 :: cs1), (Lk <$> ch). split_and!; [done|lia|done|done|by rewrite Hcount].
    + simpl. by rewrite Hfn.
    + by rewrite Hchg.
Qed.

Lemma leaves_level k : (k ≤ passes opts)%nat → LeavesInv st k (levelIn opts pts k).
Proof.
  induction k as [|k IH]; intros Hk.
  - apply leaves_base.
  - apply leaves_step; [lia|]. apply IH. lia.
Qed.

End Built.

End Leaves.

(** ** The loops of [_appendLeaves] *)

Section Walk.
Context {JS : JSNumber} {KD : KDBush} {P : Type}.
Implicit Types st : @PointCluster JS P.

Lemma appendLeaves_S fuel st result clusterId limit offset skipped :
  _appendLeaves (S fuel) st result clusterId limit offset skipped
  = match getChildren st clusterId with
    | Err e => Some (Err e)
    | Ok children =>
        leafLoop (_appendLeaves fuel st) limit offset children result skipped
    end.
Proof.
  cbn [_appendLeaves]. destruct (getChildren st clusterId) as [children|e]; [|done].
  revert result skipped. induction children as [|c cs IH]; intros result skipped; [done|].
  cbn [leafLoop].
  destruct c as [idx|props|]; [| |done].
  - destruct (xlt skipped offset);
      match goal with |- context [lenEq ?n limit] => destruct (lenEq n limit) end;
      done || apply IH.
  - destruct (xle (skipped + point_count props) offset).
    + destruct (lenEq (length result) limit); done || apply IH.
    + destruct (_appendLeaves fuel st result (cluster_id props) limit offset skipped)
        as [[[r' s']|e]|]; [|done..].
      destruct (lenEq (length r') limit); done || apply IH.
Qed.

Variables limit offset : xnum.

Lemma walk_app L1 L2 res sk :
  lenEq (length res) limit = false →
  walk limit offset (L1 ++ L2) res sk
  = (let '(r1, s1) := walk limit offset L1 res sk in
     if lenEq (length r1) limit then (r1, s1) else walk limit offset L2 r1 s1).
Proof.
  revert res sk. induction L1 as [|l L1 IH]; intros res sk Hres.
  - simpl. by rewrite Hres.
  - cbn [app walk].
    destruct (if xlt sk offset then (res, sk + 1) else (res ++ [l], sk)) as [r' s'].
    destruct (lenEq (length r') limit) eqn:Hr'.
    + by rewrite Hr'.
    + by apply IH.
Qed.

Lemma walk_skip L res sk :
  lenEq (length res) limit = false →
  xle (sk + Z.of_nat (length L)) offset = true →
  walk limit offset L res sk = (res, sk + Z.of_nat (length L)).
Proof.
  revert sk. induction L as [|l L IH]; intros sk Hres Hle.
  - simpl. f_equal. lia.
  - cbn [walk].
    assert (Hlt : xlt sk offset = true).
    { destruct offset; simpl in *; [|done].
      apply Z.leb_le in Hle. apply Z.ltb_lt. lia. }
    rewrite Hlt, Hres. rewrite IH; [f_equal; simpl; lia|done|].
    replace (sk + 1 + Z.of_nat (length L)) with (sk + Z.of_nat (length (l :: L)))
      by (simpl; lia). done.
Qed.

Lemma appendLeaves_walk st d :
  ∀ fuel c L res sk,
    (d ≤ fuel)%nat →
    hasLeaves st d (FCluster c) L →
    lenEq (length res) limit = false →
    _appendLeaves fuel st res (cluster_id c) limit offset sk
    = Some (Ok (walk limit offset L res sk)).
Proof.
  induction d as [|d IH]; intros fuel c L res sk Hfuel Hl Hres; [done|].
  destruct fuel as [|fuel]; [lia|].
  apply hasLeaves_cluster in Hl as (cs & Ls & Hget & _ & Hall & -> & Hn).
  rewrite appendLeaves_S, Hget. clear Hget Hn.
  revert res sk Hres. induction Hall as [|child L1 cs Ls Hc _ IHl]; intros res sk Hres; [reflexivity|].
  cbn [leafLoop concat]. rewrite walk_app by done.
  destruct child as [idx|c1|]; [| |by apply hasLeaves_undefined in Hc].
  - apply hasLeaves_point in Hc. subst L1. cbn [walk].
    destruct (if xlt sk offset then (res, sk + 1) else (res ++ [idx], sk)) as [r' s'] eqn:Hstep.
    assert (Hafter : (if xlt sk offset then Some (Ok (res, sk + 1))
                      else Some (Ok (res ++ [idx], sk))) = Some (Ok (r', s'))).
    { destruct (xlt sk offset); by injection Hstep as <- <-. }
    rewrite Hafter.
    destruct (lenEq (length r') limit) eqn:Hr'; [by rewrite Hr'|].
    rewrite Hr'. by apply IHl.
  - assert (Hn1 : point_count c1 = Z.of_nat (length L1)).
    { destruct d as [|d']; [done|]. by apply hasLeaves_cluster in Hc as (? & ? & _ & _ & _ & -> & ?). }
    destruct (xle (sk + point_count c1) offset) eqn:Hle.
    + rewrite Hn1 in Hle. rewrite (walk_skip L1 res sk Hres Hle), Hres, Hn1.
      by apply IHl.
    + rewrite (IH fuel c1 L1 res sk ltac:(lia) Hc Hres).
      destruct (walk limit offset L1 res sk) as [r1 s1].
      destruct (lenEq (length r1) limit) eqn:Hr1; [done|]. by apply IHl.
Qed.

End Walk.

Lemma walk_all L res sk :
  0 ≤ sk → walk XInf (XZ 0) L res sk = (res ++ L, sk).
Proof.
  intros Hsk. revert res. induction L as [|l L IH]; intros res.
  - by rewrite app_nil_r.
  - cbn [walk]. simpl. destruct (Z.ltb_spec sk 0); [lia|].
    rewrite IH, <- app_assoc. done.
Qed.

Lemma walk_first (n : nat) L res :
  (length res < n)%nat →
  walk (XZ (Z.of_nat n)) (XZ 0) L res 0 = (res ++ take (n - length res) L, 0).
Proof.
  revert res. induction L as [|l L IH]; intros res Hres.
  - by rewrite take_nil, app_nil_r.
  - cbn [walk xlt]. change (0 <? 0) with false. cbv iota.
    assert (Hlen : length (res ++ [l]) = S (length res)) by (rewrite length_app; simpl; lia).
    replace (n - length res)%nat with (S (n - S (length res))) by lia.
    cbn [take]. unfold lenEq. rewrite Hlen.
    destruct (Z.eqb_spec (Z.of_nat (S (length res))) (Z.of_nat n)) as [Heq|Hne].
    + replace (n - S (length res))%nat with 0%nat by lia. by rewrite take_0.
    + rewrite IH by lia. rewrite Hlen, <- app_assoc. done.
Qed.

(** ** The clusters of a built hierarchy *)

Section Clusters.
Context {JS : JSNumber} {KD : KDBush} {P : Type}.

Lemma constructor_Ok (o : PartialOptions) (st0 : @PointCluster JS P) :
  constructor o = Ok st0 → options st0 = mergeOptions o ∧ trees st0 = ∅ ∧ points st0 = [].
Proof.
  unfold constructor. destruct (validArrayLength _); [|done]. by intros [= <-].
Qed.

(** Every cluster record of a built hierarchy has its leaves. *)
Lemma built_cluster (o : PartialOptions) (st0 st : @PointCluster JS P) pts r :
  constructor o = Ok st0 →
  load st0 pts = Ok st →
  Configured (options st0) (Z.of_nat (length pts)) →
  WithinContract →
  WithinSelf (options st0) →
  clusterRecord st r →
  ∃ d L a z',
    (d ≤ passes (options st0))%nat
    ∧ hasLeaves st d (FCluster (_getClusterJSON r)) L
    ∧ Z.of_nat (length L) = rnum r
    ∧ NoDup L
    ∧ (∀ l, l ∈ L → 0 ≤ l < Z.of_nat (length pts))
    ∧ rid r = cidOf (Z.of_nat (length pts)) z' a
    ∧ minZoom (options st0) ≤ z' ≤ maxZoom (options st0).
Proof.
  intros Hnew Hload Hcfg Hw Hself (key & data & j & Hkey & Hj & Hn).
  destruct (constructor_Ok o st0 Hnew) as (_ & Hempty & _).
  assert (Hrange : maxZoom (options st0) + 1 - Z.of_nat (passes (options st0)) ≤ key
                   ≤ maxZoom (options st0) + 1).
  { destruct (load_spec st0 pts) as (st' & Hl & _ & _ & _ & _ & T3).
    rewrite Hl in Hload. injection Hload as <-.
    destruct (decide (key < maxZoom (options st0) + 1 - Z.of_nat (passes (options st0))
                      ∨ maxZoom (options st0) + 1 < key)) as [Hout|Hin]; [|lia].
    rewrite (T3 key Hout), Hempty in Hkey. done. }
  destruct (final_level st0 st pts key Hload Hrange) as (k & data2 & Hk & _ & Hd2 & Hst).
  rewrite Hkey in Hd2. injection Hd2 as <-.
  destruct (static_lookup _ _ _ _ Hst Hj) as (r0 & Hr0 & Hs0).
  destruct (leaves_level st0 st pts Hload Hcfg Hw Hself k Hk) as (Ls & HLs & Hperm).
  destruct (Forall2_lookup_l _ _ _ _ _ HLs Hr0) as (L & HL & Hleaves & Hlen).
  destruct (levelIn_ids (options st0) pts Hcfg Hw k Hk j r0 Hr0) as (_ & Hid).
  destruct (static_inv _ _ Hs0) as (_ & _ & Hi & Hnn).
  rewrite (project_static st r0 r Hs0), project_cluster in Hleaves by done.
  destruct (load_fields st0 st pts Hload) as [_ Hpts]. rewrite Hpts in Hperm.
  assert (Hnd : NoDup (concat Ls)).
  { rewrite Hperm. apply NoDup_fmap; [apply _|apply NoDup_seq]. }
  destruct Hid as [[? _]|(_ & a & z' & _ & Hz0 & Hz1 & Hid)]; [lia|].
  exists k, L, a, z'. split_and!; try done.
  - lia.
  - by eapply NoDup_concat_lookup.
  - intros l Hl.
    assert (Hin : l ∈ concat Ls) by (apply elem_of_concat; eauto).
    rewrite Hperm in Hin. apply list_elem_of_fmap in Hin as (i & -> & Hi').
    apply elem_of_seq in Hi'. lia.
  - by rewrite <- Hi.
  - lia.
Qed.



End Clusters.

(** ** Default arguments, the constructor *)

Section Api.
Context {JS : JSNumber} {KD : KDBush} {P : Type}.



(** The radius of a pass is [radius / zoom] whatever [scalingFunction]
    is, and so is the whole pass. *)
Lemma clusterRadius_ignores_scalingFunction (f : Z → num) (opts : Options) (zoom : Z) :
  clusterRadius (withScalingFunction f opts) zoom = ndiv (radius opts) (ofZ zoom).
Proof. done. Qed.

Lemma cluster_ignores_scalingFunction (f : Z → num) (opts : Options) N zoom data :
  _cluster (withScalingFunction f opts) N zoom data = _cluster opts N zoom data.
Proof. done. Qed.

End Api.

(** ** Pages of leaves *)

Lemma walk_rest limit offset L res sk :
  (∀ n, (length res ≤ n)%nat → lenEq n limit = false) →
  (walk limit offset L res sk).1 = res ++ drop (toSkip offset sk L) L.
Proof.
  revert res sk. induction L as [|l L IH]; intros res sk Hlim.
  - simpl. by rewrite drop_nil, app_nil_r.
  - cbn [walk]. destruct (xlt sk offset) eqn:Hlt.
    + rewrite (Hlim (length res)) by done. rewrite IH by done. f_equal.
      destruct offset as [m|]; simpl in *.
      * apply Z.ltb_lt in Hlt.
        replace (Z.to_nat (m - sk)) with (S (Z.to_nat (m - (sk + 1)))) by lia. done.
      * done.
    + rewrite (Hlim (length (res ++ [l]))) by (rewrite length_app; simpl; lia).
      rewrite IH by (intros n Hn; apply Hlim; rewrite length_app in Hn; simpl in Hn; lia).
      destruct offset as [m|]; simpl in *; [|done].
      apply Z.ltb_ge in Hlt.
      replace (Z.to_nat (m - sk)) with 0%nat by lia. simpl.
      by rewrite <- app_assoc.
Qed.

Lemma walk_page (n : nat) offset L res sk :
  (length res < n)%nat →
  (walk (XZ (Z.of_nat n)) offset L res sk).1
  = res ++ take (n - length res) (drop (toSkip offset sk L) L).
Proof.
  revert res sk. induction L as [|l L IH]; intros res sk Hres.
  - simpl. by rewrite drop_nil, take_nil, app_nil_r.
  - assert (Hne : lenEq (length res) (XZ (Z.of_nat n)) = false).
    { simpl. apply Z.eqb_neq. lia. }
    cbn [walk]. destruct (xlt sk offset) eqn:Hlt.
    + rewrite Hne, IH by done. f_equal. f_equal.
      destruct offset as [m|]; simpl in *.
      * apply Z.ltb_lt in Hlt.
        replace (Z.to_nat (m - sk)) with (S (Z.to_nat (m - (sk + 1)))) by lia. done.
      * done.
    + assert (Hskip : drop (toSkip offset sk (l :: L)) (l :: L) = l :: L).
      { destruct offset as [m|]; simpl in *; [|done].
        apply Z.ltb_ge in Hlt. by replace (Z.to_nat (m - sk)) with 0%nat by lia. }
      assert (Hskip' : drop (toSkip offset sk L) L = L).
      { destruct offset as [m|]; simpl in *; [|done].
        apply Z.ltb_ge in Hlt. by replace (Z.to_nat (m - sk)) with 0%nat by lia. }
      rewrite Hskip.
      assert (Hlen : length (res ++ [l]) = S (length res)) by (rewrite length_app; simpl; lia).
      replace (n - length res)%nat with (S (n - S (length res))) by lia.
      cbn [take]. unfold lenEq. rewrite Hlen.
      destruct (Z.eqb_spec (Z.of_nat (S (length res))) (Z.of_nat n)) as [Heq|Hne'].
      * replace (n - S (length res))%nat with 0%nat by lia. by rewrite take_0.
      * rewrite IH by lia. rewrite Hskip', Hlen, <- app_assoc. done.
Qed.

Lemma orDefault_nonzero (v : Z) (d : Z) : v ≠ 0 → orDefault (Some (XZ v)) d = XZ v.
Proof. by destruct v. Qed.

Lemma orDefault_offset (m : Z) : orDefault (Some (XZ m)) 0 = XZ m.
Proof. by destruct m. Qed.

Section Pages.
Context {JS : JSNumber} {KD : KDBush} {P : Type}.
Implicit Types st : @PointCluster JS P.

Lemma hasLeaves_count st d f L :
  hasLeaves st d f L → pointCountOf f = Z.of_nat (length L).
Proof.
  destruct f as [idx|c|].
  - intros ->%hasLeaves_point. done.
  - destruct d as [|d]; [done|].
    by intros (? & ? & _ & _ & _ & _ & ?)%hasLeaves_cluster.
  - by intros ?%hasLeaves_undefined.
Qed.

Lemma getLeaves_walk st d fuel c L limit offset :
  (d ≤ fuel)%nat →
  hasLeaves st d (FCluster c) L →
  lenEq 0 (orDefault limit 10) = false →
  getLeaves fuel st (cluster_id c) limit offset
  = Some (Ok (walk (orDefault limit 10) (orDefault offset 0) L [] 0).1).
Proof.
  intros Hfuel Hl Hlim. unfold getLeaves.
  rewrite (appendLeaves_walk _ _ st d fuel c L [] 0 Hfuel Hl Hlim).
  by destruct (walk _ _ L [] 0).
Qed.

Lemma hasLeaves_leavesOf st d f L fuel :
  hasLeaves st d f L → (d ≤ fuel)%nat → leavesOf fuel st f = Some (Ok L).
Proof.
  destruct f as [idx|c|].
  - intros ->%hasLeaves_point _. done.
  - intros Hl Hfuel. cbn [leavesOf].
    rewrite (getLeaves_walk st d fuel c L (Some XInf) None Hfuel Hl eq_refl).
    cbn [orDefault]. by rewrite walk_rest.
  - by intros ?%hasLeaves_undefined.
Qed.


End Pages.

(** ** Children and leaves *)

Lemma concat_Permutation {A} (l1 l2 : list (list A)) : l1 ≡ₚ l2 → concat l1 ≡ₚ concat l2.
Proof.
  induction 1 as [|x l l' _ IH|x y l|l l' l'' _ IH1 _ IH2]; simpl.
  - done.
  - by rewrite IH.
  - rewrite !app_assoc. f_equiv. apply Permutation_app_comm.
  - by rewrite IH1.
Qed.

Section ChildrenOfClusters.
Context {JS : JSNumber} {KD : KDBush} {P : Type}.
Implicit Types st : @PointCluster JS P.

Lemma Forall2_counts st d cs Ls :
  Forall2 (hasLeaves st d) cs Ls →
  sumZ (pointCountOf <$> cs) = Z.of_nat (length (concat Ls)).
Proof.
  induction 1 as [|f L cs Ls Hf _ IH]; [done|].
  csimpl. rewrite length_app, IH, (hasLeaves_count st d f L Hf). lia.
Qed.

(** The children of a cluster of a hierarchy built with the zooms
    0 .. 30 and at most 2^24 / 33 points ([Configured]): there are at
    least two, each is an input point or a cluster, and their point
    counts add up to the point count of the cluster. *)
Theorem children_counts_add_up
    (o : PartialOptions) (st0 st : @PointCluster JS P) pts r :
  constructor o = Ok st0 →
  load st0 pts = Ok st →
  Configured (options st0) (Z.of_nat (length pts)) →
  WithinContract →
  WithinSelf (options st0) →
  clusterRecord st r →
  let c := _getClusterJSON r in
  ∃ children,
    getChildren st (cluster_id c) = Ok children
    ∧ (2 ≤ length children)%nat
    ∧ (FUndefined ∉ children)
    ∧ sumZ (pointCountOf <$> children) = point_count c.
Proof.
  intros Hnew Hload Hcfg Hw Hself Hr c. subst c.
  destruct (built_cluster o st0 st pts r Hnew Hload Hcfg Hw Hself Hr)
    as (d & L & a & z' & Hd & Hl & _).
  destruct d as [|d]; [done|].
  apply hasLeaves_cluster in Hl as (cs & Ls & Hget & Hlen & Hall & -> & Hn).
  exists cs. split_and!; [done|done| |].
  - intros Hin. apply list_elem_of_lookup in Hin as (j & Hj).
    destruct (Forall2_lookup_l _ _ _ _ _ Hall Hj) as (L & _ & HL).
    by apply hasLeaves_undefined in HL.
  - rewrite Hn. by apply (Forall2_counts st d).
Qed.



End ChildrenOfClusters.

(** ** Arguments out of range *)

Section OddArguments.
Context {JS : JSNumber} {KD : KDBush} {P : Type}.
Implicit Types st : @PointCluster JS P.

Lemma leafLoop_limit rec1 rec2 l1 l2 offset cs res sk :
  (∀ n, lenEq n l1 = lenEq n l2) →
  (∀ res id sk, rec1 res id l1 offset sk = rec2 res id l2 offset sk) →
  leafLoop rec1 l1 offset cs res sk = leafLoop rec2 l2 offset cs res sk.
Proof.
  intros Hlen Hrec. revert res sk.
  induction cs as [|child cs IH]; intros res sk; [done|].
  cbn [leafLoop].
  destruct child as [idx|props|]; [| |done].
  - destruct (xlt sk offset); rewrite Hlen;
      match goal with |- context [lenEq ?n l2] => destruct (lenEq n l2) end; done.
  - destruct (xle (sk + point_count props) offset).
    + rewrite Hlen. by destruct (lenEq (length res) l2).
    + rewrite Hrec.
      destruct (rec2 res (cluster_id props) l2 offset sk) as [[[r' s']|e]|]; [|done..].
      rewrite Hlen. by destruct (lenEq (length r') l2).
Qed.

Lemma appendLeaves_limit fuel st l1 l2 offset res id sk :
  (∀ n, lenEq n l1 = lenEq n l2) →
  _appendLeaves fuel st res id l1 offset sk = _appendLeaves fuel st res id l2 offset sk.
Proof.
  intros Hlen. revert res id sk. induction fuel as [|fuel IH]; intros res id sk; [done|].
  rewrite !appendLeaves_S. destruct (getChildren st id) as [cs|e]; [|done].
  by apply leafLoop_limit.
Qed.

Lemma getChildren_cluster_counts st id cs c :
  getChildren st id = Ok cs → FCluster c ∈ cs → 1 < point_count c.
Proof.
  unfold getChildren. destruct (trees st !! _) as [data|]; [|done].
  destruct (_ <=? _); [done|]. rewrite childrenOf_alt.
  destruct (project st <$> _) as [|c1 cs1] eqn:Hcs; [done|]. intros [= <-] Hin.
  rewrite <- Hcs in Hin. apply list_elem_of_fmap in Hin as (r & Hr & _).
  unfold project in Hr. destruct (Z.ltb_spec 1 (rnum r)).
  - injection Hr as ->. done.
  - by destruct (lookupZ (points st) (rid r)).
Qed.

Lemma leafLoop_offset rec1 rec2 limit (m1 m2 : Z) cs res sk :
  m1 ≤ 0 → m2 ≤ 0 → 0 ≤ sk →
  (∀ c, FCluster c ∈ cs → 1 < point_count c) →
  (∀ res id, rec1 res id limit (XZ m1) sk = rec2 res id limit (XZ m2) sk
             ∧ ∀ r' s', rec1 res id limit (XZ m1) sk = Some (Ok (r', s')) → s' = sk) →
  leafLoop rec1 limit (XZ m1) cs res sk = leafLoop rec2 limit (XZ m2) cs res sk
  ∧ ∀ r' s', leafLoop rec1 limit (XZ m1) cs res sk = Some (Ok (r', s')) → s' = sk.
Proof.
  intros Hm1 Hm2 Hsk Hcs Hrec. revert res.
  induction cs as [|child cs IH]; intros res.
  { split; [done|]. by intros r' s' [= _ <-]. }
  assert (IH' := IH (λ c Hc, Hcs c (list_elem_of_further _ _ _ Hc))). clear IH.
  cbn [leafLoop]. destruct child as [idx|props|]; [| |done].
  - cbn [xlt]. destruct (Z.ltb_spec sk m1); [lia|]. destruct (Z.ltb_spec sk m2); [lia|].
    destruct (lenEq (length (res ++ [idx])) limit).
    + split; [done|]. by intros r' s' [= _ <-].
    + apply IH'.
  - assert (1 < point_count props) by (apply Hcs, elem_of_cons; auto).
    cbn [xle]. destruct (Z.leb_spec (sk + point_count props) m1); [lia|].
    destruct (Z.leb_spec (sk + point_count props) m2); [lia|].
    destruct (Hrec res (cluster_id props)) as [Heq Hsame]. rewrite <- Heq.
    destruct (rec1 res (cluster_id props) limit (XZ m1) sk) as [[[r1 s1]|e]|]; [|done..].
    rewrite (Hsame r1 s1 eq_refl).
    destruct (lenEq (length r1) limit).
    + split; [done|]. by intros r' s' [= _ <-].
    + apply IH'.
Qed.

Lemma appendLeaves_offset fuel st limit (m1 m2 : Z) res id sk :
  m1 ≤ 0 → m2 ≤ 0 → 0 ≤ sk →
  _appendLeaves fuel st res id limit (XZ m1) sk = _appendLeaves fuel st res id limit (XZ m2) sk
  ∧ ∀ r' s', _appendLeaves fuel st res id limit (XZ m1) sk = Some (Ok (r', s')) → s' = sk.
Proof.
  intros Hm1 Hm2 Hsk. revert res id. induction fuel as [|fuel IH]; intros res id; [done|].
  rewrite !appendLeaves_S. destruct (getChildren st id) as [cs|e] eqn:Hget; [|done].
  apply leafLoop_offset; try done.
  intros c Hc. by apply (getChildren_cluster_counts st id cs).
Qed.


(** Before [load], [getClusters] fails on the missing tree, and the
    other queries find no cluster. *)
Theorem queries_before_load (o : PartialOptions) (st0 : @PointCluster JS P) :
  constructor o = Ok st0 →
  (∀ bbox zoom, getClusters st0 bbox zoom = Err TypeError)
  ∧ (∀ id, getChildren st0 id = Err NoCluster)
  ∧ (∀ fuel id limit offset, getLeaves (S fuel) st0 id limit offset = Some (Err NoCluster))
  ∧ (∀ id, getClusterExpansionZoom st0 id
           = if _getOriginZoom 0 id - 1 <=? maxZoom (options st0)
             then Err NoCluster
             else Ok (_getOriginZoom 0 id - 1)).
Proof.
  intros Hnew. destruct (constructor_Ok o st0 Hnew) as (Hopt & Htrees & Hpts).
  assert (Hch : ∀ id, getChildren st0 id = Err NoCluster).
  { intros id. unfold getChildren. by rewrite Htrees, lookup_empty. }
  split_and!.
  - intros bbox zoom. unfold getClusters. by rewrite Htrees, lookup_empty.
  - done.
  - intros fuel id limit offset. unfold getLeaves. by rewrite appendLeaves_S, Hch.
  - intros id. unfold getClusterExpansionZoom. rewrite Hpts. cbn [length].
    change (Z.of_nat 0) with 0. set (ez := _getOriginZoom 0 id - 1).
    destruct (Z.to_nat (maxZoom (options st0) - ez + 1)) as [|n] eqn:Hn.
    + cbn [expansionLoop]. destruct (Z.leb_spec ez (maxZoom (options st0))); [lia|done].
    + cbn [expansionLoop]. destruct (Z.leb_spec ez (maxZoom (options st0))); [|done].
      cbn [getChildrenOpt]. by rewrite Hch.
Qed.

End OddArguments.

(** ** The levels [load] builds *)

Section LoadedLevels.
Context {JS : JSNumber} {KD : KDBush} {P : Type}.
Implicit Types st : @PointCluster JS P.

(** [load] on a new instance leaves a tree at [maxZoom + 1] and at the
    zooms from [minZoom] to [maxZoom], and nowhere else; so [getClusters]
    fails, on a missing tree, exactly when [minZoom] is above
    [maxZoom + 1]. *)
Theorem loaded_levels (o : PartialOptions) (st0 st : @PointCluster JS P) pts :
  constructor o = Ok st0 →
  load st0 pts = Ok st →
  (∀ key, is_Some (trees st !! key)
          ↔ key = maxZoom (options st) + 1
            ∨ minZoom (options st) ≤ key ≤ maxZoom (options st))
  ∧ (∀ bbox zoom, failed (getClusters st bbox zoom)
                  ↔ maxZoom (options st) + 1 < minZoom (options st))
  ∧ (∀ bbox zoom e, getClusters st bbox zoom = Err e → e = TypeError).
Proof.
  intros Hnew Hload.
  destruct (constructor_Ok o st0 Hnew) as (_ & Hempty & _).
  destruct (load_spec st0 pts) as (st' & Hl & Hopt & _ & T1 & T2 & T3).
  rewrite Hl in Hload. injection Hload as ->. rewrite Hopt.
  set (opts := options st0) in *.
  assert (Hdom : ∀ key, is_Some (trees st !! key)
            ↔ key = maxZoom opts + 1 ∨ minZoom opts ≤ key ≤ maxZoom opts).
  { intros key. unfold passes in *.
    destruct (decide (key < maxZoom opts + 1 - Z.of_nat (Z.to_nat (maxZoom opts - minZoom opts + 1))
                        ∨ maxZoom opts + 1 < key)) as [Hout|Hin].
    - rewrite (T3 key Hout), Hempty, lookup_empty. split; [by intros [? ?]|lia].
    - set (k := Z.to_nat (maxZoom opts + 1 - key)).
      assert (Hk : key = maxZoom opts + 1 - Z.of_nat k) by lia.
      split; [lia|]. intros _. rewrite Hk.
      destruct (decide (k = Z.to_nat (maxZoom opts - minZoom opts + 1))) as [->|Hne].
      + by rewrite T2.
      + rewrite T1 by lia. done. }
  split_and!.
  - done.
  - intros bbox zoom. unfold getClusters. rewrite Hopt. fold opts.
    pose proof (Hdom (_limitZoom opts zoom)) as Hlim.
    assert (Hkey : _limitZoom opts zoom
                   = Z.max (minZoom opts) (Z.min (Qfloor zoom) (maxZoom opts + 1))) by done.
    destruct (trees st !! _limitZoom opts zoom) as [data|].
    + split; [by intros [e ?]|]. intros Hgt.
      destruct Hlim as [Hlim _]. specialize (Hlim ltac:(by eexists)). lia.
    + split; [|by eexists]. intros _.
      destruct (decide (maxZoom opts + 1 < minZoom opts)); [done|].
      destruct Hlim as [_ Hlim]. destruct Hlim as [? ?]; [lia|done].
  - intros bbox zoom e. unfold getClusters.
    by destruct (trees st !! _limitZoom (options st) zoom); intros [= <-].
Qed.

(** An identifier that is the position of an input point is no cluster:
    [getChildren] and [getLeaves] reject it, and so does
    [getClusterExpansionZoom] when [maxZoom] is at least -1, as the
    constructor requires. *)
Theorem point_positions_are_no_cluster_ids st (id : Z) :
  WithinUndefined →
  Z.of_nat (length (points st)) ≤ 2 ^ 31 →
  0 ≤ id < Z.of_nat (length (points st)) →
  getChildren st id = Err NoCluster
  ∧ (∀ fuel limit offset, getLeaves (S fuel) st id limit offset = Some (Err NoCluster))
  ∧ (-1 ≤ maxZoom (options st) → getClusterExpansionZoom st id = Err NoCluster).
Proof.
  intros Hundef HN Hid. set (N := Z.of_nat (length (points st))) in *.
  assert (Horigin : _getOriginId N id < 0).
  { unfold _getOriginId, sar5. rewrite toInt32_small by lia.
    rewrite Z.shiftr_div_pow2 by lia. apply Z.div_lt_upper_bound; lia. }
  assert (Hzoom : _getOriginZoom N id ≤ 0).
  { unfold _getOriginZoom. apply Z.rem_nonpos; lia. }
  assert (Hch : getChildren st id = Err NoCluster).
  { unfold getChildren. fold N. destruct (trees st !! _) as [data|]; [|done].
    destruct (Z.leb_spec (Z.of_nat (length data)) (_getOriginId N id)); [done|].
    unfold lookupZ. destruct (Z.ltb_spec (_getOriginId N id) 0); [|lia].
    simpl. by rewrite Hundef. }
  split_and!.
  - done.
  - intros fuel limit offset. unfold getLeaves. by rewrite appendLeaves_S, Hch.
  - intros Hmax. unfold getClusterExpansionZoom. fold N.
    destruct (Z.to_nat (maxZoom (options st) - (_getOriginZoom N id - 1) + 1)) as [|n] eqn:Hn;
      [lia|].
    cbn [expansionLoop]. destruct (Z.leb_spec (_getOriginZoom N id - 1) (maxZoom (options st)));
      [|lia].
    cbn [getChildrenOpt]. by rewrite Hch.
Qed.

Lemma expansionLoop_bounds st n cid ez z :
  expansionLoop n st cid ez = Ok z →
  ez ≤ z ∧ (ez ≤ maxZoom (options st) → (0 < n)%nat → ez < z)
  ∧ (z ≤ ez ∨ z ≤ maxZoom (options st) + 1).
Proof.
  revert cid ez. induction n as [|n IH]; intros cid ez.
  - intros [= <-]. lia.
  - cbn [expansionLoop]. destruct (Z.leb_spec ez (maxZoom (options st))) as [Hle|Hgt].
    2:{ intros [= <-]. lia. }
    destruct (getChildrenOpt st cid) as [children|e]; [|done].
    assert (Hrec : ∀ cid', expansionLoop n st cid' (ez + 1) = Ok z →
              ez ≤ z ∧ (ez ≤ maxZoom (options st) → (0 < S n)%nat → ez < z)
              ∧ (z ≤ ez ∨ z ≤ maxZoom (options st) + 1)).
    { intros cid' Hz. destruct (IH cid' (ez + 1) Hz) as (? & _ & ?). lia. }
    destruct children as [|c1 [|c2 cs]].
    + intros [= <-]. lia.
    + destruct c1 as [idx|c|]; [apply Hrec|apply Hrec|done].
    + destruct c1; intros [= <-]; lia.
Qed.

(** Whatever the instance holds and whatever the identifier,
    [getClusterExpansionZoom] returns, when it returns, a zoom from the
    origin zoom of the identifier to [maxZoom + 1]; unless the origin zoom
    is above [maxZoom + 1] already, when it returns the zoom below the
    origin zoom and does not look the cluster up. *)
Theorem getClusterExpansionZoom_bounds st (id : Z) :
  let originZoom := _getOriginZoom (Z.of_nat (length (points st))) id in
  (originZoom ≤ maxZoom (options st) + 1 →
   ∀ z, getClusterExpansionZoom st id = Ok z →
        originZoom ≤ z ≤ maxZoom (options st) + 1)
  ∧ (maxZoom (options st) + 1 < originZoom →
     getClusterExpansionZoom st id = Ok (originZoom - 1))
  ∧ (∀ e, getClusterExpansionZoom st id = Err e → e = NoCluster ∨ e = TypeError).
Proof.
  intros originZoom. unfold getClusterExpansionZoom. fold originZoom.
  split_and!.
  - intros Hle z Hz. apply expansionLoop_bounds in Hz as (H1 & H2 & H3).
    assert (0 < Z.to_nat (maxZoom (options st) - (originZoom - 1) + 1))%nat by lia.
    lia.
  - intros Hgt.
    replace (Z.to_nat (maxZoom (options st) - (originZoom - 1) + 1)) with 0%nat by lia.
    done.
  - generalize (Z.to_nat (maxZoom (options st) - (originZoom - 1) + 1)).
    generalize (originZoom - 1). generalize (Some id).
    intros cid ez n. revert cid ez. induction n as [|n IH]; intros cid ez e; [done|].
    cbn [expansionLoop]. destruct (_ <=? _); [|done].
    destruct (getChildrenOpt st cid) as [children|e'] eqn:Hch.
    + destruct children as [|c1 [|c2 cs]]; [done| |by destruct c1].
      destruct c1 as [idx|c|]; [apply IH|apply IH|]. intros [= <-]. auto.
    + intros [= <-]. left. destruct cid as [c|]; [|by injection Hch as <-].
      cbn [getChildrenOpt] in Hch. revert Hch. unfold getChildren.
      destruct (trees st !! _); [|by intros [= <-]].
      destruct (_ <=? _); [by intros [= <-]|].
      by destruct (childrenOf _ _ _ _); intros [= <-].
Qed.

(** [load] of no point: every level is empty, and [getClusters] returns
    nothing at every zoom. *)
Theorem load_of_no_point (st0 st : @PointCluster JS P) bbox zoom :
  load st0 [] = Ok st →
  minZoom (options st0) ≤ maxZoom (options st0) + 1 →
  RangeContract →
  getClusters st bbox zoom = Ok []
  ∧ ∀ key data, minZoom (options st0) ≤ key ≤ maxZoom (options st0) + 1 →
                trees st !! key = Some data → data = [].
Proof.
  intros Hload Hmm Hr.
  destruct (load_fields st0 st [] Hload) as [Hopt Hpts].
  assert (Hlvl : ∀ k, levelIn (options st0) ([] : list (@Point JS P)) k = []).
  { induction k as [|k IH]; [done|]. cbn [levelIn]. by rewrite IH. }
  assert (Hkeys : ∀ key data, minZoom (options st0) ≤ key ≤ maxZoom (options st0) + 1 →
            trees st !! key = Some data → data = []).
  { intros key data Hkey Hdata.
    destruct (final_level st0 st [] key Hload) as (k & data2 & _ & _ & Hd2 & Hst).
    { unfold passes. lia. }
    rewrite Hdata in Hd2. injection Hd2 as <-.
    rewrite Hlvl in Hst. by apply fmap_nil_inv in Hst. }
  split; [|done].
  destruct (final_level st0 st [] (_limitZoom (options st0) zoom) Hload)
    as (k & data & _ & _ & Hdata & _).
  { by apply limitZoom_range. }
  assert (data = []) as ->.
  { eapply Hkeys; [|exact Hdata]. unfold _limitZoom. lia. }
  unfold getClusters. rewrite Hopt, Hdata. f_equal.
  destruct (Hr (coordsOf ([] : list (@Rec JS))) bbox) as [_ Hin].
  destruct (range _ bbox) as [|i ids] eqn:Hrange; [done|].
  destruct (Hin i) as [Hi _]. destruct Hi as (p & Hp & _); [apply elem_of_cons; auto|].
  done.
Qed.

End LoadedLevels.

(** ** Decoding and abbreviating *)

(** Decoding an identifier and encoding what was decoded gives the
    identifier back, for the identifiers from [N] to [N + 2^31 - 1]: the
    decoded zoom is the origin zoom less one, from -1 to 30, and the
    decoded position is below 2^26. *)
Theorem decode_then_encode (N id : Z) :
  0 ≤ id - N < 2 ^ 31 →
  encodeId N (_getOriginId N id) (_getOriginZoom N id - 1) = id
  ∧ 0 ≤ _getOriginId N id < 2 ^ 26
  ∧ 0 ≤ _getOriginZoom N id ≤ 31.
Proof.
  intros Hid. unfold _getOriginId, _getOriginZoom, sar5.
  rewrite toInt32_small by lia.
  rewrite Z.shiftr_div_pow2 by lia. change (2 ^ 5) with 32.
  rewrite Z.rem_mod_nonneg by lia.
  pose proof (Z.div_mod (id - N) 32 ltac:(lia)) as Hdm.
  pose proof (Z.mod_pos_bound (id - N) 32 ltac:(lia)) as Hmod.
  assert (Hq : 0 ≤ (id - N) / 32 < 2 ^ 26).
  { split; [apply Z.div_pos; lia|apply Z.div_lt_upper_bound; lia]. }
  split_and!; try lia.
  rewrite encodeId_small by lia. lia.
Qed.

(** [point_count_abbreviated] is the count below 1000, the count to the
    nearest hundred, in tenths of a thousand, below 10000, and the count
    to the nearest thousand from there on; a count halfway is rounded
    up. *)
Theorem abbreviation_rounds_to_nearest (count : Z) :
  match abbreviate count with
  | AbbrevNum n => n = count ∧ count < 1000
  | AbbrevTenthsK t => 1000 ≤ count < 10000 ∧ -50 ≤ count - 100 * t < 50 ∧ 10 ≤ t ≤ 100
  | AbbrevK k => 10000 ≤ count ∧ -500 ≤ count - 1000 * k < 500 ∧ 10 ≤ k
  end.
Proof.
  unfold abbreviate.
  destruct (Z.leb_spec 10000 count); [|destruct (Z.leb_spec 1000 count)].
  - pose proof (Z.div_mod (count + 500) 1000 ltac:(lia)).
    pose proof (Z.mod_pos_bound (count + 500) 1000 ltac:(lia)).
    split_and!; try lia.
  - pose proof (Z.div_mod (count + 50) 100 ltac:(lia)).
    pose proof (Z.mod_pos_bound (count + 50) 100 ltac:(lia)).
    split_and!; try lia.
  - done.
Qed.

(** ** What the passes write *)

Section Written.
Context {JS : JSNumber} {KD : KDBush}.
Variable opts : Options.
Variables N z : Z.
Variable data0 : list Rec.
Hypothesis z_exact : Z.abs z ≤ 2 ^ 24.
Hypothesis pre : PassPre z data0.
Hypothesis within_ok : WithinContract.

Lemma written_step i (data next : list Rec) groups :
  PassInv opts N z data0 i data next groups →
  (i < length data0)%nat →
  Forall (writtenBy opts z data0) next →
  Forall (writtenBy opts z data0) (clusterStep opts N z (data, next) i).2.
Proof.
  intros Hinv Hi Hnext.
  assert (Hlen : length data = length data0) by (apply static_length, Hinv).
  destruct (lookup_lt_is_Some_2 data i) as [ri Hri]; [lia|].
  destruct (markLe (rzoom ri) z) eqn:Hm.
  { rewrite (clusterStep_skip opts N z data next i); [done|]. intros r Hr. congruence. }
  set (nb := within (coordsOf data) (Some (rx ri)) (Some (ry ri)) (clusterRadius opts z)).
  assert (Hnd : NoDup nb) by apply within_ok.
  destruct (marked_facts opts N z data0 pre i data next groups ri nb Hinv Hri Hm Hnd)
    as (_ & HC & _).
  destruct (clusterStep_visit opts N z z_exact data next i ri Hri Hm Hnd) as (cx & cy & ->).
  { intros k Hk. destruct (HC k) as (r & Hr & _ & _ & ?); [apply elem_of_cons; auto|].
    unfold rnumAt. by rewrite Hr. }
  { destruct (HC i) as (r & Hr & _ & _ & ?); [apply elem_of_cons; auto|]. congruence. }
  fold nb. set (U := taken z data i nb) in *.
  set (total := rnum ri + sumZ (rnumAt data <$> U)).
  destruct ((rnum ri <? total) && (minPoints opts <=? total)) eqn:Hcond; cbn [snd].
  - apply andb_true_iff in Hcond as [Hc1 Hc2].
    apply Z.ltb_lt in Hc1. apply Z.leb_le in Hc2.
    apply Forall_app. split; [done|]. constructor; [|constructor].
    right. simpl. destruct (HC i) as (r & Hr & _ & _ & ?); [apply elem_of_cons; auto|].
    simplify_eq. lia.
  - apply Forall_app. split; [done|]. apply Forall_forall. intros o Ho.
    apply list_elem_of_omap in Ho as (k & Hk & Ho).
    destruct (HC k Hk) as (r & Hr & Hr0 & _). rewrite Hr in Ho. injection Ho as <-.
    left. eauto.
Qed.

Lemma cluster_written :
  Forall (writtenBy opts z data0) (_cluster opts N z data0).2.
Proof.
  assert (Hprefix : ∀ i, (i ≤ length data0)%nat →
            ∃ data next groups,
              fold_left (clusterStep opts N z) (seq 0 i) (data0, []) = (data, next)
              ∧ PassInv opts N z data0 i data next groups
              ∧ Forall (writtenBy opts z data0) next).
  { induction i as [|i IH]; intros Hi.
    - exists data0, [], []. split_and!; [done| |constructor].
      by apply PassInv_init.
    - destruct IH as (data & next & groups & Hfold & Hinv & Hw); [lia|].
      destruct (PassInv_step opts N z z_exact data0 pre within_ok i data next groups Hinv)
        as (data' & next' & groups' & Hstep & Hinv'); [lia|].
      exists data', next', groups'. split_and!; [|done|].
      + by rewrite seq_S, fold_left_app, Hfold.
      + pose proof (written_step i data next groups Hinv ltac:(lia) Hw) as Hw'.
        by rewrite Hstep in Hw'. }
  destruct (Hprefix (length data0)) as (data & next & groups & Hfold & _ & Hw); [lia|].
  unfold _cluster. by rewrite Hfold.
Qed.

End Written.

Lemma concat_length_ge {A} (ls : list (list A)) :
  Forall (λ l, l ≠ []) ls → (length ls ≤ length (concat ls))%nat.
Proof.
  induction 1 as [|l ls Hl _ IH]; simpl; [done|].
  rewrite length_app. destruct l; [done|]. simpl. lia.
Qed.

Section BuiltLevels.
Context {JS : JSNumber} {KD : KDBush} {P : Type}.
Variable opts : Options.
Variable pts : list (@Point JS P).
Local Abbreviation N := (Z.of_nat (length pts)).
Hypothesis exact : Exact opts N.
Hypothesis within_ok : WithinContract.

Lemma levelIn_min k : (k ≤ passes opts)%nat → LevelMin opts (levelIn opts pts k).
Proof.
  induction k as [|k IH]; intros Hk.
  - intros j r Hr Hn. destruct (levelIn_0_rec opts pts exact j r Hr) as (_ & _ & _ & _ & ?). lia.
  - specialize (IH ltac:(lia)).
    pose proof (levelIn_inv opts pts exact within_ok k ltac:(lia)) as Hlvl.
    pose proof (levelIn_post opts pts exact within_ok k ltac:(lia)) as Hpost.
    pose proof (cluster_written opts N _ _ (pass_exact opts pts exact k ltac:(lia))
                  (LevelInv_PassPre opts pts k _ Hlvl) within_ok) as Hw.
    destruct (post_records opts pts exact k _ _ ltac:(lia) Hlvl Hpost) as [_ Hrec].
    cbn [levelIn]. intros j r. unfold _createTree. change (map ?f ?l) with (f <$> l).
    rewrite list_lookup_fmap.
    destruct (_ !! j) as [o|] eqn:Ho; [|done]. simpl. intros [= <-]. simpl.
    destruct (Hrec j o Ho) as (Hn & _).
    pose proof exact as [_ _ HN].
    rewrite f32_exact by lia. intros H1.
    apply (Forall_lookup_1 _ _ _ _ Hw) in Ho as [(k0 & r0 & Hk0 & ->)|[_ ?]]; [|done].
    simpl in *. by apply (IH k0 r0).
Qed.

Lemma levelIn_count_le k j r :
  (k ≤ passes opts)%nat → levelIn opts pts k !! j = Some r → 1 ≤ rnum r ≤ N.
Proof.
  intros Hk Hr.
  pose proof (levelIn_inv opts pts exact within_ok k Hk) as [Hsum Hrec].
  split; [by destruct (Hrec j r Hr)|].
  rewrite <- Hsum. apply sumZ_elem_le.
  - apply Forall_fmap, Forall_lookup. intros j' r' Hr'.
    destruct (Hrec j' r' Hr') as (? & _). simpl. lia.
  - apply list_elem_of_fmap. exists r. split; [done|]. by eapply list_elem_of_lookup_2.
Qed.

Lemma levelIn_shrinks k :
  (k < passes opts)%nat →
  (length (levelIn opts pts (S k)) ≤ length (levelIn opts pts k))%nat.
Proof.
  intros Hk. destruct (levelIn_post opts pts exact within_ok k Hk) as (groups & _ & Hperm & Hg).
  cbn [levelIn]. unfold _createTree. rewrite length_map.
  rewrite <- (Forall2_length _ _ _ Hg).
  assert (Hlen : length (concat groups) = length (levelIn opts pts k)).
  { rewrite Hperm. apply length_seq. }
  rewrite <- Hlen.
  apply concat_length_ge. apply Forall_forall. intros g Hin.
  apply list_elem_of_lookup in Hin as (j & Hj).
  destruct (Forall2_lookup_l _ _ _ _ _ Hg Hj)
    as (o & _ & [(? & ? & -> & _)|(? & ? & ? & ? & ? & -> & _)]); done.
Qed.

End BuiltLevels.

Section BuiltClusters.
Context {JS : JSNumber} {KD : KDBush} {P : Type}.



End BuiltClusters.

(** ** Identifiers within a level *)

Section DistinctIds.
Context {JS : JSNumber} {KD : KDBush} {P : Type}.
Variable opts : Options.
Variable pts : list (@Point JS P).
Local Abbreviation N := (Z.of_nat (length pts)).
Hypothesis cfg : Configured opts N.
Hypothesis within_ok : WithinContract.

Lemma idOK_not_new k r a :
  (k < passes opts)%nat →
  idOK opts N k r → rid r ≠ cidOf N (maxZoom opts - Z.of_nat k) a.
Proof.
  intros Hk Hid. destruct cfg as [Hmin Hmax HN]. unfold passes in Hk.
  destruct Hid as [[_ ?]|(_ & a' & z' & _ & _ & Hz & ->)]; unfold cidOf; lia.
Qed.

Lemma levelIn_distinct k :
  (k ≤ passes opts)%nat → NoDup (rid <$> levelIn opts pts k).
Proof.
  induction k as [|k IH]; intros Hk.
  - apply NoDup_alt. intros i j x. rewrite !list_lookup_fmap.
    destruct (levelIn opts pts 0 !! i) as [ri|] eqn:Hi; [|done].
    destruct (levelIn opts pts 0 !! j) as [rj|] eqn:Hj; [|done].
    pose proof (Configured_Exact opts pts cfg) as Hex.
    destruct (levelIn_0_rec opts pts Hex i ri Hi) as (_ & _ & Hidi & _).
    destruct (levelIn_0_rec opts pts Hex j rj Hj) as (_ & _ & Hidj & _).
    simpl. intros [= <-] [= Heq]. lia.
  - specialize (IH ltac:(lia)).
    pose proof (levelIn_ids opts pts cfg within_ok k ltac:(lia)) as Hids.
    destruct (level_groups opts pts cfg within_ok k ltac:(lia) Hids)
      as (groups & Hst & Hperm & Hg).
    cbn [levelIn].
    set (z := maxZoom opts - Z.of_nat k) in *.
    set (data0 := levelIn opts pts k) in *.
    destruct (_cluster opts N z data0) as [data' next]. cbn [fst snd] in *.
    assert (Hnd : NoDup (concat groups)) by (rewrite Hperm; apply NoDup_seq).
    (* the identifier of what a group wrote, read off the level *)
    assert (Hcopy : ∀ k0 o, data' !! k0 = Some o →
              ∃ r0, data0 !! k0 = Some r0 ∧ rid r0 = rid o).
    { intros k0 o Ho. destruct (static_lookup _ _ _ _ Hst Ho) as (r0 & Hr0 & Hs0).
      exists r0. split; [done|]. by apply static_inv in Hs0 as (_ & _ & ? & _). }
    apply NoDup_alt. intros j1 j2 x.
    unfold _createTree. change (map ?f ?l) with (f <$> l).
    rewrite !list_lookup_fmap.
    destruct (next !! j1) as [o1|] eqn:Ho1; [|done].
    destruct (next !! j2) as [o2|] eqn:Ho2; [|done].
    simpl. intros [= <-] [= Heq].
    destruct (Forall2_lookup_r _ _ _ _ _ Hg Ho1) as (g1 & Hg1 & Hrel1 & _ & _ & Hf1 & _).
    destruct (Forall2_lookup_r _ _ _ _ _ Hg Ho2) as (g2 & Hg2 & Hrel2 & _ & _ & Hf2 & _).
    rewrite Hf1, Hf2 in Heq.
    destruct Hrel1 as [(k1 & -> & Hk1 & _)|(a1 & ra1 & Ha1 & _ & Hid1 & _ & _ & _ & _ & _ & Hag1 & _)],
             Hrel2 as [(k2 & -> & Hk2 & _)|(a2 & ra2 & Ha2 & _ & Hid2 & _ & _ & _ & _ & _ & Hag2 & _)].
    + destruct (Hcopy k1 o1 Hk1) as (r1 & Hr1 & Hi1).
      destruct (Hcopy k2 o2 Hk2) as (r2 & Hr2 & Hi2).
      assert (k1 = k2) as ->.
      { apply (proj1 (NoDup_alt _) IH k1 k2 (rid r1)); rewrite list_lookup_fmap.
        - by rewrite Hr1.
        - rewrite Hr2. simpl. congruence. }
      apply (NoDup_concat_index groups j1 j2 [k2] [k2] k2 Hnd Hg1 Hg2);
        apply list_elem_of_singleton; done.
    + exfalso. destruct (Hcopy k1 o1 Hk1) as (r1 & Hr1 & Hi1).
      destruct (Hids k1 r1 Hr1) as [_ Hok].
      apply (idOK_not_new k r1 a2 ltac:(lia) Hok). fold z. congruence.
    + exfalso. destruct (Hcopy k2 o2 Hk2) as (r2 & Hr2 & Hi2).
      destruct (Hids k2 r2 Hr2) as [_ Hok].
      apply (idOK_not_new k r2 a1 ltac:(lia) Hok). fold z. congruence.
    + assert (a1 = a2) as ->.
      { rewrite Hid1, Hid2 in Heq. unfold cidOf in Heq. lia. }
      by apply (NoDup_concat_index groups j1 j2 g1 g2 a2 Hnd Hg1 Hg2).
Qed.

End DistinctIds.

Section ResultIds.
Context {JS : JSNumber} {KD : KDBush} {P : Type}.

(** In a hierarchy built with the zooms 0 .. 30 and at most 2^24 / 33
    points ([Configured]), what [getClusters] returns is told apart by
    its identifiers: they are pairwise distinct, an input point has its
    position in the input, below [N], and a cluster has an identifier
    above [N]. *)
Theorem results_have_distinct_ids
    (st0 st : @PointCluster JS P) pts bbox zoom :
  load st0 pts = Ok st →
  Configured (options st0) (Z.of_nat (length pts)) →
  minZoom (options st0) ≤ maxZoom (options st0) + 1 →
  WithinContract →
  RangeContract →
  ∃ fs,
    getClusters st bbox zoom = Ok fs
    ∧ NoDup (featureId <$> fs)
    ∧ (FUndefined ∉ fs)
    ∧ (∀ idx, FPoint idx ∈ fs → 0 ≤ idx < Z.of_nat (length pts))
    ∧ (∀ c, FCluster c ∈ fs → Z.of_nat (length pts) < cluster_id c).
Proof.
  intros Hload Hcfg Hmm Hw Hr.
  destruct (load_fields st0 st pts Hload) as [Hopt Hpts].
  set (opts := options st0) in *.
  destruct (final_level st0 st pts (_limitZoom opts zoom) Hload)
    as (k & data & Hk & _ & Hdata & Hst).
  { by apply limitZoom_range. }
  pose proof (levelIn_ids opts pts Hcfg Hw k Hk) as Hids.
  pose proof (levelIn_distinct opts pts Hcfg Hw k Hk) as Hdistinct.
  destruct (Hr (coordsOf data) bbox) as [Hnd Hrange].
  set (ids := range (coordsOf data) bbox) in *.
  (* what a position of the result holds *)
  assert (Hat : ∀ id, id ∈ ids →
            ∃ r r0, data !! id = Some r ∧ levelIn opts pts k !! id = Some r0
                    ∧ rid r0 = rid r ∧ rnum r0 = rnum r
                    ∧ idOK opts (Z.of_nat (length pts)) k r0
                    ∧ featureId (project st r) = Some (rid r)).
  { intros id Hid. apply Hrange in Hid as (p & Hp & _).
    unfold coordsOf in Hp. change (map ?f ?l) with (f <$> l) in Hp.
    rewrite list_lookup_fmap in Hp. destruct (data !! id) as [r|] eqn:Hrd; [|done].
    destruct (static_lookup _ _ _ _ Hst Hrd) as (r0 & Hr0 & Hs0).
    apply static_inv in Hs0 as (_ & _ & Hi & Hn).
    destruct (Hids id r0 Hr0) as [_ Hok].
    exists r, r0. split_and!; try done.
    destruct Hok as [[H1 Hrange0]|[H1 _]].
    - rewrite project_point; [done|lia|]. rewrite Hpts. lia.
    - rewrite project_cluster by lia. done. }
  eexists. split_and!.
  - unfold getClusters. rewrite Hopt. fold opts. rewrite Hdata. reflexivity.
  - change (map ?f ?l) with (f <$> l). rewrite <- list_fmap_compose.
    apply NoDup_fmap_2_strong; [|done].
    intros i j Hi Hj. simpl.
    destruct (Hat i Hi) as (ri & r0i & -> & H0i & Hidi & _ & _ & ->).
    destruct (Hat j Hj) as (rj & r0j & -> & H0j & Hidj & _ & _ & ->).
    intros [= Heq].
    apply (proj1 (NoDup_alt _) Hdistinct i j (rid r0i)); rewrite list_lookup_fmap.
    + by rewrite H0i.
    + rewrite H0j. simpl. congruence.
  - change (map ?f ?l) with (f <$> l). intros (id & Hf & Hid)%list_elem_of_fmap.
    destruct (Hat id Hid) as (r & r0 & Hrd & _ & _ & _ & _ & Hfid).
    rewrite Hrd in Hf. by rewrite <- Hf in Hfid.
  - change (map ?f ?l) with (f <$> l). intros idx (id & Hf & Hid)%list_elem_of_fmap.
    destruct (Hat id Hid) as (r & r0 & Hrd & _ & Hi & Hn & Hok & Hfid).
    rewrite Hrd in Hf. rewrite <- Hf in Hfid. injection Hfid as ->.
    unfold project in Hf. destruct (Z.ltb_spec 1 (rnum r)); [done|].
    destruct Hok as [[_ ?]|[? _]]; lia.
  - change (map ?f ?l) with (f <$> l). intros c (id & Hf & Hid)%list_elem_of_fmap.
    destruct (Hat id Hid) as (r & r0 & Hrd & _ & Hi & Hn & Hok & Hfid).
    rewrite Hrd in Hf. rewrite <- Hf in Hfid. injection Hfid as ->.
    unfold project in Hf. destruct (Z.ltb_spec 1 (rnum r));
      [|by destruct (lookupZ (points st) (rid r))].
    destruct Hok as [[? _]|(_ & a & z' & _ & Hz0 & _ & Hrid)]; [lia|].
    rewrite <- Hi, Hrid. unfold cidOf. destruct Hcfg as [Hmin _ _]. fold opts in Hmin. lia.
Qed.

End ResultIds.

(** ** Aggregation and the clustering *)

Section Erasure.

Context {JS : JSNumber} {KD : KDBush} {P C : Type}.
Variable opts : Options.
Variable cb : @WithReduce.Callbacks P C.
Variable pts : list (@Point JS P).
Variable z : Z.

Lemma absorb_Err i id nb e :
  fold_left (WithReduce.absorbStep cb pts z i id) nb (Err e) = Err e.
Proof. induction nb as [|k nb IH]; simpl; [done|apply IH]. Qed.

Lemma clusterStep_Err l e :
  fold_left (WithReduce.clusterStep opts cb pts z) l (Err e) = Err e.
Proof. induction l as [|k l IH]; simpl; [done|apply IH]. Qed.

Lemma lookup_fst (data : list WithReduce.PRec) k :
  data.*1 !! k = fst <$> data !! k.
Proof. apply list_lookup_fmap. Qed.

Lemma insert_fst_snd (data : list WithReduce.PRec) k r p r' :
  data !! k = Some (r, p) →
  (<[k := (r', p)]> data).*1 = <[k := r']> data.*1 ∧ (<[k := (r', p)]> data).*2 = data.*2.
Proof.
  intros Hk. split.
  - by rewrite list_fmap_insert.
  - rewrite list_fmap_insert. simpl. apply list_insert_id.
    rewrite list_lookup_fmap. by rewrite Hk.
Qed.

Lemma absorbStep_erase i id k data wx wy cp cpi cps data' wx' wy' cp' cpi' cps' :
  WithReduce.absorbStep cb pts z i id (Ok (data, wx, wy, cp, cpi, cps)) k
  = Ok (data', wx', wy', cp', cpi', cps') →
  absorbStep z id (data.*1, wx, wy) k = (data'.*1, wx', wy') ∧ data'.*2 = data.*2.
Proof.
  unfold WithReduce.absorbStep, absorbStep. rewrite lookup_fst.
  destruct (data !! k) as [[rk pk]|] eqn:Hk; cbn [fmap option_fmap option_map fst snd].
  2:{ intros [= <- <- <- <- <- <-]. done. }
  destruct (markLe (rzoom rk) z).
  { intros [= <- <- <- <- <- <-]. done. }
  assert (Hd : (<[k := (setParent id (setZoom z rk), pk)]> data).*1
               = <[k := setParent id (setZoom z rk)]> data.*1
             ∧ (<[k := (setParent id (setZoom z rk), pk)]> data).*2 = data.*2).
  { exact (insert_fst_snd data k rk pk _ Hk). }
  destruct Hd as [Hd1 Hd2].
  intros Hstep.
  assert (data' = <[k := (setParent id (setZoom z rk), pk)]> data
          ∧ wx' = nadd wx (nmul (rx rk) (ofZ (rnum rk)))
          ∧ wy' = nadd wy (nmul (ry rk) (ofZ (rnum rk)))) as (-> & -> & ->).
  { repeat case_match; simplify_eq; done. }
  by rewrite Hd1.
Qed.

Lemma absorb_erase i id nb data wx wy cp cpi cps data' wx' wy' cp' cpi' cps' :
  fold_left (WithReduce.absorbStep cb pts z i id) nb (Ok (data, wx, wy, cp, cpi, cps))
  = Ok (data', wx', wy', cp', cpi', cps') →
  fold_left (absorbStep z id) nb (data.*1, wx, wy) = (data'.*1, wx', wy')
  ∧ data'.*2 = data.*2.
Proof.
  revert data wx wy cp cpi cps.
  induction nb as [|k nb IH]; intros data wx wy cp cpi cps; cbn [fold_left].
  - intros [= <- <- <- <- <- <-]. done.
  - destruct (WithReduce.absorbStep cb pts z i id (Ok (data, wx, wy, cp, cpi, cps)) k)
      as [[[[[[d1 wx1] wy1] cp1] cpi1] cps1]|e] eqn:Hs.
    + apply absorbStep_erase in Hs as [Hs1 Hs2]. rewrite Hs1.
      intros Hf. apply IH in Hf as [Hf1 Hf2]. split; [done|congruence].
    + by rewrite absorb_Err.
Qed.

Lemma copy_erase nb (data next : list WithReduce.PRec) :
  let r := fold_left (WithReduce.copyStep z) nb (data, next) in
  fold_left (copyStep z) nb (data.*1, next.*1) = (r.1.*1, r.2.*1)
  ∧ r.1.*2 = data.*2.
Proof.
  revert data next. induction nb as [|k nb IH]; intros data next; cbn [fold_left]; [done|].
  assert (Hs : ∃ d1 n1, WithReduce.copyStep z (data, next) k = (d1, n1)
                        ∧ copyStep z (data.*1, next.*1) k = (d1.*1, n1.*1)
                        ∧ d1.*2 = data.*2).
  { unfold WithReduce.copyStep, copyStep. rewrite lookup_fst.
    destruct (data !! k) as [[rk pk]|] eqn:Hk; cbn [fmap option_fmap option_map fst snd].
    2:{ by eexists _, _. }
    destruct (markLe (rzoom rk) z); [by eexists _, _|].
    eexists _, _. split; [done|].
    destruct (insert_fst_snd data k rk pk (setZoom z rk) Hk) as [-> ->].
    by rewrite fmap_app. }
  destruct Hs as (d1 & n1 & -> & -> & Hp).
  destruct (IH d1 n1) as [IH1 IH2]. cbv zeta. split; [done|congruence].
Qed.

Lemma clusterStep_erase i data next cps data' next' cps' :
  WithReduce.clusterStep opts cb pts z (Ok (data, next, cps)) i = Ok (data', next', cps') →
  clusterStep opts (Z.of_nat (length pts)) z (data.*1, next.*1) i = (data'.*1, next'.*1)
  ∧ data'.*2 = data.*2.
Proof.
  unfold WithReduce.clusterStep, clusterStep. rewrite lookup_fst.
  destruct (data !! i) as [[ri pi]|] eqn:Hi; cbn [fmap option_fmap option_map fst snd].
  2:{ intros [= <- <- <-]. done. }
  destruct (markLe (rzoom ri) z).
  { intros [= <- <- <-]. done. }
  cbv zeta.
  destruct (insert_fst_snd data i ri pi (setZoom z ri) Hi) as [Hd1 Hd2].
  rewrite Hd1.
  set (data1 := <[i := (setZoom z ri, pi)]> data) in *.
  set (nb := within (coordsOf (<[i := setZoom z ri]> data.*1)) _ _ _).
  set (total := fold_left (countStep z (<[i := setZoom z ri]> data.*1)) nb _).
  destruct ((rnum (setZoom z ri) <? total) && (minPoints opts <=? total)).
  - set (id := encodeId (Z.of_nat (length pts)) (Z.of_nat i) z).
    destruct (fold_left (WithReduce.absorbStep cb pts z i id) nb _)
      as [[[[[[d2 wx2] wy2] cp2] cpi2] cps2]|e] eqn:Hf; [|done].
    apply absorb_erase in Hf as [Hf1 Hf2]. rewrite Hd1 in Hf1. rewrite Hf1.
    intros [= <- <- <-]. split.
    + f_equal.
      * apply list_eq. intros k. rewrite list_lookup_fmap.
        destruct (decide (k = i)) as [->|Hne].
        -- rewrite !list_lookup_alter_eq, list_lookup_fmap. by destruct (d2 !! i).
        -- by rewrite !list_lookup_alter_ne, list_lookup_fmap.
      * by rewrite fmap_app.
    + rewrite <- Hd2, <- Hf2. apply list_eq. intros k. rewrite !list_lookup_fmap.
      destruct (decide (k = i)) as [->|Hne].
      * rewrite list_lookup_alter_eq. by destruct (d2 !! i).
      * by rewrite list_lookup_alter_ne.
  - destruct (1 <? total).
    + pose proof (copy_erase nb data1 (next ++ [(setZoom z ri, pi)])) as [Hc1 Hc2].
      cbv zeta in Hc1, Hc2.
      destruct (fold_left (WithReduce.copyStep z) nb _) as [d2 n2].
      intros [= <- <- <-]. rewrite fmap_app, Hd1 in Hc1. split; [exact Hc1|].
      simpl in Hc2. congruence.
    + intros [= <- <- <-]. split; [|done]. by rewrite fmap_app, Hd1.
Qed.

Lemma cluster_erase_prefix l data next cps data' next' cps' :
  fold_left (WithReduce.clusterStep opts cb pts z) l (Ok (data, next, cps))
  = Ok (data', next', cps') →
  fold_left (clusterStep opts (Z.of_nat (length pts)) z) l (data.*1, next.*1)
  = (data'.*1, next'.*1)
  ∧ data'.*2 = data.*2.
Proof.
  revert data next cps. induction l as [|i l IH]; intros data next cps; cbn [fold_left].
  - intros [= <- <- <-]. done.
  - destruct (WithReduce.clusterStep opts cb pts z (Ok (data, next, cps)) i)
      as [[[d1 n1] c1]|e] eqn:Hs.
    + apply clusterStep_erase in Hs as [Hs1 Hs2]. rewrite Hs1.
      intros Hf. apply IH in Hf as [Hf1 Hf2]. split; [done|congruence].
    + by rewrite clusterStep_Err.
Qed.

Lemma cluster_erase data cps data' next' cps' :
  WithReduce._cluster opts cb pts z data cps = Ok (data', next', cps') →
  _cluster opts (Z.of_nat (length pts)) z data.*1 = (data'.*1, next'.*1)
  ∧ data'.*2 = data.*2.
Proof.
  unfold WithReduce._cluster, _cluster. intros Hf.
  apply cluster_erase_prefix in Hf. by rewrite length_fmap.
Qed.

End Erasure.

Section LoadErasure.

Context {JS : JSNumber} {KD : KDBush} {P C : Type}.

Lemma createTree_erase (data : list WithReduce.PRec) :
  (WithReduce._createTree data).*1 = _createTree data.*1.
Proof.
  unfold WithReduce._createTree, _createTree.
  change (map toFloat32 data.*1) with (toFloat32 <$> data.*1).
  rewrite <- !list_fmap_compose. done.
Qed.

Lemma loadLoop_erase (opts : Options) (cb : @WithReduce.Callbacks P C)
    (pts : list (@Point JS P)) n z tree ts cps ts' cps' :
  WithReduce.loadLoop opts cb pts n z tree ts cps = Ok (ts', cps') →
  loadLoop opts (Z.of_nat (length pts)) n z tree.*1
           ((λ data : list WithReduce.PRec, data.*1) <$> ts)
  = (λ data : list WithReduce.PRec, data.*1) <$> ts'.
Proof.
  revert z tree ts cps. induction n as [|n IH]; intros z tree ts cps; simpl.
  - by intros [= <- <-].
  - destruct (WithReduce._cluster opts cb pts z tree cps) as [[[d1 n1] c1]|e] eqn:Hc; [|done].
    apply cluster_erase in Hc as [-> _].
    intros Hl. apply IH in Hl. rewrite <- Hl.
    by rewrite !fmap_insert, createTree_erase.
Qed.

(** A [load] of the instance with [reduce] that returns has built the
    levels the instance without it builds. *)
Lemma load_erase (st st' : @WithReduce.PointCluster JS P C) pts :
  WithReduce.load st pts = Ok st' →
  load (withoutProps st) pts = Ok (withoutProps st').
Proof.
  unfold WithReduce.load, load.
  destruct (WithReduce.loadLoop _ _ _ _ _ _ _ _) as [[ts' cps']|e] eqn:Hl; [|done].
  intros [= <-]. apply loadLoop_erase in Hl.
  unfold withoutProps. cbn [options trees points WithReduce.options WithReduce.trees
                            WithReduce.points].
  assert (Hi : (imap (λ i (p : @Point JS P), (initialRec i p, 0)) pts).*1 = imap initialRec pts).
  { rewrite fmap_imap. by apply imap_ext. }
  rewrite fmap_insert, createTree_erase, Hi in Hl. by rewrite Hl.
Qed.

End LoadErasure.

(** ** The groups a visit adds *)

Section PassGroups.

Context {JS : JSNumber} {KD : KDBush}.
Variable opts : Options.
Variable N : Z.
Variable z : Z.
Hypothesis z_exact : Z.abs z ≤ 2 ^ 24.
Variable data0 : list Rec.
Hypothesis pre : PassPre z data0.
Hypothesis within_ok : WithinContract.

(** The iteration of the outer loop at an unvisited position [i], with
    the groups it adds: one group when a cluster is formed, and one for
    each record copied forward otherwise. *)
Lemma PassInv_visit i (data next : list Rec) groups ri :
  PassInv opts N z data0 i data next groups →
  data !! i = Some ri → markLe (rzoom ri) z = false →
  let nb := within (coordsOf data) (Some (rx ri)) (Some (ry ri)) (clusterRadius opts z) in
  let U := taken z data i nb in
  let total := rnum ri + sumZ (rnumAt data <$> U) in
  NoDup (i :: U)
  ∧ (∀ k, k ∈ i :: U → ∃ r, data !! k = Some r ∧ data0 !! k = Some r
                            ∧ markLe (rzoom r) z = false ∧ 1 ≤ rnum r)
  ∧ ∃ data' next' groups',
      clusterStep opts N z (data, next) i = (data', next')
      ∧ PassInv opts N z data0 (S i) data' next' groups'
      ∧ if (rnum ri <? total) && (minPoints opts <=? total)
        then U ≠ [] ∧ groups' = groups ++ [i :: U] ∧ ∃ o, next' = next ++ [o] ∧ 1 < rnum o
        else groups' = groups ++ ((λ k, [k]) <$> i :: U)
             ∧ next' = next ++ omap (λ k, setZoom z <$> data !! k) (i :: U).
Proof.
  intros Hinv Hri Hm nb U total.
  assert (Hnd : NoDup nb) by apply within_ok.
  destruct (marked_facts opts N z data0 pre i data next groups ri nb Hinv Hri Hm Hnd)
    as (HCnd & HC & HCg).
  fold U in HCnd, HC, HCg. set (C := i :: U) in *.
  split; [done|]. split; [done|].
  destruct (clusterStep_visit opts N z z_exact data next i ri Hri Hm Hnd) as (cx & cy & Hstep).
  { intros k Hk. destruct (HC k) as (r & Hr & _ & _ & ?); [apply elem_of_cons; auto|].
    unfold rnumAt. by rewrite Hr. }
  { destruct (HC i) as (r & Hr & _ & _ & ?); [apply elem_of_cons; auto|]. congruence. }
  fold nb U C total in Hstep.
  set (id := encodeId N (Z.of_nat i) z) in *.
  assert (HiC : i ∈ C) by (apply elem_of_cons; auto).
  assert (HC' : ∀ k, k ∈ C → ∃ r, data !! k = Some r ∧ markLe (rzoom r) z = false).
  { intros k Hk. destruct (HC k Hk) as (r & ? & ? & ? & ?). eauto. }
  assert (Hi0 : data0 !! i = Some ri).
  { destruct (HC i HiC) as (r & Hr & Hr0 & _). congruence. }
  assert (Htot : total = sumZ (rnumAt data0 <$> C)).
  { unfold C. csimpl. unfold total. f_equal.
    - unfold rnumAt. by rewrite Hi0.
    - f_equal. apply list_fmap_ext. intros ? k ?. apply rnumAt_static, Hinv. }
  assert (Hnb0 : nb = within (coordsOf data0) (Some (rx ri)) (Some (ry ri)) (clusterRadius opts z)).
  { unfold nb. f_equal. apply coordsOf_static, Hinv. }
  destruct ((rnum ri <? total) && (minPoints opts <=? total)) eqn:Hcond.
  - set (f := λ r : Rec, setParent id (setZoom z r)) in *.
    destruct (upd_inv opts N z data0 i data next groups C f Hinv HiC HC')
      as (U1 & U2 & U3 & U4 & U5).
    { done. } { intros r. apply (setZoom_visited z z_exact r). }
    set (data' := upd C f data) in *.
    apply andb_true_iff in Hcond as [Hc1 Hc2]. apply Z.ltb_lt in Hc1.
    assert (HU : U ≠ []).
    { intros HU. unfold total in Hc1. rewrite HU in Hc1. csimpl in Hc1. lia. }
    eexists data', _, (groups ++ [C]). split; [exact Hstep|]. split.
    + split; try done.
      * rewrite concat_app. simpl. rewrite app_nil_r. apply NoDup_app. split_and!.
        -- apply Hinv.
        -- intros k Hk HkC. by apply (HCg k).
        -- done.
      * intros k. rewrite concat_app. simpl. rewrite app_nil_r, elem_of_app.
        rewrite U5. by rewrite (inv_mem _ _ _ _ _ _ _ _ Hinv).
      * apply Forall2_app.
        -- eapply Forall2_impl; [apply Hinv|]. intros g' o.
           by apply (GroupRel_step opts N z z_exact data0).
        -- constructor; [|constructor]. right. exists i, ri, U, cx, cy.
           split_and!; try done.
           ++ intros k Hk. rewrite <- Hnb0. by apply list_elem_of_filter in Hk as [_ ?].
           ++ by rewrite Htot.
           ++ intros k Hk. destruct (HC k Hk) as (r & Hr & Hr0 & _). exists r. split; [done|].
              unfold data'. rewrite upd_lookup, Hr. simpl. by rewrite decide_True.
    + split_and!; [done|done|]. eexists. split; [done|]. simpl.
      destruct (HC i HiC) as (r & Hr & _ & _ & ?). assert (r = ri) as -> by congruence. lia.
  - destruct (upd_inv opts N z data0 i data next groups C (setZoom z) Hinv HiC HC')
      as (U1 & U2 & U3 & U4 & U5).
    { done. } { intros r. by apply setZoom_visited. }
    set (data' := upd C (setZoom z) data) in *.
    eexists data', _, (groups ++ ((λ k, [k]) <$> C)). split; [exact Hstep|]. split; [|done].
    split; try done.
    + rewrite concat_app, concat_singletons. apply NoDup_app. split_and!.
      * apply Hinv.
      * intros k Hk HkC. by apply (HCg k).
      * done.
    + intros k. rewrite concat_app, concat_singletons, elem_of_app.
      rewrite U5. by rewrite (inv_mem _ _ _ _ _ _ _ _ Hinv).
    + apply Forall2_app.
      * eapply Forall2_impl; [apply Hinv|]. intros g' o.
        by apply (GroupRel_step opts N z z_exact data0).
      * apply Forall2_singletons. intros k Hk.
        destruct (HC k Hk) as (r & Hr & Hr0 & _).
        exists (setZoom z r). rewrite Hr. split; [done|].
        left. exists k, r. split_and!; try done.
        unfold data'. rewrite upd_lookup, Hr. simpl. by rewrite decide_True.
Qed.

End PassGroups.

(** ** The aggregated properties a pass computes *)

Lemma filter_ext_in {A} (P1 P2 : A → Prop) `{∀ x, Decision (P1 x)} `{∀ x, Decision (P2 x)}
    (l : list A) :
  (∀ x, x ∈ l → P1 x ↔ P2 x) → filter P1 l = filter P2 l.
Proof.
  induction l as [|a l IH]; intros Hl; [done|].
  rewrite !filter_cons. rewrite IH by (intros x Hx; apply Hl, elem_of_cons; auto).
  destruct (Hl a) as [H12 H21]; [apply elem_of_cons; auto|].
  destruct (decide (P1 a)), (decide (P2 a)); tauto || done.
Qed.

Section AggFolds.

Context {JS : JSNumber} {KD : KDBush} {P C : Type}.
Variable cb : @WithReduce.Callbacks P C.
Variable pts : list (@Point JS P).
Variable z : Z.
Variable m : P → C.
Hypothesis map_configured : WithReduce.mapFn cb = Some m.

Lemma lookupZ_app_l {A} (l1 l2 : list A) i x :
  lookupZ l1 i = Some x → lookupZ (l1 ++ l2) i = Some x.
Proof.
  unfold lookupZ. destruct (i <? 0); [done|]. apply lookup_app_l_Some.
Qed.

Lemma valueOf_app cps l (r : WithReduce.PRec) v :
  valueOf m pts cps r = Some v → valueOf m pts (cps ++ l) r = Some v.
Proof.
  unfold valueOf. destruct (1 <? rnum r.1); [|done]. apply lookupZ_app_l.
Qed.

Lemma valueOf_same cps (r r' : WithReduce.PRec) :
  rid r.1 = rid r'.1 → rnum r.1 = rnum r'.1 → r.2 = r'.2 →
  valueOf m pts cps r = valueOf m pts cps r'.
Proof. intros Hid Hn Hp. unfold valueOf. by rewrite Hid, Hn, Hp. Qed.

Lemma valueOf_static cps (r r' : WithReduce.PRec) :
  static r.1 = static r'.1 → r.2 = r'.2 → valueOf m pts cps r = valueOf m pts cps r'.
Proof. intros (_ & _ & Hid & Hn)%static_inv Hp. by apply valueOf_same. Qed.

Lemma map_valueOf cps (r : WithReduce.PRec) v clone :
  valueOf m pts cps r = Some v →
  WithReduce._map cb pts m cps r clone = Ok (Some v).
Proof.
  unfold valueOf, WithReduce._map. destruct (1 <? rnum r.1).
  - intros ->. by destruct clone.
  - destruct (lookupZ pts (rid r.1)); [|done]. by intros [= <-].
Qed.

(** A clone is an object. *)
Lemma map_clone_object cps (r : WithReduce.PRec) :
  WithReduce._map cb pts m cps r true ≠ Ok None.
Proof.
  unfold WithReduce._map. destruct (1 <? rnum r.1); [done|].
  by destruct (lookupZ pts (rid r.1)).
Qed.

Variable cps : list C.

Lemma absorb_values i id (ri : WithReduce.PRec) vi (v : nat → C) nb :
  NoDup nb →
  ∀ data wx wy cp,
    data !! i = Some ri → markLe (rzoom ri.1) z = true →
    valueOf m pts cps ri = Some vi →
    (∀ k rk, k ∈ nb → data !! k = Some rk → markLe (rzoom rk.1) z = false →
             valueOf m pts cps rk = Some (v k)) →
    let cp' := fold_left (λ a k, Some (WithReduce.reduceFn cb (default vi a) (Some (v k))))
                         (filter (λ k, unv z data.*1 k = true) nb) cp in
    ∃ data' wx' wy',
      fold_left (WithReduce.absorbStep cb pts z i id) nb
                (Ok (data, wx, wy, cp, indexOf cps cp, cps ++ option_list cp))
      = Ok (data', wx', wy', cp', indexOf cps cp', cps ++ option_list cp').
Proof.
  induction nb as [|a nb IH]; intros Hnd data wx wy cp Hi Hvis Hvi Hv; cbn zeta.
  { by eexists _, _, _. }
  apply NoDup_cons in Hnd as [Ha Hnd].
  rewrite filter_cons. cbn [fold_left].
  assert (Hunv : unv z data.*1 a = match data !! a with
                                   | Some ra => negb (markLe (rzoom ra.1) z)
                                   | None => false
                                   end).
  { unfold unv. rewrite list_lookup_fmap. destruct (data !! a) as [ra|]; [|done].
    simpl. apply markGt_negb. }
  assert (Hv' : ∀ k rk, k ∈ nb → data !! k = Some rk → markLe (rzoom rk.1) z = false →
                         valueOf m pts cps rk = Some (v k)).
  { intros k rk Hk. apply Hv, elem_of_cons. auto. }
  unfold WithReduce.absorbStep at 2.
  destruct (data !! a) as [[ra pa]|] eqn:Hra.
  2:{ rewrite decide_False by (rewrite Hunv; discriminate). by apply IH. }
  cbn [fst snd] in *.
  destruct (markLe (rzoom ra) z) eqn:Hma.
  { rewrite decide_False by (rewrite Hunv; discriminate). by apply IH. }
  rewrite decide_True by (by rewrite Hunv).
  rewrite map_configured.
  assert (Hai : a ≠ i).
  { intros ->. rewrite Hi in Hra. injection Hra as ->. simpl in Hvis. congruence. }
  set (ra' := (setParent id (setZoom z ra), pa)).
  set (data1 := <[a := ra']> data).
  assert (Hi1 : data1 !! i = Some ri).
  { unfold data1. by rewrite list_lookup_insert_ne. }
  assert (Hva : valueOf m pts cps ra' = Some (v a)).
  { rewrite <- (Hv a (ra, pa)); [|apply elem_of_cons; auto|done|done].
    by apply valueOf_static. }
  set (cp1 := WithReduce.reduceFn cb (default vi cp) (Some (v a))).
  assert (Hstep :
    match
      match cp with
      | Some cp0 => Ok (cp0, indexOf cps cp, cps ++ option_list cp)
      | None =>
          match data1 !! i with
          | Some ri0 =>
              match WithReduce._map cb pts m (cps ++ option_list cp) ri0 true with
              | Ok (Some cp0) =>
                  Ok (cp0, Z.of_nat (length (cps ++ option_list cp)),
                      (cps ++ option_list cp) ++ [cp0])
              | Ok None => Err TypeError
              | Err e => Err e
              end
          | None => Err TypeError
          end
      end
    with
    | Ok (cp0, clusterPropIndex, clusterProps) =>
        match WithReduce._map cb pts m clusterProps ra' false with
        | Ok props =>
            Ok (data1, nadd wx (nmul (rx ra) (ofZ (rnum ra))),
                nadd wy (nmul (ry ra) (ofZ (rnum ra))),
                Some (WithReduce.reduceFn cb cp0 props), clusterPropIndex,
                <[Z.to_nat clusterPropIndex := WithReduce.reduceFn cb cp0 props]> clusterProps)
        | Err e => Err e
        end
    | Err e => Err e
    end
    = Ok (data1, nadd wx (nmul (rx ra) (ofZ (rnum ra))),
          nadd wy (nmul (ry ra) (ofZ (rnum ra))),
          Some cp1, indexOf cps (Some cp1), cps ++ option_list (Some cp1))).
  { assert (Hins : ∀ c, <[Z.to_nat (Z.of_nat (length cps)) := cp1]> (cps ++ [c]) = cps ++ [cp1]).
    { intros c. rewrite Nat2Z.id.
      replace (length cps) with (length cps + 0)%nat at 1 by lia.
      by rewrite insert_app_r. }
    destruct cp as [c|]; simpl.
    - rewrite (map_valueOf _ _ (v a)) by (by apply valueOf_app).
      unfold cp1. simpl. by rewrite Hins.
    - rewrite Hi1, app_nil_r.
      rewrite (map_valueOf _ _ vi) by done.
      rewrite (map_valueOf _ _ (v a)) by (by apply valueOf_app).
      unfold cp1. simpl. by rewrite Hins. }
  fold ra' data1. rewrite Hstep.
  destruct (IH Hnd data1 (nadd wx (nmul (rx ra) (ofZ (rnum ra))))
               (nadd wy (nmul (ry ra) (ofZ (rnum ra)))) (Some cp1) Hi1 Hvis Hvi)
    as (data' & wx' & wy' & Hfold).
  { intros k rk Hk Hrk Hmk. apply (Hv k rk); [apply elem_of_cons; auto| |done].
    unfold data1 in Hrk. rewrite list_lookup_insert_ne in Hrk; [done|]. by intros ->. }
  cbv zeta in Hfold.
  assert (Hfil : filter (λ k, unv z data1.*1 k = true) nb
                 = filter (λ k, unv z data.*1 k = true) nb).
  { apply filter_ext_in. intros k Hk. unfold unv, data1.
    rewrite !list_lookup_fmap, list_lookup_insert_ne; [done|]. by intros ->. }
  rewrite Hfil in Hfold.
  exists data', wx', wy'. exact Hfold.
Qed.

End AggFolds.

Section AggVisit.

Context {JS : JSNumber} {KD : KDBush} {P C : Type}.
Variable opts : Options.
Variable cb : @WithReduce.Callbacks P C.
Variable pts : list (@Point JS P).
Variable z : Z.
Variable m : P → C.
Hypothesis map_configured : WithReduce.mapFn cb = Some m.
Hypothesis z_exact : Z.abs z ≤ 2 ^ 24.

Lemma copy_values nb (data next : list WithReduce.PRec) :
  NoDup nb →
  ∃ data',
    fold_left (WithReduce.copyStep z) nb (data, next)
    = (data', next ++ omap (λ k, if unv z data.*1 k
                                 then (λ rp : WithReduce.PRec, (setZoom z rp.1, rp.2)) <$> data !! k
                                 else None) nb).
Proof.
  revert data next. induction nb as [|a nb IH]; intros data next Hnd.
  - exists data. by rewrite app_nil_r.
  - apply NoDup_cons in Hnd as [Ha Hnd].
    set (g := λ (d : list WithReduce.PRec) k,
                if unv z d.*1 k
                then (λ rp : WithReduce.PRec, (setZoom z rp.1, rp.2)) <$> d !! k else None).
    assert (Hstep : ∃ d1,
      WithReduce.copyStep z (data, next) a = (d1, next ++ option_list (g data a))
      ∧ ∀ k, k ≠ a → d1 !! k = data !! k).
    { unfold g, unv, WithReduce.copyStep. rewrite list_lookup_fmap.
      destruct (data !! a) as [[ra pa]|] eqn:Hra; simpl.
      - rewrite markGt_negb. destruct (markLe (rzoom ra) z); simpl.
        + exists data. by rewrite app_nil_r.
        + eexists. split; [done|]. intros k Hk. by rewrite list_lookup_insert_ne.
      - exists data. by rewrite app_nil_r. }
    destruct Hstep as (d1 & Hs1 & Hd1).
    cbn [fold_left]. rewrite Hs1.
    destruct (IH d1 (next ++ option_list (g data a)) Hnd) as (d2 & ->).
    exists d2. f_equal. rewrite <- app_assoc. f_equal.
    rewrite (omap_cons (g data)). f_equal.
    apply omap_ext_in. intros k Hk. unfold unv.
    rewrite list_lookup_fmap, Hd1 by (by intros ->). by rewrite <- list_lookup_fmap.
Qed.

Lemma fold_reduce_Some (f : C → nat → C) vi U c :
  fold_left (λ (a : option C) k, Some (f (default vi a) k)) U (Some c)
  = Some (fold_left f U c).
Proof. revert c. induction U as [|u U IH]; intros c; simpl; [done|]. apply IH. Qed.

(** The iteration of the outer loop at an unvisited position [i] whose
    record and unvisited neighbours stand for aggregated properties: a
    cluster gets a new entry of [clusterProps], made of the properties of
    the record by [reduce] with those of the neighbours, in their
    order. *)
Lemma agg_visit (data next : list WithReduce.PRec) cps i ri pi vi (v : nat → C) :
  data !! i = Some (ri, pi) → markLe (rzoom ri) z = false →
  let nb := within (coordsOf data.*1) (Some (rx ri)) (Some (ry ri)) (clusterRadius opts z) in
  let U := taken z data.*1 i nb in
  let total := rnum ri + sumZ (rnumAt data.*1 <$> U) in
  NoDup nb →
  (∀ k, k ∈ U → 1 ≤ rnumAt data.*1 k) →
  1 ≤ rnum ri →
  valueOf m pts cps (ri, pi) = Some vi →
  (∀ k rk, k ∈ U → data !! k = Some rk → valueOf m pts cps rk = Some (v k)) →
  ∃ data' next' cps',
    WithReduce.clusterStep opts cb pts z (Ok (data, next, cps)) i = Ok (data', next', cps')
    ∧ if (rnum ri <? total) && (minPoints opts <=? total)
      then U ≠ [] →
           (∃ o, next' = next ++ [(o, Z.of_nat (length cps))])
           ∧ cps' = cps ++ [fold_left (λ a k, WithReduce.reduceFn cb a (Some (v k))) U vi]
      else next' = next ++ omap (λ k, (λ rp : WithReduce.PRec, (setZoom z rp.1, rp.2))
                                        <$> data !! k) (i :: U)
           ∧ cps' = cps.
Proof.
  intros Hi Hm nb U total Hnd HUn Hri Hvi Hv.
  assert (Hi1 : data.*1 !! i = Some ri) by (by rewrite list_lookup_fmap, Hi).
  set (data1 := <[i := (setZoom z ri, pi)]> data).
  destruct (insert_fst_snd data i ri pi (setZoom z ri) Hi) as [Hd1 Hd2].
  fold data1 in Hd1, Hd2.
  assert (Hst1 : static <$> data1.*1 = static <$> data.*1).
  { rewrite Hd1. by apply static_insert with ri. }
  assert (Hcount : fold_left (countStep z data1.*1) nb (rnum ri) = total).
  { rewrite count_fold, Hd1. rewrite (taken_alt z z_exact _ _ _ _ Hi1). fold U.
    unfold total. f_equal. f_equal. apply list_fmap_ext. intros ? k ?.
    rewrite <- Hd1. by apply rnumAt_static. }
  assert (HU1 : filter (λ k, unv z data1.*1 k = true) nb = U).
  { rewrite Hd1. apply (taken_alt z z_exact _ _ _ _ Hi1). }
  assert (Hlk1 : ∀ k, k ≠ i → data1 !! k = data !! k).
  { intros k Hk. unfold data1. by rewrite list_lookup_insert_ne. }
  assert (Hlki : data1 !! i = Some (setZoom z ri, pi)).
  { unfold data1. apply list_lookup_insert_eq. by eapply lookup_lt_Some. }
  assert (HinU : ∀ k, k ∈ U ↔ k ∈ nb ∧ k ≠ i ∧ unv z data.*1 k = true).
  { intros k. unfold U, taken. rewrite list_elem_of_filter. tauto. }
  unfold WithReduce.clusterStep. rewrite Hi. cbn [fst snd]. rewrite Hm. cbv zeta.
  fold data1. rewrite (coordsOf_static _ _ Hst1).
  change (rx (setZoom z ri)) with (rx ri). change (ry (setZoom z ri)) with (ry ri).
  change (rnum (setZoom z ri)) with (rnum ri).
  fold nb. rewrite Hcount.
  destruct ((rnum ri <? total) && (minPoints opts <=? total)) eqn:Hcond.
  - set (id := encodeId (Z.of_nat (length pts)) (Z.of_nat i) z).
    destruct (absorb_values cb pts z m map_configured cps i id (setZoom z ri, pi) vi v nb Hnd
                data1 (nmul (rx ri) (ofZ (rnum ri))) (nmul (ry ri) (ofZ (rnum ri))) None)
      as (d2 & wx & wy & Hfold).
    + done.
    + apply (setZoom_visited z z_exact).
    + rewrite <- Hvi. by apply valueOf_static.
    + intros k rk Hk Hrk Hmk.
      assert (Hki : k ≠ i).
      { intros ->. rewrite Hlki in Hrk. injection Hrk as <-.
        cbn [fst] in Hmk. by rewrite (setZoom_visited z z_exact) in Hmk. }
      rewrite Hlk1 in Hrk by done. apply (Hv k rk); [|done].
      apply HinU. split_and!; [done..|]. unfold unv.
      rewrite list_lookup_fmap, Hrk. simpl. by rewrite markGt_negb, Hmk.
    + cbv zeta in Hfold. rewrite HU1 in Hfold. simpl in Hfold. rewrite app_nil_r in Hfold.
      rewrite Hfold. eexists _, _, _. split; [done|].
      intros HU. destruct U as [|u U'] eqn:HUeq; [done|].
      cbn [fold_left].
      rewrite (fold_reduce_Some (λ a k, WithReduce.reduceFn cb a (Some (v k))) vi U').
      simpl. split; [|done]. by eexists.
  - destruct (1 <? total) eqn:Htot.
    + destruct (copy_values nb data1 (next ++ [(setZoom z ri, pi)]) Hnd) as (d2 & ->).
      eexists _, _, _. split; [done|]. split; [|done].
      rewrite <- app_assoc. f_equal. rewrite (omap_cons _ i U), Hi. simpl. f_equal.
      unfold U, taken. rewrite omap_filter. apply omap_ext_in. intros k Hk.
      unfold unv. rewrite !list_lookup_fmap.
      destruct (decide (k = i)) as [->|Hki].
      * rewrite Hlki, Hi. cbn [fmap option_fmap option_map fst].
        rewrite (markGt_negb (rzoom (setZoom z ri))), (setZoom_visited z z_exact).
        cbn [negb]. rewrite decide_False; [done|]. by intros [? _].
      * rewrite Hlk1 by done. destruct (data !! k) as [[r p]|] eqn:Hr; simpl.
        -- destruct (markGt (rzoom r) z) eqn:Hg.
           ++ by rewrite decide_True.
           ++ rewrite decide_False; [done|]. intros [_ ?]. congruence.
        -- rewrite decide_False; [done|]. by intros [_ ?].
    + eexists _, _, _. split; [done|]. split; [|done]. f_equal.
      rewrite (omap_cons _ i U), Hi. simpl. f_equal.
      destruct U as [|u U'] eqn:HUeq; [done|]. exfalso.
      assert (0 < sumZ (rnumAt data.*1 <$> (u :: U'))).
      { apply sumZ_pos_nonempty; [|done].
        apply Forall_fmap, Forall_forall. intros k Hk. by apply HUn. }
      apply Z.ltb_ge in Htot. unfold total in Htot. lia.
Qed.

End AggVisit.

(** ** The invariant of the pass with aggregation *)

Lemma pair_lookup {A B} (l : list (A * B)) k a b :
  l.*1 !! k = Some a → l.*2 !! k = Some b → l !! k = Some (a, b).
Proof.
  rewrite !list_lookup_fmap. destruct (l !! k) as [[a' b']|]; [|done].
  simpl. by intros [= ->] [= ->].
Qed.

Lemma Forall2_singletons_gen {B} (Q : list nat → B → Prop) (f : nat → option B) C :
  (∀ k, k ∈ C → ∃ o, f k = Some o ∧ Q [k] o) →
  Forall2 Q ((λ k, [k]) <$> C) (omap f C).
Proof.
  induction C as [|c C IH]; intros HC; [constructor|].
  destruct (HC c) as (o & Ho & HQ); [apply elem_of_cons; auto|].
  rewrite omap_cons, Ho. csimpl. constructor; [done|].
  apply IH. intros k Hk. apply HC, elem_of_cons. auto.
Qed.

Section AggPass.

Context {JS : JSNumber} {KD : KDBush} {P C : Type}.
Variable opts : Options.
Variable cb : @WithReduce.Callbacks P C.
Variable pts : list (@Point JS P).
Variable z : Z.
Variable m : P → C.
Variable μ : C → Z.
Hypothesis map_configured : WithReduce.mapFn cb = Some m.
Hypothesis additive : ∀ a b, μ (WithReduce.reduceFn cb a (Some b)) = μ a + μ b.
Hypothesis z_exact : Z.abs z ≤ 2 ^ 24.
Hypothesis within_ok : WithinContract.

Variable data0 : list WithReduce.PRec.
Variable cps0 : list C.
Hypothesis pre : PassPre z data0.*1.
Hypothesis level : AggLevel m pts cps0 data0.

Local Abbreviation N := (Z.of_nat (length pts)).

Lemma fold_measure (v : nat → C) U vi :
  μ (fold_left (λ a k, WithReduce.reduceFn cb a (Some (v k))) U vi)
  = μ vi + sumZ ((λ k, μ (v k)) <$> U).
Proof.
  revert vi. induction U as [|u U IH]; intros vi; csimpl; [lia|].
  rewrite IH, additive. lia.
Qed.

Lemma AggRel_mono cps l g o :
  AggRel m pts μ cps0 data0 cps g o → AggRel m pts μ cps0 data0 (cps ++ l) g o.
Proof.
  intros (Hp & V & HV & Hsum). split.
  - rewrite length_app. lia.
  - exists V. split; [|done]. by apply valueOf_app.
Qed.

Lemma AggInv_init : AggInv m pts μ opts N z data0 cps0 0 data0 [] cps0 [].
Proof.
  split; try done; [by apply PassInv_init|simpl; lia].
Qed.

Lemma AggInv_step i data next cps groups :
  AggInv m pts μ opts N z data0 cps0 i data next cps groups →
  (i < length data0)%nat →
  ∃ data' next' cps' groups',
    WithReduce.clusterStep opts cb pts z (Ok (data, next, cps)) i = Ok (data', next', cps')
    ∧ AggInv m pts μ opts N z data0 cps0 (S i) data' next' cps' groups'.
Proof.
  intros [Hinv Hprops [l Hl] Hlen Hgroups] Hi.
  assert (Hlen1 : length data = length data0).
  { apply (f_equal length) in Hprops. by rewrite !length_fmap in Hprops. }
  destruct (lookup_lt_is_Some_2 data i) as [[ri pi] Hri]; [lia|].
  assert (Hri1 : data.*1 !! i = Some ri) by (by rewrite list_lookup_fmap, Hri).
  destruct (markLe (rzoom ri) z) eqn:Hm.
  { exists data, next, cps, groups. split.
    - unfold WithReduce.clusterStep. rewrite Hri. cbn [fst]. by rewrite Hm.
    - split; try done; [|by exists l].
      destruct Hinv as [I1 I2 I3 I4 I5 I6]. split; try done.
      intros k r Hk Hr. destruct (decide (k = i)) as [->|?]; [congruence|].
      apply (I3 k); [lia|done]. }
  destruct (PassInv_visit opts N z z_exact data0.*1 pre within_ok i data.*1 next.*1 groups ri
              Hinv Hri1 Hm) as (HCnd & HC & d' & n' & groups' & Hstep & Hinv' & Hshape).
  set (nb := within (coordsOf data.*1) (Some (rx ri)) (Some (ry ri)) (clusterRadius opts z)) in *.
  set (U := taken z data.*1 i nb) in *.
  set (total := rnum ri + sumZ (rnumAt data.*1 <$> U)) in *.
  assert (HCp : ∀ k, k ∈ i :: U → ∃ rp, data !! k = Some rp ∧ data0 !! k = Some rp).
  { intros k Hk. destruct (HC k Hk) as (r & Hr & Hr0 & _ & _).
    destruct (data.*2 !! k) as [p|] eqn:Hp.
    - exists (r, p). split; [by apply pair_lookup|].
      apply pair_lookup; [done|]. by rewrite <- Hprops.
    - rewrite list_lookup_fmap in Hp. rewrite list_lookup_fmap in Hr.
      by destruct (data !! k). }
  assert (Hval : ∀ k rp, data0 !! k = Some rp →
                         ∃ V, valueOf m pts cps0 rp = Some V
                              ∧ valueOf m pts cps rp = Some V
                              ∧ measureAt m pts μ cps0 data0 k = μ V).
  { intros k rp Hk. destruct (level k rp Hk) as [_ [V HV]]. exists V. split_and!; [done| |].
    - rewrite Hl. by apply valueOf_app.
    - unfold measureAt. rewrite Hk. simpl. by rewrite HV. }
  destruct (HCp i) as (rpi & Hrpi & Hri0); [apply elem_of_cons; auto|].
  rewrite Hri in Hrpi. injection Hrpi as <-.
  destruct (Hval i _ Hri0) as (vi & Hvi0 & Hvi & Hmi).
  set (v := λ k, default vi (data0 !! k ≫= valueOf m pts cps0)).
  assert (Hv : ∀ k rk, k ∈ U → data !! k = Some rk → valueOf m pts cps rk = Some (v k)).
  { intros k rk Hk Hrk. destruct (HCp k) as (rp & Hrp & Hrp0); [apply elem_of_cons; auto|].
    assert (rp = rk) as -> by congruence.
    destruct (Hval k rk Hrp0) as (V & HV0 & HV & _). rewrite HV. f_equal.
    unfold v. rewrite Hrp0. simpl. by rewrite HV0. }
  destruct (agg_visit opts cb pts z m map_configured z_exact data next cps i ri pi vi v Hri Hm)
    as (data' & next' & cps' & Hagg & Hashape); [apply within_ok| | |done|done|].
  { intros k Hk. destruct (HC k) as (r & Hr & _ & _ & ?); [apply elem_of_cons; auto|].
    unfold rnumAt. by rewrite Hr. }
  { destruct (HC i) as (r & Hr & _ & _ & ?); [apply elem_of_cons; auto|]. congruence. }
  fold nb U total in Hashape.
  destruct (clusterStep_erase opts cb pts z i data next cps data' next' cps' Hagg) as [Her Hp'].
  rewrite Hstep in Her. injection Her as -> ->.
  exists data', next', cps', groups'. split; [done|].
  destruct ((rnum ri <? total) && (minPoints opts <=? total)).
  - destruct Hshape as (HU & -> & o & Hn' & Hcount).
    destruct (Hashape HU) as [[o' ->] ->].
    rewrite fmap_app in Hn'. apply app_inv_head in Hn'. simpl in Hn'. injection Hn' as <-.
    split.
    + done.
    + congruence.
    + exists (l ++ [fold_left (λ a k, WithReduce.reduceFn cb a (Some (v k))) U vi]).
      by rewrite Hl, app_assoc.
    + rewrite !length_app. simpl. lia.
    + apply Forall2_app.
      * eapply Forall2_impl; [exact Hgroups|]. intros g op. apply AggRel_mono.
      * constructor; [|constructor]. split.
        -- simpl. rewrite length_app. simpl. lia.
        -- eexists. split.
           ++ unfold valueOf. cbn [fst snd].
              destruct (Z.ltb_spec 1 (rnum o')); [|lia].
              unfold lookupZ. destruct (Z.ltb_spec (Z.of_nat (length cps)) 0); [lia|].
              rewrite Nat2Z.id. apply list_lookup_middle. done.
           ++ rewrite fold_measure. csimpl. rewrite Hmi. f_equal. f_equal.
              apply list_fmap_ext. intros ? k Hk%list_elem_of_lookup_2.
              destruct (HCp k) as (rp & Hrp & Hrp0); [apply elem_of_cons; auto|].
              destruct (Hval k rp Hrp0) as (V & HV0 & _ & ->).
              unfold v. rewrite Hrp0. simpl. by rewrite HV0.
  - destruct Hshape as (-> & Hn'). destruct Hashape as [-> ->].
    split.
    + done.
    + congruence.
    + by exists l.
    + rewrite length_app. lia.
    + apply Forall2_app; [done|].
      apply Forall2_singletons_gen. intros k Hk.
      destruct (HCp k Hk) as ([r p] & Hrp & Hrp0).
      rewrite Hrp. eexists. split; [done|].
      destruct (Hval k _ Hrp0) as (V & HV0 & HV & HmV).
      destruct (level k _ Hrp0) as [Hpb _]. split.
      * simpl in *. rewrite Hl, length_app. lia.
      * exists V. split.
        -- rewrite <- HV. by apply valueOf_static.
        -- csimpl. rewrite HmV. lia.
Qed.

Lemma agg_cluster_prefix i :
  (i ≤ length data0)%nat →
  ∃ data next cps groups,
    fold_left (WithReduce.clusterStep opts cb pts z) (seq 0 i) (Ok (data0, [], cps0))
    = Ok (data, next, cps)
    ∧ AggInv m pts μ opts N z data0 cps0 i data next cps groups.
Proof.
  induction i as [|i IH]; intros Hi.
  - exists data0, [], cps0, []. split; [done|]. apply AggInv_init.
  - destruct IH as (data & next & cps & groups & Hfold & Hinv); [lia|].
    destruct (AggInv_step i data next cps groups Hinv)
      as (data' & next' & cps' & groups' & Hstep & Hinv'); [lia|].
    exists data', next', cps', groups'. split; [|done].
    by rewrite seq_S, fold_left_app, Hfold.
Qed.

(** The pass with aggregation returns, and what it leaves behind: the
    groups partition the level, and every record written stands for the
    aggregated properties of its group. *)
Lemma agg_cluster_post :
  ∃ data' next' cps' groups,
    WithReduce._cluster opts cb pts z data0 cps0 = Ok (data', next', cps')
    ∧ data'.*2 = data0.*2
    ∧ cps0 `prefix_of` cps'
    ∧ (length cps' ≤ length cps0 + length next')%nat
    ∧ static <$> data'.*1 = static <$> data0.*1
    ∧ concat groups ≡ₚ seq 0 (length data0)
    ∧ Forall2 (GroupRel opts N z data0.*1 data'.*1) groups next'.*1
    ∧ Forall2 (AggRel m pts μ cps0 data0 cps') groups next'.
Proof.
  destruct (agg_cluster_prefix (length data0))
    as (data & next & cps & groups & Hfold & [Hinv Hprops Hpre Hlen Hgroups]); [lia|].
  exists data, next, cps, groups. split_and!; try done; try apply Hinv.
  apply NoDup_Permutation; [apply Hinv|apply NoDup_seq|].
  intros k. rewrite (inv_mem _ _ _ _ _ _ _ _ Hinv), elem_of_seq.
  assert (Hl : length data.*1 = length data0).
  { apply (f_equal length) in Hprops. by rewrite !length_fmap in *. }
  split.
  - intros (r & Hr & _). apply lookup_lt_Some in Hr. lia.
  - intros [_ Hk]. destruct (lookup_lt_is_Some_2 data.*1 k) as [r Hr]; [lia|].
    exists r. split; [done|]. by apply (inv_done _ _ _ _ _ _ _ _ Hinv k).
Qed.

End AggPass.

(** ** The leaves of the group of a record *)

Section GroupLeaves.

Context {JS : JSNumber} {KD : KDBush} {P : Type}.
Variables (st0 st : @PointCluster JS P) (pts : list (@Point JS P)).
Hypothesis Hload : load st0 pts = Ok st.
Local Abbreviation opts := (options st0).
Local Abbreviation N := (Z.of_nat (length pts)).
Hypothesis cfg : Configured opts N.
Hypothesis within_ok : WithinContract.
Hypothesis within_self : WithinSelf opts.

(** The leaves of a record that pass [k] writes are those of the records
    of its group, whose leaves are [Lk]. *)
Lemma group_leaves k (Lk : nat → list Z) g o :
  (k < passes opts)%nat →
  let z := maxZoom opts - Z.of_nat k in
  let data0 := levelIn opts pts k in
  let data' := (_cluster opts N z data0).1 in
  (∀ i r0, data0 !! i = Some r0 →
           hasLeaves st k (project st r0) (Lk i) ∧ Z.of_nat (length (Lk i)) = rnum r0) →
  GroupIds opts N z data0 data' g o →
  f32 (rid o) = rid o → f32 (rnum o) = rnum o →
  ∃ L, (hasLeaves st (S k) (project st (toFloat32 o)) L
        ∧ Z.of_nat (length L) = rnum (toFloat32 o))
       ∧ L ≡ₚ concat (Lk <$> g).
Proof.
  intros Hk z data0 data' HLk Hgo Hfi Hfn.
  destruct (load_fields st0 st pts Hload) as [Hopt Hpts].
  pose proof (Configured_Exact opts pts cfg) as Hex.
  pose proof (levelIn_inv opts pts Hex within_ok k ltac:(lia)) as Hlvl.
  pose proof (built_tree st0 st pts Hload k Hk) as Htree.
  pose proof (cluster_static opts N z data0) as Hst.
  fold z data0 in Hlvl, Htree. fold data' in Htree, Hst.
  pose proof cfg as [Hmin Hmax HN].
  assert (Hz : 0 ≤ z ≤ 30) by (unfold z, passes in *; lia).
  assert (Hzr : minZoom opts ≤ z ≤ maxZoom opts) by (unfold z, passes in *; lia).
  assert (Hn26 : Z.of_nat (length data0) < 2 ^ 26).
  { pose proof (LevelInv_length opts pts k data0 Hlvl). lia. }
  assert (HLk' : ∀ i r', data' !! i = Some r' →
            hasLeaves st k (project st r') (Lk i) ∧ Z.of_nat (length (Lk i)) = rnum r').
  { intros i r' Hr'. destruct (static_lookup _ _ _ _ Hst Hr') as (r0 & Hr0 & Hs0).
    destruct (HLk i r0 Hr0) as [? ?].
    rewrite <- (project_static st r0 r' Hs0).
    apply static_inv in Hs0 as (_ & _ & _ & <-). done. }
  assert (Hlen' : length data' = length data0) by (by apply static_length).
  destruct Hgo as [(k0 & -> & Hk0 & Hzo & Hp)
                  |(a & ra0 & Ha0 & Hzo & Hid & Hp & Hn & Hn1 & Hgnd & Hgeq & Hag & Hlen & Hnb)].
  - (* a record copied forward *)
    destruct (HLk' k0 o Hk0) as [Hl Hlen].
    exists (Lk k0). split_and!.
    + apply hasLeaves_S. eapply hasLeaves_same; [|exact Hl].
      apply project_same; simpl; by rewrite ?Hfi, ?Hfn.
    + simpl. by rewrite Hfn.
    + csimpl. by rewrite app_nil_r.
  - (* a cluster *)
    assert (Hal : (a < length data0)%nat) by (by eapply lookup_lt_Some).
    destruct (lookup_lt_is_Some_2 data' a) as [ra Hra]; [lia|].
    assert (Hcoord : rx ra0 = rx ra ∧ ry ra0 = ry ra).
    { destruct (static_lookup _ _ _ _ Hst Hra) as (r0 & Hr0 & Hs0).
      rewrite Ha0 in Hr0. injection Hr0 as <-.
      by apply static_inv in Hs0 as (-> & -> & _). }
    destruct Hcoord as [Hcx Hcy]. rewrite Hcx, Hcy in Hnb.
    set (id := cidOf N z a) in *.
    set (nb := within (coordsOf data0) (Some (rx ra)) (Some (ry ra)) (clusterRadius opts z)) in *.
    set (ch := filter (λ i, parentIs data' id i = true) nb).
    assert (Hanb : a ∈ nb).
    { apply within_self; [done| |].
      - unfold coordsOf. change (map ?f ?l) with (f <$> l).
        by rewrite list_lookup_fmap, Ha0, <- Hcx, <- Hcy.
      - fold nb. destruct g as [|g1 [|g2 g']]; simpl in Hlen; try lia.
        apply NoDup_cons in Hgnd as [Hg1 _].
        assert (g1 ≠ g2) by (intros ->; apply Hg1, elem_of_cons; auto).
        destruct (decide (g1 = a)) as [->|Hne].
        + destruct (Hnb g2) as [?|Hin]; [apply elem_of_cons; right; apply elem_of_cons; auto|done|].
          intros Hnil. rewrite Hnil in Hin. by apply elem_of_nil in Hin.
        + destruct (Hnb g1) as [?|Hin]; [apply elem_of_cons; auto|done|].
          intros Hnil. rewrite Hnil in Hin. by apply elem_of_nil in Hin. }
    assert (Hchg : ch ≡ₚ g).
    { apply NoDup_Permutation; [apply NoDup_filter, within_ok|done|].
      intros i. unfold ch. rewrite list_elem_of_filter, Hgeq. split.
      - by intros [Hpi _].
      - intros Hpi. split; [done|].
        destruct (Hnb i) as [->|?]; [by apply Hgeq|done..]. }
    assert (Hget : getChildren st id
              = match omap (λ i, project st <$> data' !! i) ch with
                | [] => Err NoCluster
                | cs => Ok cs
                end).
    { pose proof (getChildren_built st z a data' ra Hz ltac:(lia)
                    ltac:(by replace (z + 1) with (maxZoom opts - Z.of_nat k + 1)
                            by (unfold z; lia)) Hra) as Hgc.
      cbv zeta in Hgc. rewrite Hpts, Hopt in Hgc.
      rewrite (coordsOf_static _ _ Hst) in Hgc. exact Hgc. }
    assert (Hall : Forall2 (hasLeaves st k) (omap (λ i, project st <$> data' !! i) ch) (Lk <$> ch)).
    { apply Forall2_children. intros i Hi.
      assert (Hil : (i < length data')%nat).
      { apply list_elem_of_filter in Hi as [_ Hi]. apply within_ok in Hi.
        unfold coordsOf in Hi. rewrite length_map in Hi. lia. }
      destruct (lookup_lt_is_Some_2 data' i Hil) as [r' Hr'].
      exists r'. split; [done|]. by apply HLk'. }
    assert (Hcsl : length (omap (λ i, project st <$> data' !! i) ch) = length g).
    { rewrite (Forall2_length _ _ _ Hall), length_fmap. by rewrite Hchg. }
    exists (concat (Lk <$> ch)).
    assert (Hcount : Z.of_nat (length (concat (Lk <$> ch))) = rnum o).
    { rewrite length_concat_fmap, Hn, <- Hchg. f_equal.
      apply list_fmap_ext. intros ? i Hi%list_elem_of_lookup_2.
      assert (Hil : (i < length data0)%nat).
      { apply list_elem_of_filter in Hi as [_ Hi]. apply within_ok in Hi.
        unfold coordsOf in Hi. rewrite length_map in Hi. lia. }
      destruct (lookup_lt_is_Some_2 data0 i Hil) as [r0 Hr0].
      destruct (HLk i r0 Hr0) as [_ ->]. unfold rnumAt. by rewrite Hr0. }
    split_and!.
    + rewrite project_cluster by (simpl; rewrite Hfn; lia).
      apply hasLeaves_cluster. simpl. rewrite Hfi, Hid, Hfn.
      destruct (omap (λ i, project st <$> data' !! i) ch) as [|c1 cs1] eqn:Hcs.
      { simpl in Hcsl. lia. }
      exists (c1 :: cs1), (Lk <$> ch). split_and!; [done|lia|done|done|by rewrite Hcount].
    + simpl. by rewrite Hfn.
    + by rewrite Hchg.
Qed.

End GroupLeaves.

(** ** The levels of the hierarchy with aggregation *)

Section AggLevels.

Context {JS : JSNumber} {KD : KDBush} {P C : Type}.
Variables (st0 st : @PointCluster JS P) (pts : list (@Point JS P)).
Hypothesis Hload : load st0 pts = Ok st.
Local Abbreviation opts := (options st0).
Local Abbreviation N := (Z.of_nat (length pts)).
Hypothesis cfg : Configured opts N.
Hypothesis within_ok : WithinContract.
Hypothesis within_self : WithinSelf opts.

Variable cb : @WithReduce.Callbacks P C.
Variable m : P → C.
Variable μ : C → Z.
Hypothesis map_configured : WithReduce.mapFn cb = Some m.
Hypothesis additive : ∀ a b, μ (WithReduce.reduceFn cb a (Some b)) = μ a + μ b.

Lemma AggLeaves_level d cps lvl : AggLeaves m pts μ st d cps lvl → AggLevel m pts cps lvl.
Proof.
  intros (Ls & HLs) j rp Hrp.
  destruct (Forall2_lookup_l _ _ _ _ _ HLs Hrp) as (L & _ & _ & _ & Hp & V & HV & _).
  split; [done|]. by exists V.
Qed.

Lemma AggStored_mono cps l data :
  AggStored m pts μ st cps data → AggStored m pts μ st (cps ++ l) data.
Proof.
  intros Hs j r p Hj Hn. destruct (Hs j r p Hj Hn) as (V & L & d & Hd & HV & HL & Hsum).
  exists V, L, d. split_and!; try done. by apply lookupZ_app_l.
Qed.

(** A level with its leaves is stored well, and so is the buffer a pass
    has written to. *)
Lemma AggLeaves_stored d cps lvl (data : list WithReduce.PRec) :
  (d ≤ passes opts)%nat →
  AggLeaves m pts μ st d cps lvl →
  static <$> data.*1 = static <$> lvl.*1 → data.*2 = lvl.*2 →
  AggStored m pts μ st cps data.
Proof.
  intros Hd (Ls & HLs) Hst Hp j r p Hj Hn.
  destruct (load_fields st0 st pts Hload) as [Hopt _].
  assert (Hj1 : data.*1 !! j = Some r) by (by rewrite list_lookup_fmap, Hj).
  assert (Hj2 : data.*2 !! j = Some p) by (by rewrite list_lookup_fmap, Hj).
  destruct (static_lookup _ _ _ _ Hst Hj1) as (r0 & Hr0 & Hs0).
  rewrite Hp in Hj2.
  pose proof (pair_lookup lvl j r0 p Hr0 Hj2) as Hl.
  destruct (Forall2_lookup_l _ _ _ _ _ HLs Hl) as (L & _ & HL & _ & _ & V & HV & Hsum).
  cbn [fst snd] in *.
  destruct (static_inv _ _ Hs0) as (_ & _ & Hid & Hnum).
  exists V, L, d. rewrite Hopt. split_and!; try done.
  - unfold valueOf in HV. cbn [fst snd] in HV.
    destruct (Z.ltb_spec 1 (rnum r0)); [done|lia].
  - rewrite <- (project_cluster st r) by done.
    by rewrite <- (project_static st r0 r Hs0).
Qed.

Lemma AggLeaves_0 cps :
  AggLeaves m pts μ st 0 cps
            (WithReduce._createTree (imap (λ i (p : @Point JS P), (initialRec i p, 0)) pts)).
Proof.
  destruct (load_fields st0 st pts Hload) as [Hopt Hpts].
  pose proof (Configured_Exact opts pts cfg) as Hex.
  set (tree := WithReduce._createTree _).
  assert (Ht : tree.*1 = levelIn opts pts 0).
  { unfold tree. rewrite createTree_erase. cbn [levelIn]. f_equal.
    rewrite fmap_imap. by apply imap_ext. }
  assert (Hp : ∀ j rp, tree !! j = Some rp → rp.2 = 0).
  { intros j rp. unfold tree, WithReduce._createTree.
    rewrite list_lookup_fmap, list_lookup_imap.
    destruct (pts !! j); [|done]. simpl. by intros [= <-]. }
  exists ((λ j, [Z.of_nat j]) <$> seq 0 (length pts)).
  apply Forall2_same_length_lookup_2.
  - rewrite length_fmap, length_seq.
    rewrite <- (length_fmap fst tree), Ht. apply levelIn_0_length.
  - intros j rp L Hrp. rewrite list_lookup_fmap. intros HL.
    destruct (seq 0 (length pts) !! j) as [j'|] eqn:Hj; [|done].
    apply lookup_seq in Hj as [-> Hj]. simpl in HL. injection HL as <-.
    assert (Hr : levelIn opts pts 0 !! j = Some rp.1).
    { rewrite <- Ht. by rewrite list_lookup_fmap, Hrp. }
    destruct (levelIn_0_rec opts pts Hex j rp.1 Hr) as (_ & _ & Hid & _ & Hn).
    rewrite (Hp j rp Hrp).
    destruct (lookup_lt_is_Some_2 pts j Hj) as [pj Hpj].
    assert (Hlz : lookupZ pts (Z.of_nat j) = Some pj).
    { unfold lookupZ. destruct (Z.ltb_spec (Z.of_nat j) 0); [lia|]. by rewrite Nat2Z.id. }
    split; [|split; [|split]].
    + rewrite project_point; [by rewrite Hid| done |]. rewrite Hid, Hpts. lia.
    + simpl. by rewrite Hn.
    + lia.
    + exists (m (properties pj)). split.
      * unfold valueOf. rewrite Hn, Hid. simpl. by rewrite Hlz.
      * unfold pointMeasure, mapped. csimpl. rewrite Hlz. simpl. lia.
Qed.

Lemma sumZ_concat (f : Z → Z) (ls : list (list Z)) :
  sumZ (f <$> concat ls) = sumZ ((λ l, sumZ (f <$> l)) <$> ls).
Proof.
  induction ls as [|l ls IH]; csimpl; [done|]. by rewrite fmap_app, sumZ_app, IH.
Qed.

(** One pass with aggregation, on a level with its leaves. *)
Lemma agg_level_step k (tree : list WithReduce.PRec) cps :
  (k < passes opts)%nat →
  tree.*1 = levelIn opts pts k →
  AggLeaves m pts μ st k cps tree →
  Z.of_nat (length cps) + N ≤ 2 ^ 24 →
  ∃ data' next' cps',
    WithReduce._cluster opts cb pts (maxZoom opts - Z.of_nat k) tree cps
    = Ok (data', next', cps')
    ∧ data'.*2 = tree.*2
    ∧ static <$> data'.*1 = static <$> tree.*1
    ∧ cps `prefix_of` cps'
    ∧ Z.of_nat (length cps') ≤ Z.of_nat (length cps) + N
    ∧ (WithReduce._createTree next').*1 = levelIn opts pts (S k)
    ∧ AggLeaves m pts μ st (S k) cps' (WithReduce._createTree next').
Proof.
  intros Hk Ht Hleaves Hbound.
  pose proof (Configured_Exact opts pts cfg) as Hex.
  pose proof (levelIn_inv opts pts Hex within_ok k ltac:(lia)) as Hlvl.
  pose proof (levelIn_inv opts pts Hex within_ok (S k) ltac:(lia)) as HlvlS.
  pose proof (levelIn_ids opts pts cfg within_ok k ltac:(lia)) as Hids.
  pose proof (level_IdsExact opts pts cfg within_ok k Hk Hids) as Hidx.
  pose proof (LevelInv_PassPre opts pts k _ Hlvl) as Hpre.
  pose proof (pass_exact opts pts Hex k Hk) as Hz.
  pose proof (level_groups opts pts cfg within_ok k Hk Hids) as Hfacts.
  cbv zeta in Hfacts.
  set (z := maxZoom opts - Z.of_nat k) in *.
  rewrite <- Ht in Hpre.
  destruct (agg_cluster_post opts cb pts z m μ map_configured additive Hz within_ok tree cps
              Hpre (AggLeaves_level _ _ _ Hleaves))
    as (data' & next' & cps' & groups & Hc & Hprops & Hprefix & Hlen & Hst & Hperm & Hrel & Hagg).
  destruct (cluster_erase opts cb pts z tree cps data' next' cps' Hc) as [Her _].
  rewrite Ht in Her, Hst, Hrel.
  rewrite Her in Hfacts. cbn [fst snd] in Hfacts.
  destruct Hfacts as (groups0 & _ & _ & Hfacts).
  assert (Hlt : length tree = length (levelIn opts pts k)).
  { by rewrite <- Ht, length_fmap. }
  rewrite Hlt in Hperm.
  pose proof (post_ids opts N z (levelIn opts pts k) data'.*1 Hz
                (LevelInv_PassPre opts pts k _ Hlvl) Hidx groups next'.*1 Hst Hperm Hrel) as Hgi.
  assert (HtS : (WithReduce._createTree next').*1 = levelIn opts pts (S k)).
  { rewrite createTree_erase. cbn [levelIn]. fold z. by rewrite Her. }
  assert (Hnl : Z.of_nat (length next') ≤ N).
  { pose proof (LevelInv_length opts pts (S k) _ HlvlS) as Hl.
    rewrite <- HtS, length_fmap in Hl. unfold WithReduce._createTree in Hl.
    by rewrite length_fmap in Hl. }
  exists data', next', cps'. split_and!; try done.
  { by rewrite Ht. }
  { lia. }
  destruct Hleaves as (Ls & HLs).
  set (Lk := λ i : nat, Ls !!! i).
  assert (HLk : ∀ i r0, levelIn opts pts k !! i = Some r0 →
            hasLeaves st k (project st r0) (Lk i) ∧ Z.of_nat (length (Lk i)) = rnum r0).
  { intros i r0 Hr0. rewrite <- Ht, list_lookup_fmap in Hr0.
    destruct (tree !! i) as [rp|] eqn:Hrp; [|done]. simpl in Hr0. injection Hr0 as <-.
    destruct (Forall2_lookup_l _ _ _ _ _ HLs Hrp) as (L & HL & H1 & H2 & _).
    unfold Lk. by rewrite (list_lookup_total_correct _ _ _ HL). }
  assert (HmLk : ∀ i, measureAt m pts μ cps tree i = sumZ (pointMeasure m pts μ <$> Lk i)).
  { intros i. unfold measureAt, Lk.
    destruct (tree !! i) as [rp|] eqn:Hrp.
    - destruct (Forall2_lookup_l _ _ _ _ _ HLs Hrp) as (L & HL & _ & _ & _ & V & HV & Hsum).
      rewrite (list_lookup_total_correct _ _ _ HL). simpl. by rewrite HV.
    - simpl. rewrite list_lookup_total_alt.
      assert (Ls !! i = None) as ->; [|done].
      apply lookup_ge_None. rewrite <- (Forall2_length _ _ _ HLs).
      by apply lookup_ge_None. }
  assert (HQ : Forall2 (λ g (o : WithReduce.PRec),
                  GroupIds opts N z (levelIn opts pts k) data'.*1 g o.1
                  ∧ f32 (rid o.1) = rid o.1 ∧ f32 (rnum o.1) = rnum o.1
                  ∧ AggRel m pts μ cps tree cps' g o) groups next').
  { apply Forall2_same_length_lookup_2; [by eapply Forall2_length|].
    intros j g o Hg Ho.
    assert (Ho1 : next'.*1 !! j = Some o.1) by (by rewrite list_lookup_fmap, Ho).
    pose proof (Forall2_lookup_lr _ _ _ _ _ _ Hgi Hg Ho1) as H1.
    pose proof (Forall2_lookup_lr _ _ _ _ _ _ Hagg Hg Ho) as H2.
    destruct (Forall2_lookup_r _ _ _ _ _ Hfacts Ho1) as (g' & _ & _ & _ & _ & Hfi & Hfn).
    done. }
  destruct (Forall2_collect
              (λ (rp : WithReduce.PRec) L,
                 hasLeaves st (S k) (project st rp.1) L
                 ∧ Z.of_nat (length L) = rnum rp.1
                 ∧ 0 ≤ rp.2 ≤ Z.of_nat (length cps')
                 ∧ ∃ V, valueOf m pts cps' rp = Some V
                        ∧ μ V = sumZ (pointMeasure m pts μ <$> L))
              _ (λ r : WithReduce.PRec, (toFloat32 r.1, f32 r.2)) Lk groups next' HQ)
    as (Ls' & HLs' & _).
  2:{ by exists Ls'. }
  intros g [o p] (Hgo & Hfi & Hfn & Hpb & V & HV & Hsum). cbn [fst snd] in *.
  destruct (group_leaves st0 st pts Hload cfg within_ok within_self k Lk g o Hk HLk)
    as (L & [HL HLn] & HLperm); [fold z; by rewrite Her|done|done|].
  assert (Hfp : f32 p = p) by (apply f32_exact; lia).
  exists L. split; [|done]. split; [done|]. split; [done|]. split.
  - rewrite Hfp. lia.
  - exists V. split.
    + rewrite <- HV. apply valueOf_same; simpl; by rewrite ?Hfi, ?Hfn, ?Hfp.
    + rewrite Hsum, HLperm, sumZ_concat, <- list_fmap_compose.
      f_equal. apply list_fmap_ext. intros ? i _. apply HmLk.
Qed.

End AggLevels.

(** ** The queries of an instance with [reduce] *)

Section AggQueries.

Context {JS : JSNumber} {KD : KDBush} {P C : Type}.
Implicit Types sa : @WithReduce.PointCluster JS P C.

Lemma project_plain sa (r : WithReduce.PRec) :
  plainFeature (WithReduce.project sa r) = project (withoutProps sa) r.1.
Proof.
  unfold WithReduce.project, project. cbn [points withoutProps].
  destruct (1 <? rnum r.1); [done|].
  by destruct (lookupZ (WithReduce.points sa) (rid r.1)).
Qed.

Lemma getClusters_plain sa bbox zoom :
  getClusters (withoutProps sa) bbox zoom
  = match WithReduce.getClusters sa bbox zoom with
    | Ok fs => Ok (plainFeature <$> fs)
    | Err e => Err e
    end.
Proof.
  unfold getClusters, WithReduce.getClusters. cbn [trees options withoutProps].
  rewrite lookup_fmap.
  destruct (WithReduce.trees sa !! _) as [data|]; [|done]. simpl. f_equal.
  change (map ?f ?l) with (f <$> l). rewrite <- list_fmap_compose.
  apply list_fmap_ext. intros ? id _. simpl. rewrite list_lookup_fmap.
  destruct (data !! id) as [r|]; [|done]. simpl. by rewrite project_plain.
Qed.

Lemma childrenOf_plain sa data clusterId ids :
  plainFeature <$> WithReduce.childrenOf sa data clusterId ids
  = childrenOf (withoutProps sa) data.*1 clusterId ids.
Proof.
  unfold WithReduce.childrenOf, childrenOf.
  induction ids as [|id ids IH]; [done|].
  rewrite !(omap_cons _ id ids), fmap_app, IH. f_equal.
  rewrite list_lookup_fmap. destruct (data !! id) as [rk|]; [|done]. simpl.
  destruct (rparent rk.1 =? clusterId); [|done]. simpl. by rewrite project_plain.
Qed.

Lemma getChildren_plain sa clusterId :
  getChildren (withoutProps sa) clusterId
  = match WithReduce.getChildren sa clusterId with
    | Ok fs => Ok (plainFeature <$> fs)
    | Err e => Err e
    end.
Proof.
  unfold getChildren, WithReduce.getChildren. cbn [trees options points withoutProps].
  rewrite lookup_fmap.
  destruct (WithReduce.trees sa !! _) as [data|]; [|done]. simpl.
  rewrite length_fmap. destruct (_ <=? _); [done|].
  assert (Ha : lookupZ data.*1 (_getOriginId (Z.of_nat (length (WithReduce.points sa))) clusterId)
               = fst <$> lookupZ data (_getOriginId (Z.of_nat (length (WithReduce.points sa)))
                                                    clusterId)).
  { unfold lookupZ. destruct (_ <? 0); [done|]. apply list_lookup_fmap. }
  rewrite Ha, <- childrenOf_plain.
  by destruct (WithReduce.childrenOf _ _ _ _).
Qed.

(** A cluster a query returns is made of a cluster record of a stored
    level. *)
Lemma getClusters_cluster sa bbox zoom fs c props :
  WithReduce.getClusters sa bbox zoom = Ok fs →
  WithReduce.FCluster c props ∈ fs →
  ∃ key data j r p,
    WithReduce.trees sa !! key = Some data ∧ data !! j = Some (r, p) ∧ 1 < rnum r
    ∧ c = _getClusterJSON r
    ∧ props = WithReduce._getClusterProperties (WithReduce.callbacks sa)
                                               (WithReduce.clusterProps sa) (r, p).
Proof.
  unfold WithReduce.getClusters.
  destruct (WithReduce.trees sa !! _) as [data|] eqn:Hd; [|done].
  intros [= <-] (id & Hf & _)%list_elem_of_fmap.
  destruct (data !! id) as [[r p]|] eqn:Hr; [|done].
  unfold WithReduce.project in Hf. cbn [fst] in Hf.
  destruct (Z.ltb_spec 1 (rnum r)).
  - injection Hf as -> ->. by eexists _, data, id, r, p.
  - by destruct (lookupZ (WithReduce.points sa) (rid r)).
Qed.

Lemma getChildren_cluster sa clusterId fs c props :
  WithReduce.getChildren sa clusterId = Ok fs →
  WithReduce.FCluster c props ∈ fs →
  ∃ key data j r p,
    WithReduce.trees sa !! key = Some data ∧ data !! j = Some (r, p) ∧ 1 < rnum r
    ∧ c = _getClusterJSON r
    ∧ props = WithReduce._getClusterProperties (WithReduce.callbacks sa)
                                               (WithReduce.clusterProps sa) (r, p).
Proof.
  unfold WithReduce.getChildren.
  destruct (WithReduce.trees sa !! _) as [data|] eqn:Hd; [|done].
  destruct (_ <=? _); [done|]. cbv zeta.
  set (ids := within _ _ _ _).
  intros Hc Hin.
  assert (Hin' : WithReduce.FCluster c props ∈ WithReduce.childrenOf sa data clusterId ids).
  { destruct (WithReduce.childrenOf sa data clusterId ids); [done|]. by injection Hc as <-. }
  unfold WithReduce.childrenOf in Hin'.
  apply list_elem_of_omap in Hin' as (id & _ & Hf).
  destruct (data !! id) as [[r p]|] eqn:Hr; [|done]. cbn [fst] in Hf.
  destruct (rparent r =? clusterId); [|done]. injection Hf as Hf.
  unfold WithReduce.project in Hf. cbn [fst] in Hf.
  destruct (Z.ltb_spec 1 (rnum r)).
  - injection Hf as <- <-. by eexists _, data, id, r, p.
  - by destruct (lookupZ (WithReduce.points sa) (rid r)).
Qed.

End AggQueries.

Section AggLoad.

Context {JS : JSNumber} {KD : KDBush} {P C : Type}.
Variables (st0 st : @PointCluster JS P) (pts : list (@Point JS P)).
Hypothesis Hload : load st0 pts = Ok st.
Local Abbreviation opts := (options st0).
Local Abbreviation N := (Z.of_nat (length pts)).
Hypothesis cfg : Configured opts N.
Hypothesis within_ok : WithinContract.
Hypothesis within_self : WithinSelf opts.

Variable cb : @WithReduce.Callbacks P C.
Variable m : P → C.
Variable μ : C → Z.
Hypothesis map_configured : WithReduce.mapFn cb = Some m.
Hypothesis additive : ∀ a b, μ (WithReduce.reduceFn cb a (Some b)) = μ a + μ b.

(** The loop of [load] with aggregation returns, and every level it
    stores is stored well. *)
Lemma loadLoop_agg n : ∀ k (tree : list WithReduce.PRec) ts cps,
  (k + n = passes opts)%nat →
  tree.*1 = levelIn opts pts k →
  AggLeaves m pts μ st k cps tree →
  Z.of_nat (length cps) + Z.of_nat n * N ≤ 2 ^ 24 →
  (∀ key data, ts !! key = Some data → AggStored m pts μ st cps data) →
  ∃ ts' cps',
    WithReduce.loadLoop opts cb pts n (maxZoom opts - Z.of_nat k) tree ts cps = Ok (ts', cps')
    ∧ cps `prefix_of` cps'
    ∧ ∀ key data, ts' !! key = Some data → AggStored m pts μ st cps' data.
Proof.
  induction n as [|n IH]; intros k tree ts cps Hkn Ht Hleaves Hbound Hts.
  { exists ts, cps. done. }
  destruct (agg_level_step st0 st pts Hload cfg within_ok within_self cb m μ
              map_configured additive k tree cps)
    as (data' & next' & cps' & Hc & Hprops & Hst & [l Hl] & Hlen & HtS & HleavesS);
    [lia|done|done|lia|].
  cbn [WithReduce.loadLoop]. rewrite Hc.
  set (z := maxZoom opts - Z.of_nat k).
  set (tree' := WithReduce._createTree next') in *.
  destruct (IH (S k) tree' (<[z := tree']> (<[z + 1 := data']> ts)) cps')
    as (ts' & cps'' & Hloop & [l' Hl'] & Hstored); [lia|done|done|lia| |].
  { intros key data. rewrite lookup_insert_Some. intros [[_ <-]|[_ Hkey]].
    - apply (AggLeaves_stored st0 st pts Hload m μ (S k) cps' tree' tree');
        [lia|done|done|done].
    - rewrite Hl. apply AggStored_mono.
      apply lookup_insert_Some in Hkey as [[_ <-]|[_ Hkey]].
      + apply (AggLeaves_stored st0 st pts Hload m μ k cps tree data'); [lia|done|done|done].
      + by apply (Hts key). }
  exists ts', cps''. split_and!; [|exists (l ++ l'); by rewrite Hl', Hl, app_assoc|done].
  rewrite <- Hloop. f_equal. unfold z. lia.
Qed.

End AggLoad.

(** ** [load] with [map] and [reduce] *)

Section AggregationTheorems.

Context {JS : JSNumber} {KD : KDBush} {P C : Type}.

Lemma passes_Configured (opts : Options) (n : Z) :
  Configured opts n → 0 ≤ n → Z.of_nat (passes opts) * n ≤ 2 ^ 24.
Proof. intros [Hmin Hmax HN] Hn. unfold passes. nia. Qed.

(** With [map] and [reduce] configured, [load] returns, and the
    properties of every cluster record it has stored add up over the
    leaves of the cluster. *)
Lemma load_aggregates
    (o : PartialOptions) (cb : @WithReduce.Callbacks P C)
    (sa0 : @WithReduce.PointCluster JS P C) (pts : list (@Point JS P))
    (m : P → C) (μ : C → Z) :
  WithReduce.constructor o cb = Ok sa0 →
  WithReduce.mapFn cb = Some m →
  (∀ a b, μ (WithReduce.reduceFn cb a (Some b)) = μ a + μ b) →
  Configured (WithReduce.options sa0) (Z.of_nat (length pts)) →
  WithinContract →
  WithinSelf (WithReduce.options sa0) →
  ∃ sa,
    WithReduce.load sa0 pts = Ok sa
    ∧ ∀ zoom data j r p,
        WithReduce.trees sa !! zoom = Some data →
        data !! j = Some (r, p) →
        1 < rnum r →
        ∃ leaves,
          (∀ fuel, (passes (WithReduce.options sa0) ≤ fuel)%nat →
                   getLeaves fuel (withoutProps sa) (rid r) (Some XInf) None
                   = Some (Ok leaves))
          ∧ μ (WithReduce._getClusterProperties cb (WithReduce.clusterProps sa) (r, p))
            = sumZ (pointMeasure m pts μ <$> leaves).
Proof.
  intros Hcons Hmap Hadd Hcfg Hwithin Hself.
  assert (Hsa0 : WithReduce.callbacks sa0 = cb ∧ WithReduce.trees sa0 = ∅
                 ∧ WithReduce.clusterProps sa0 = []).
  { unfold WithReduce.constructor in Hcons.
    destruct (validArrayLength _); [|done]. by injection Hcons as <-. }
  destruct Hsa0 as (Hcb & Htrees & Hcps).
  set (st0 := withoutProps sa0).
  destruct (load_spec st0 pts) as (st & Hload & _).
  set (opts := WithReduce.options sa0) in *.
  set (tree0 := WithReduce._createTree (imap (λ i (p : @Point JS P), (initialRec i p, 0)) pts)).
  pose proof (AggLeaves_0 st0 st pts Hload Hcfg m μ []) as H0.
  fold tree0 in H0.
  assert (Ht0 : tree0.*1 = levelIn opts pts 0).
  { unfold tree0. rewrite createTree_erase. cbn [levelIn]. f_equal.
    rewrite fmap_imap. by apply imap_ext. }
  destruct (loadLoop_agg st0 st pts Hload Hcfg Hwithin Hself cb m μ Hmap Hadd
              (passes opts) 0 tree0 (<[maxZoom opts + 1 := tree0]> ∅) [])
    as (ts' & cps' & Hloop & _ & Hstored); [done|done|done| | |].
  { simpl. apply (passes_Configured opts _ Hcfg). lia. }
  { intros key data [[_ <-]|[_ Hkey]]%lookup_insert_Some; [|done].
    apply (AggLeaves_stored st0 st pts Hload m μ 0 [] tree0 tree0); [lia|done|done|done]. }
  assert (Hl : WithReduce.load sa0 pts
               = Ok (WithReduce.mkState opts cb ts' cps' pts)).
  { unfold WithReduce.load. rewrite Hcb, Htrees, Hcps. fold opts tree0.
    change (options st0) with opts in Hloop.
    unfold passes in Hloop. change (Z.of_nat 0) with 0 in Hloop.
    rewrite Z.sub_0_r in Hloop. by rewrite Hloop. }
  eexists. split; [exact Hl|].
  pose proof (load_erase _ _ _ Hl) as He. fold st0 in He.
  rewrite Hload in He. injection He as ->.
  intros zoom data j r p Hz Hj Hn. cbn [WithReduce.trees WithReduce.clusterProps] in *.
  destruct (Hstored zoom data Hz j r p Hj Hn) as (V & L & d & Hd & HV & HL & Hsum).
  exists L. split.
  - intros fuel Hfuel.
    apply (hasLeaves_leavesOf _ d (FCluster (_getClusterJSON r)) L fuel HL).
    cbn [options withoutProps WithReduce.options] in Hd. lia.
  - unfold WithReduce._getClusterProperties. cbn [snd]. rewrite HV. simpl.
    destruct (Z.eqb_spec p (-1)) as [->|_]; [|done]. by unfold lookupZ in HV.
Qed.


(** The aggregation changes nothing else: when [load] of an instance
    with [reduce] returns, the six slots of every level it has stored are
    those [load] stores without [reduce], whatever the callbacks do; and
    [getClusters] and [getChildren] return what they return without
    [reduce], with the aggregated properties added to the clusters. *)
Theorem aggregation_keeps_the_clustering
    (sa sa' : @WithReduce.PointCluster JS P C) (pts : list (@Point JS P)) :
  WithReduce.load sa pts = Ok sa' →
  load (withoutProps sa) pts = Ok (withoutProps sa')
  ∧ (∀ bbox zoom,
       getClusters (withoutProps sa') bbox zoom
       = match WithReduce.getClusters sa' bbox zoom with
         | Ok fs => Ok (plainFeature <$> fs)
         | Err e => Err e
         end)
  ∧ (∀ clusterId,
       getChildren (withoutProps sa') clusterId
       = match WithReduce.getChildren sa' clusterId with
         | Ok fs => Ok (plainFeature <$> fs)
         | Err e => Err e
         end).
Proof.
  intros Hload. split_and!.
  - by apply load_erase.
  - apply getClusters_plain.
  - apply getChildren_plain.
Qed.

End AggregationTheorems.

(** ** What [load] does to [clusterProps] *)

Section ClusterProps.

Context {JS : JSNumber} {KD : KDBush} {P C : Type}.
Variable opts : Options.
Variable cb : @WithReduce.Callbacks P C.
Variable pts : list (@Point JS P).
Variable z : Z.

Lemma absorb_grows i id nb (cps0 : list C) :
  ∀ data wx wy cp cpi cps data' wx' wy' cp' cpi' cps',
    cps0 `prefix_of` cps →
    (cp = None ∨ (length cps0 ≤ Z.to_nat cpi)%nat) →
    fold_left (WithReduce.absorbStep cb pts z i id) nb (Ok (data, wx, wy, cp, cpi, cps))
    = Ok (data', wx', wy', cp', cpi', cps') →
    cps0 `prefix_of` cps'.
Proof.
  induction nb as [|k nb IH]; intros data wx wy cp cpi cps data' wx' wy' cp' cpi' cps' Hpre Hcp;
    cbn [fold_left].
  { intros ?. by simplify_eq. }
  destruct (WithReduce.absorbStep cb pts z i id (Ok (data, wx, wy, cp, cpi, cps)) k)
    as [[[[[[d1 wx1] wy1] cp1] cpi1] cps1]|e] eqn:Hs; [|by rewrite absorb_Err].
  apply IH.
  - unfold WithReduce.absorbStep in Hs.
    destruct Hpre as [l ->].
    assert (Hins : ∀ (c : C) n l', (length cps0 ≤ n)%nat →
                     cps0 `prefix_of` <[n := c]> (cps0 ++ l')).
    { intros c n l' Hn. exists (<[(n - length cps0)%nat := c]> l').
      by rewrite insert_app_r_alt. }
    repeat case_match; simplify_eq; try (by eexists); try (apply Hins).
    + by destruct Hcp.
    + rewrite <- app_assoc. apply Hins. rewrite Nat2Z.id, length_app. lia.
  - unfold WithReduce.absorbStep in Hs.
    assert (Hlen : (length cps0 ≤ length cps)%nat).
    { destruct Hpre as [l ->]. rewrite length_app. lia. }
    repeat case_match; simplify_eq; try (by left); try (by right); try done.
    + right. by destruct Hcp.
    + right. rewrite Nat2Z.id. lia.
Qed.

Lemma clusterStep_grows i data next (cps : list C) data' next' cps' :
  WithReduce.clusterStep opts cb pts z (Ok (data, next, cps)) i = Ok (data', next', cps') →
  cps `prefix_of` cps'.
Proof.
  unfold WithReduce.clusterStep.
  destruct (data !! i) as [ri|]; [|intros ?; by simplify_eq].
  destruct (markLe (rzoom ri.1) z); [intros ?; by simplify_eq|].
  cbv zeta. case_match.
  - destruct (fold_left (WithReduce.absorbStep _ _ _ _ _) _ _)
      as [[[[[[d2 wx2] wy2] cp2] cpi2] cps2]|e] eqn:Hf; [|done].
    intros ?. simplify_eq. eapply absorb_grows; [| |exact Hf]; [done|by left].
  - case_match; [case_match|]; intros ?; by simplify_eq.
Qed.

Lemma cluster_grows l : ∀ data next (cps : list C) data' next' cps',
  fold_left (WithReduce.clusterStep opts cb pts z) l (Ok (data, next, cps))
  = Ok (data', next', cps') →
  cps `prefix_of` cps'.
Proof.
  induction l as [|i l IH]; intros data next cps data' next' cps'; cbn [fold_left].
  { intros ?. by simplify_eq. }
  destruct (WithReduce.clusterStep opts cb pts z (Ok (data, next, cps)) i)
    as [[[d1 n1] c1]|e] eqn:Hs; [|by rewrite clusterStep_Err].
  intros Hf. apply clusterStep_grows in Hs. apply IH in Hf. by etrans.
Qed.

(** Without [map] nothing is aggregated: the pass returns, and leaves
    [clusterProps] as it was. *)
Lemma absorb_without_map i id nb :
  WithReduce.mapFn cb = None →
  ∀ data wx wy cp cpi (cps : list C),
    ∃ data' wx' wy',
      fold_left (WithReduce.absorbStep cb pts z i id) nb (Ok (data, wx, wy, cp, cpi, cps))
      = Ok (data', wx', wy', cp, cpi, cps).
Proof.
  intros Hmap. induction nb as [|k nb IH]; intros data wx wy cp cpi cps; cbn [fold_left].
  { by eexists _, _, _. }
  unfold WithReduce.absorbStep at 2. rewrite Hmap.
  destruct (data !! k) as [rk|]; [|apply IH].
  destruct (markLe (rzoom rk.1) z); apply IH.
Qed.

Lemma cluster_without_map l :
  WithReduce.mapFn cb = None →
  ∀ data next (cps : list C),
    ∃ data' next',
      fold_left (WithReduce.clusterStep opts cb pts z) l (Ok (data, next, cps))
      = Ok (data', next', cps).
Proof.
  intros Hmap. induction l as [|i l IH]; intros data next cps; cbn [fold_left].
  { by eexists _, _. }
  unfold WithReduce.clusterStep at 2.
  destruct (data !! i) as [ri|]; [|apply IH].
  destruct (markLe (rzoom ri.1) z); [apply IH|].
  cbv zeta. case_match.
  - match goal with
    | |- context [fold_left (WithReduce.absorbStep cb pts z i ?id) ?nb
                            (Ok (?d, ?wx, ?wy, ?cp, ?cpi, ?c))] =>
        destruct (absorb_without_map i id nb Hmap d wx wy cp cpi c) as (d2 & wx2 & wy2 & ->)
    end.
    apply IH.
  - case_match; [case_match|]; apply IH.
Qed.

End ClusterProps.

Section ClusterPropsTheorems.

Context {JS : JSNumber} {KD : KDBush} {P C : Type}.

Lemma loadLoop_grows (opts : Options) (cb : @WithReduce.Callbacks P C)
    (pts : list (@Point JS P)) n : ∀ zoom tree ts cps ts' cps',
  WithReduce.loadLoop opts cb pts n zoom tree ts cps = Ok (ts', cps') →
  cps `prefix_of` cps'.
Proof.
  induction n as [|n IH]; intros zoom tree ts cps ts' cps'; cbn [WithReduce.loadLoop].
  { intros ?. by simplify_eq. }
  destruct (WithReduce._cluster opts cb pts zoom tree cps) as [[[d1 n1] c1]|e] eqn:Hc; [|done].
  intros Hl. apply cluster_grows in Hc. apply IH in Hl. by etrans.
Qed.

(** [load] never resets [this.clusterProps]: what an earlier [load] has
    aggregated stays in the array, at the same positions, and a [load]
    that returns has only appended to it. *)
Theorem load_never_resets_clusterProps
    (sa sa' : @WithReduce.PointCluster JS P C) (pts : list (@Point JS P)) :
  WithReduce.load sa pts = Ok sa' →
  WithReduce.clusterProps sa `prefix_of` WithReduce.clusterProps sa'.
Proof.
  unfold WithReduce.load.
  destruct (WithReduce.loadLoop _ _ _ _ _ _ _ _) as [[ts' cps']|e] eqn:Hl; [|done].
  intros [= <-]. simpl. by apply loadLoop_grows in Hl.
Qed.

Lemma loadLoop_without_map (opts : Options) (cb : @WithReduce.Callbacks P C)
    (pts : list (@Point JS P)) n :
  WithReduce.mapFn cb = None →
  ∀ zoom tree ts cps,
    ∃ ts', WithReduce.loadLoop opts cb pts n zoom tree ts cps = Ok (ts', cps).
Proof.
  intros Hmap. induction n as [|n IH]; intros zoom tree ts cps; cbn [WithReduce.loadLoop].
  { by eexists. }
  unfold WithReduce._cluster.
  destruct (cluster_without_map opts cb pts zoom (seq 0 (length tree)) Hmap tree [] cps)
    as (d1 & n1 & ->).
  apply IH.
Qed.

(** With [reduce] but no [map], [load] returns whatever the points and
    the options are, and [this.clusterProps] stays as it was; on a new
    instance it stays empty, so the aggregated properties of every
    cluster that [getClusters] or [getChildren] returns are [{}]. *)
Theorem reduce_without_map_aggregates_nothing
    (sa : @WithReduce.PointCluster JS P C) (pts : list (@Point JS P)) :
  WithReduce.mapFn (WithReduce.callbacks sa) = None →
  ∃ sa',
    WithReduce.load sa pts = Ok sa'
    ∧ WithReduce.clusterProps sa' = WithReduce.clusterProps sa
    ∧ (WithReduce.clusterProps sa = [] →
       ∀ fs c props,
         (∃ bbox zoom, WithReduce.getClusters sa' bbox zoom = Ok fs)
         ∨ (∃ clusterId, WithReduce.getChildren sa' clusterId = Ok fs) →
         WithReduce.FCluster c props ∈ fs →
         props = WithReduce.emptyObject (WithReduce.callbacks sa)).
Proof.
  intros Hmap. unfold WithReduce.load.
  destruct (loadLoop_without_map (WithReduce.options sa) (WithReduce.callbacks sa) pts
              (Z.to_nat (maxZoom (WithReduce.options sa) - minZoom (WithReduce.options sa) + 1))
              Hmap (maxZoom (WithReduce.options sa))
              (WithReduce._createTree (imap (λ i (p : @Point JS P), (initialRec i p, 0)) pts))
              (<[maxZoom (WithReduce.options sa) + 1 :=
                   WithReduce._createTree (imap (λ i (p : @Point JS P), (initialRec i p, 0)) pts)]>
                 (WithReduce.trees sa))
              (WithReduce.clusterProps sa)) as (ts' & ->).
  eexists. split; [done|]. split; [done|]. intros Hnil fs c props Hq Hin.
  assert (Hfrom : ∃ rp, props = WithReduce._getClusterProperties (WithReduce.callbacks sa) [] rp).
  { destruct Hq as [(bbox & zoom & Hq)|(clusterId & Hq)].
    - destruct (getClusters_cluster _ _ _ _ _ _ Hq Hin) as (? & ? & ? & r & p & _ & _ & _ & _ & ->).
      simpl. rewrite Hnil. by eexists.
    - destruct (getChildren_cluster _ _ _ _ _ Hq Hin) as (? & ? & ? & r & p & _ & _ & _ & _ & ->).
      simpl. rewrite Hnil. by eexists. }
  destruct Hfrom as (rp & ->).
  unfold WithReduce._getClusterProperties. destruct (rp.2 =? -1); [done|].
  unfold lookupZ. destruct (rp.2 <? 0); [done|]. by rewrite lookup_nil.
Qed.

End ClusterPropsTheorems.

(** ** [load] with [reduce] returns *)

Section Returns.

Context {JS : JSNumber} {KD : KDBush} {P C : Type}.
Variable opts : Options.
Variable cb : @WithReduce.Callbacks P C.
Variable pts : list (@Point JS P).
Variable z : Z.

Lemma map_returns m cps (r : WithReduce.PRec) clone :
  pointRecord pts r →
  ∃ v, WithReduce._map cb pts m cps r clone = Ok v ∧ (clone = true → is_Some v).
Proof.
  unfold WithReduce._map, pointRecord. destruct (1 <? rnum r.1).
  - intros _. eexists. split; [done|]. by intros ->.
  - intros H. destruct (H eq_refl) as [p ->]. eexists. split; [done|]. done.
Qed.

Lemma pointRecord_marked (rk : WithReduce.PRec) (f : Rec → Rec) :
  rnum (f rk.1) = rnum rk.1 → rid (f rk.1) = rid rk.1 →
  pointRecord pts rk → pointRecord pts (f rk.1, rk.2).
Proof. unfold pointRecord. cbn [fst]. by intros -> ->. Qed.

Lemma absorbStep_returns i id k data wx wy cp cpi cps :
  Forall (pointRecord pts) data → (i < length data)%nat →
  ∃ data' wx' wy' cp' cpi' cps',
    WithReduce.absorbStep cb pts z i id (Ok (data, wx, wy, cp, cpi, cps)) k
    = Ok (data', wx', wy', cp', cpi', cps')
    ∧ Forall (pointRecord pts) data' ∧ length data' = length data.
Proof.
  intros Hall Hi. unfold WithReduce.absorbStep.
  destruct (data !! k) as [rk|] eqn:Hk; [|by eexists _, _, _, _, _, _].
  destruct (markLe (rzoom rk.1) z); [by eexists _, _, _, _, _, _|].
  cbv zeta.
  set (rk' := (setParent id (setZoom z rk.1), rk.2)).
  assert (Hrk : pointRecord pts rk) by (eapply Forall_lookup_1; eauto).
  assert (Hrk' : pointRecord pts rk').
  { by apply (pointRecord_marked rk (λ r, setParent id (setZoom z r))). }
  assert (Hall' : Forall (pointRecord pts) (<[k := rk']> data)) by by apply Forall_insert.
  destruct (WithReduce.mapFn cb) as [m|].
  2:{ eexists _, _, _, _, _, _. split; [done|]. by rewrite length_insert. }
  destruct cp as [c|].
  - destruct (map_returns m cps rk' false Hrk') as (v & -> & _).
    eexists _, _, _, _, _, _. split; [done|]. by rewrite length_insert.
  - destruct (lookup_lt_is_Some_2 (<[k := rk']> data) i) as [ri Hri];
      [by rewrite length_insert|].
    rewrite Hri.
    assert (Hpi : pointRecord pts ri) by (eapply Forall_lookup_1; eauto).
    destruct (map_returns m cps ri true Hpi) as (v & -> & Hv).
    destruct (Hv eq_refl) as [c ->].
    destruct (map_returns m (cps ++ [c]) rk' false Hrk') as (v' & -> & _).
    eexists _, _, _, _, _, _. split; [done|]. by rewrite length_insert.
Qed.

Lemma absorb_returns i id nb : ∀ data wx wy cp cpi cps,
  Forall (pointRecord pts) data → (i < length data)%nat →
  ∃ data' wx' wy' cp' cpi' cps',
    fold_left (WithReduce.absorbStep cb pts z i id) nb (Ok (data, wx, wy, cp, cpi, cps))
    = Ok (data', wx', wy', cp', cpi', cps')
    ∧ Forall (pointRecord pts) data' ∧ length data' = length data.
Proof.
  induction nb as [|k nb IH]; intros data wx wy cp cpi cps Hall Hi; cbn [fold_left].
  { by eexists _, _, _, _, _, _. }
  destruct (absorbStep_returns i id k data wx wy cp cpi cps Hall Hi)
    as (d1 & wx1 & wy1 & cp1 & cpi1 & cps1 & -> & Hall1 & Hlen1).
  destruct (IH d1 wx1 wy1 cp1 cpi1 cps1 Hall1 ltac:(lia))
    as (d2 & wx2 & wy2 & cp2 & cpi2 & cps2 & -> & Hall2 & Hlen2).
  eexists _, _, _, _, _, _. split; [done|]. split; [done|lia].
Qed.

Lemma copy_returns nb : ∀ (data next : list WithReduce.PRec),
  Forall (pointRecord pts) data →
  let r := fold_left (WithReduce.copyStep z) nb (data, next) in
  Forall (pointRecord pts) r.1 ∧ length r.1 = length data.
Proof.
  induction nb as [|k nb IH]; intros data next Hall; cbn [fold_left]; [done|].
  assert (Hs : ∃ d1 n1, WithReduce.copyStep z (data, next) k = (d1, n1)
                        ∧ Forall (pointRecord pts) d1 ∧ length d1 = length data).
  { unfold WithReduce.copyStep.
    destruct (data !! k) as [rk|] eqn:Hk; [|by eexists _, _].
    destruct (markLe (rzoom rk.1) z); [by eexists _, _|].
    eexists _, _. split; [done|]. split; [|by rewrite length_insert].
    apply Forall_insert; [done|].
    apply (pointRecord_marked rk (setZoom z)); try done.
    eapply Forall_lookup_1; eauto. }
  destruct Hs as (d1 & n1 & -> & Hall1 & Hlen1).
  destruct (IH d1 n1 Hall1) as [IH1 IH2]. cbv zeta. split; [done|congruence].
Qed.

Lemma clusterStep_returns i data next cps :
  Forall (pointRecord pts) data →
  ∃ data' next' cps',
    WithReduce.clusterStep opts cb pts z (Ok (data, next, cps)) i = Ok (data', next', cps')
    ∧ Forall (pointRecord pts) data' ∧ length data' = length data.
Proof.
  intros Hall. unfold WithReduce.clusterStep.
  destruct (data !! i) as [ri|] eqn:Hi; [|by eexists _, _, _].
  destruct (markLe (rzoom ri.1) z); [by eexists _, _, _|].
  cbv zeta.
  assert (Hlt : (i < length data)%nat) by (eapply lookup_lt_Some; eauto).
  assert (Hri : pointRecord pts (setZoom z ri.1, ri.2)).
  { apply (pointRecord_marked ri (setZoom z)); try done.
    eapply Forall_lookup_1; eauto. }
  assert (Hall1 : Forall (pointRecord pts) (<[i := (setZoom z ri.1, ri.2)]> data))
    by by apply Forall_insert.
  set (data1 := <[i := (setZoom z ri.1, ri.2)]> data) in *.
  assert (Hlen1 : length data1 = length data) by apply length_insert.
  destruct (_ && _).
  - match goal with
    | |- context [fold_left (WithReduce.absorbStep cb pts z i ?id) ?nb (Ok (?d, ?wx, ?wy, ?cp, ?cpi, ?c))] =>
        destruct (absorb_returns i id nb d wx wy cp cpi c Hall1 ltac:(lia))
          as (d2 & wx2 & wy2 & cp2 & cpi2 & cps2 & -> & Hall2 & Hlen2)
    end.
    eexists _, _, _. split; [done|]. split.
    + apply Forall_alter; [done|]. intros r _.
      by apply (pointRecord_marked r (setParent _)).
    + rewrite length_alter. lia.
  - destruct (1 <? _).
    + match goal with
      | |- context [fold_left (WithReduce.copyStep z) ?nb (?d, ?n)] =>
          pose proof (copy_returns nb d n Hall1) as [Hc1 Hc2];
          cbv zeta in Hc1, Hc2;
          destruct (fold_left (WithReduce.copyStep z) nb (d, n)) as [d2 n2]
      end.
      eexists _, _, _. split; [done|]. split; [done|]. simpl in Hc2. lia.
    + eexists _, _, _. split; [done|]. split; [done|lia].
Qed.

Lemma cluster_returns_prefix l : ∀ data next cps,
  Forall (pointRecord pts) data →
  ∃ data' next' cps',
    fold_left (WithReduce.clusterStep opts cb pts z) l (Ok (data, next, cps))
    = Ok (data', next', cps').
Proof.
  induction l as [|i l IH]; intros data next cps Hall; cbn [fold_left].
  { by eexists _, _, _. }
  destruct (clusterStep_returns i data next cps Hall) as (d1 & n1 & c1 & -> & Hall1 & _).
  by apply IH.
Qed.

Lemma cluster_returns data cps :
  Forall (pointRecord pts) data →
  ∃ data' next' cps', WithReduce._cluster opts cb pts z data cps = Ok (data', next', cps').
Proof. apply cluster_returns_prefix. Qed.

End Returns.

Section LoadReturns.

Context {JS : JSNumber} {KD : KDBush} {P C : Type}.
Variable opts : Options.
Variable cb : @WithReduce.Callbacks P C.
Variable pts : list (@Point JS P).
Hypothesis exact : Exact opts (Z.of_nat (length pts)).
Hypothesis within_ok : WithinContract.

Lemma level_pointRecords k (tree : list WithReduce.PRec) :
  (k ≤ passes opts)%nat → tree.*1 = levelIn opts pts k → Forall (pointRecord pts) tree.
Proof.
  intros Hk Ht. apply Forall_lookup_2. intros j rp Hj Hn.
  destruct (levelIn_inv opts pts exact within_ok k Hk) as [_ Hrec].
  destruct (Hrec j rp.1) as (H1 & _ & Hid).
  { rewrite <- Ht, list_lookup_fmap, Hj. done. }
  apply lookupZ_Some. apply Hid. apply Z.ltb_ge in Hn. lia.
Qed.

Lemma loadLoop_returns n : ∀ k (tree : list WithReduce.PRec) ts cps,
  (k + n = passes opts)%nat →
  tree.*1 = levelIn opts pts k →
  ∃ ts' cps',
    WithReduce.loadLoop opts cb pts n (maxZoom opts - Z.of_nat k) tree ts cps = Ok (ts', cps').
Proof.
  induction n as [|n IH]; intros k tree ts cps Hkn Ht; cbn [WithReduce.loadLoop].
  { by eexists _, _. }
  destruct (cluster_returns opts cb pts (maxZoom opts - Z.of_nat k) tree cps)
    as (d1 & n1 & c1 & Hc); [apply (level_pointRecords k); [lia|done]|].
  rewrite Hc. apply cluster_erase in Hc as [Hc _].
  replace (maxZoom opts - Z.of_nat k - 1) with (maxZoom opts - Z.of_nat (S k)) by lia.
  apply IH; [lia|].
  rewrite createTree_erase. cbn [levelIn]. by rewrite <- Ht, Hc.
Qed.

End LoadReturns.

(** ** A second [load] *)

Section SecondLoad.

Context {JS : JSNumber} {KD : KDBush} {P C : Type}.

(** Without [reduce], [load] on a loaded instance returns what it
    returns on the instance as it was before the first [load]. *)
Lemma load_again (st0 st1 : @PointCluster JS P) pts1 pts2 :
  load st0 pts1 = Ok st1 →
  ∃ st2, load st1 pts2 = Ok st2 ∧ load st0 pts2 = Ok st2 ∧ points st2 = pts2.
Proof.
  intros Hload1.
  destruct (load_fields st0 st1 pts1 Hload1) as [Hopt1 _].
  destruct (load_spec st0 pts1) as (st1' & Hl1 & _ & _ & _ & _ & A3).
  rewrite Hl1 in Hload1. injection Hload1 as ->.
  destruct (load_spec st1 pts2) as (x1 & Hx1 & Ho1 & Hp1 & B1 & B2 & B3).
  destruct (load_spec st0 pts2) as (x0 & Hx0 & Ho0 & Hp0 & C1 & C2 & C3).
  rewrite Hopt1 in *.
  exists x1. split_and!; [done| |done].
  rewrite Hx0. f_equal.
  destruct x0 as [o0 t0 p0], x1 as [o1 t1 p1]. simpl in *. subst.
  f_equal. apply map_eq. intros key.
  set (hi := maxZoom (options st0) + 1) in *.
  set (n := passes (options st0)) in *.
  destruct (decide (key < hi - Z.of_nat n ∨ hi < key)) as [Hout|Hin].
  + rewrite (B3 key Hout), (C3 key Hout). symmetry. by apply A3.
  + set (k := Z.to_nat (hi - key)).
    assert (Hk : key = hi - Z.of_nat k) by lia.
    destruct (decide (k = n)) as [Heq|Hne].
    * rewrite Hk, Heq. by rewrite B2, C2.
    * rewrite Hk. rewrite B1, C1 by lia. done.
Qed.

(** With [reduce], [load] returns whatever the instance holds: the
    records that are no clusters name input points. *)
Lemma load_returns (sa : @WithReduce.PointCluster JS P C) pts :
  Exact (WithReduce.options sa) (Z.of_nat (length pts)) →
  WithinContract →
  ∃ sa', WithReduce.load sa pts = Ok sa'
         ∧ WithReduce.options sa' = WithReduce.options sa
         ∧ WithReduce.callbacks sa' = WithReduce.callbacks sa
         ∧ WithReduce.points sa' = pts
         ∧ WithReduce.clusterProps sa `prefix_of` WithReduce.clusterProps sa'.
Proof.
  intros Hex Hw. unfold WithReduce.load.
  set (opts := WithReduce.options sa) in *.
  set (tree := WithReduce._createTree _).
  destruct (loadLoop_returns opts (WithReduce.callbacks sa) pts Hex Hw
              (passes opts) 0%nat tree (<[maxZoom opts + 1 := tree]> (WithReduce.trees sa))
              (WithReduce.clusterProps sa))
    as (ts' & cps' & Hloop); [done| |].
  { unfold tree. rewrite createTree_erase. cbn [levelIn]. f_equal.
    rewrite fmap_imap. by apply imap_ext. }
  change (Z.of_nat 0) with 0 in Hloop. rewrite Z.sub_0_r in Hloop.
  unfold passes in Hloop. rewrite Hloop.
  eexists. split_and!; try done.
  cbn [WithReduce.clusterProps]. by eapply loadLoop_grows.
Qed.

(** C4, as amended: [load] on an instance that is already loaded does
    not fail. Without [reduce] it returns the instance a first [load] of
    the same points would have returned, every level rebuilt from the new
    points. With [reduce] it returns as well; the levels and the points
    are those a first [load] would have left, up to the slot
    [OFFSET_PROP], and [this.clusterProps] keeps the entries of the
    earlier [load]. *)
Theorem C4_load_again_rebuilds :
  (∀ (st0 st1 : @PointCluster JS P) pts1 pts2,
     load st0 pts1 = Ok st1 →
     ∃ st2, load st1 pts2 = Ok st2
            ∧ ¬ failed (load st1 pts2)
            ∧ load st0 pts2 = Ok st2
            ∧ points st2 = pts2)
  ∧ (∀ (sa0 sa1 : @WithReduce.PointCluster JS P C) pts1 pts2,
       WithReduce.load sa0 pts1 = Ok sa1 →
       Exact (WithReduce.options sa0) (Z.of_nat (length pts2)) →
       WithinContract →
       ∃ sa2 sb,
         WithReduce.load sa1 pts2 = Ok sa2
         ∧ ¬ failed (WithReduce.load sa1 pts2)
         ∧ WithReduce.load sa0 pts2 = Ok sb
         ∧ withoutProps sa2 = withoutProps sb
         ∧ WithReduce.points sa2 = pts2
         ∧ WithReduce.clusterProps sa1 `prefix_of` WithReduce.clusterProps sa2).
Proof.
  split.
  - intros st0 st1 pts1 pts2 Hload1.
    destruct (load_again st0 st1 pts1 pts2 Hload1) as (st2 & H1 & H0 & Hp).
    exists st2. split_and!; try done. rewrite H1. by intros [e ?].
  - intros sa0 sa1 pts1 pts2 Hload1 Hex Hw.
    assert (Hopt : WithReduce.options sa1 = WithReduce.options sa0).
    { unfold WithReduce.load in Hload1.
      destruct (WithReduce.loadLoop _ _ _ _ _ _ _ _) as [[ts' cps']|e]; [|done].
      by injection Hload1 as <-. }
    destruct (load_returns sa1 pts2) as (sa2 & H2 & _ & _ & Hp2 & Hpre); [by rewrite Hopt|done|].
    destruct (load_returns sa0 pts2 Hex Hw) as (sb & Hb & _).
    exists sa2, sb. split_and!; try done.
    + rewrite H2. by intros [e ?].
    + apply load_erase in Hload1, H2, Hb.
      destruct (load_again _ _ pts1 pts2 Hload1) as (st2 & H1' & H0' & _).
      congruence.
Qed.

End SecondLoad.

(** ** The position of a new cluster *)

Lemma fold_left_ext_in {A B} (f g : A → B → A) (l : list B) (a : A) :
  (∀ a' x, x ∈ l → f a' x = g a' x) → fold_left f l a = fold_left g l a.
Proof.
  revert a. induction l as [|x l IH]; intros a Hfg; simpl; [done|].
  rewrite Hfg by (apply elem_of_cons; auto).
  apply IH. intros a' y Hy. apply Hfg, elem_of_cons. auto.
Qed.

Section Centre.

Context {JS : JSNumber} {KD : KDBush}.
Variable opts : Options.
Variable N : Z.
Variable z : Z.
Hypothesis z_exact : Z.abs z ≤ 2 ^ 24.

Lemma absorb_sums id nb : NoDup nb → ∀ (data : list Rec) wx wy,
  let U := filter (λ k, unv z data k = true) nb in
  ∃ data',
    fold_left (absorbStep z id) nb (data, wx, wy)
    = (data', weightedSum data rx U wx, weightedSum data ry U wy).
Proof.
  induction nb as [|a nb IH]; intros Hnd data wx wy U.
  { by exists data. }
  apply NoDup_cons in Hnd as [Ha Hnd].
  unfold U. rewrite filter_cons. cbn [fold_left].
  assert (Hext : ∀ (d1 : list Rec) (c : Rec → num) w,
            (∀ k, k ≠ a → d1 !! k = data !! k) →
            weightedSum d1 c (filter (λ k, unv z d1 k = true) nb) w
            = weightedSum data c (filter (λ k, unv z data k = true) nb) w).
  { intros d1 c w Hd1.
    assert (Hfil : filter (λ k, unv z d1 k = true) nb = filter (λ k, unv z data k = true) nb).
    { apply filter_ext_in. intros k Hk. unfold unv. rewrite Hd1; [done|]. by intros ->. }
    rewrite Hfil. unfold weightedSum. apply fold_left_ext_in.
    intros w' k [_ Hk]%list_elem_of_filter. rewrite Hd1; [done|]. by intros ->. }
  assert (Hunv : unv z data a = match data !! a with
                                 | Some ra => negb (markLe (rzoom ra) z)
                                 | None => false
                                 end).
  { unfold unv. destruct (data !! a) as [ra|]; [|done]. apply markGt_negb. }
  unfold absorbStep at 2.
  destruct (data !! a) as [ra|] eqn:Hra.
  2:{ rewrite decide_False by (rewrite Hunv; discriminate). exact (IH Hnd data wx wy). }
  destruct (markLe (rzoom ra) z) eqn:Hma.
  { rewrite decide_False by (rewrite Hunv; discriminate). exact (IH Hnd data wx wy). }
  rewrite decide_True by (by rewrite Hunv).
  destruct (IH Hnd (<[a := setParent id (setZoom z ra)]> data)
               (nadd wx (nmul (rx ra) (ofZ (rnum ra))))
               (nadd wy (nmul (ry ra) (ofZ (rnum ra))))) as (d2 & ->).
  exists d2. cbv zeta.
  rewrite (Hext _ rx), (Hext _ ry) by (intros k Hk; by rewrite list_lookup_insert_ne).
  unfold weightedSum. cbn [fold_left]. by rewrite Hra.
Qed.

(** When the record at an unvisited position [i] forms a cluster with
    its unvisited neighbours [U], the record written to [nextData] has
    the sum of their counts, the identifier that encodes [i] and the
    zoom, no parent and no marker, and it sits at the mean of their
    coordinates weighted by their counts, added up in the order of
    KDBush, the record at [i] first. *)
Theorem new_cluster_is_at_the_weighted_mean (data next : list Rec) i ri :
  WithinContract →
  data !! i = Some ri → markLe (rzoom ri) z = false →
  let nb := within (coordsOf data) (Some (rx ri)) (Some (ry ri)) (clusterRadius opts z) in
  let U := taken z data i nb in
  let total := rnum ri + sumZ (rnumAt data <$> U) in
  rnum ri < total → minPoints opts ≤ total →
  (clusterStep opts N z (data, next) i).2
  = next ++ [mkRec (ndiv (weightedSum data rx U (nmul (rx ri) (ofZ (rnum ri)))) (ofZ total))
                   (ndiv (weightedSum data ry U (nmul (ry ri) (ofZ (rnum ri)))) (ofZ total))
                   ZInfinity (encodeId N (Z.of_nat i) z) (-1) total].
Proof.
  intros Hwithin Hi Hm nb U total Hlt Hmin.
  assert (Hnd : NoDup nb) by apply Hwithin.
  set (data1 := <[i := setZoom z ri]> data).
  assert (Hst1 : static <$> data1 = static <$> data) by (by apply static_insert with ri).
  assert (HU1 : filter (λ k, unv z data1 k = true) nb = U).
  { apply (taken_alt z z_exact _ _ _ _ Hi). }
  assert (Hcount : fold_left (countStep z data1) nb (rnum ri) = total).
  { rewrite count_fold, HU1. unfold total. f_equal. f_equal.
    apply list_fmap_ext. intros ? k ?. by apply rnumAt_static. }
  unfold clusterStep. rewrite Hi, Hm. cbv zeta. fold data1.
  rewrite (coordsOf_static _ _ Hst1).
  change (rx (setZoom z ri)) with (rx ri). change (ry (setZoom z ri)) with (ry ri).
  change (rnum (setZoom z ri)) with (rnum ri).
  fold nb. rewrite Hcount.
  destruct (Z.ltb_spec (rnum ri) total); [|lia].
  destruct (Z.leb_spec (minPoints opts) total); [|lia]. cbn [andb].
  destruct (absorb_sums (encodeId N (Z.of_nat i) z) nb Hnd data1
              (nmul (rx ri) (ofZ (rnum ri))) (nmul (ry ri) (ofZ (rnum ri)))) as (d2 & ->).
  cbn [snd]. rewrite HU1. do 3 f_equal.
  - f_equal. unfold weightedSum. apply fold_left_ext_in.
    intros w k [[Hki _] _]%list_elem_of_filter.
    unfold data1. by rewrite list_lookup_insert_ne.
  - f_equal. unfold weightedSum. apply fold_left_ext_in.
    intros w k [[Hki _] _]%list_elem_of_filter.
    unfold data1. by rewrite list_lookup_insert_ne.
Qed.

End Centre.

(** ** The reference instance *)

Module ReferenceProofs.
Import Reference.

Lemma scan_within_contract : @WithinContract QNumber ScanIndex.
Proof.
  intros cs x y r. unfold within, ScanIndex, scanWithin.
  destruct x as [x|], y as [y|]; try (split; [constructor|by intros ? ?%elem_of_nil]).
  split.
  - apply NoDup_filter, NoDup_seq.
  - intros k [_ [_ Hk]%elem_of_seq]%list_elem_of_filter. exact Hk.
Qed.

Lemma scan_range_contract : @RangeContract QNumber ScanIndex.
Proof.
  intros cs b. unfold range, ScanIndex, scanRange. split.
  - apply NoDup_filter, NoDup_seq.
  - intros i. rewrite list_elem_of_filter, elem_of_seq. unfold insideB.
    cbn [num QNumber] in *. split.
    + intros [Hin _]. revert Hin. destruct (cs !! i) as [p|]; [eauto|by intros ?].
    + intros (p & Hp & Hin). rewrite Hp. split; [done|].
      apply lookup_lt_Some in Hp. split; [apply Nat.le_0_l|exact Hp].
Qed.

Lemma sqDist_self (x y r : Q) : Qle_bool (sqDist x y x y) (r * r) = true.
Proof.
  apply Qle_bool_iff. unfold sqDist.
  assert (H0 : ((x - x) * (x - x) + (y - y) * (y - y) == 0)%Q) by ring.
  rewrite H0. destruct r as [rn rd]. unfold Qle, Qmult. simpl. nia.
Qed.

Lemma scan_within_self (opts : @Options QNumber) : @WithinSelf QNumber ScanIndex opts.
Proof.
  intros z cs a x y _ Ha _. unfold within, ScanIndex, scanWithin.
  cbn [num QNumber] in *. apply list_elem_of_filter. split.
  - unfold nearB. rewrite Ha. apply sqDist_self.
  - apply elem_of_seq. apply lookup_lt_Some in Ha. split; [apply Nat.le_0_l|exact Ha].
Qed.

Lemma scan_within_undefined : @WithinUndefined QNumber ScanIndex.
Proof. by intros cs r. Qed.

Lemma st0_constructed : constructor opts14 = Ok st0.
Proof. reflexivity. Qed.

Lemma st3_loaded : load st0 threePoints = Ok st3.
Proof. reflexivity. Qed.

Lemma st0_configured : Configured (options st0) (Z.of_nat (length threePoints)).
Proof. split; vm_compute; congruence. Qed.

Lemma st0_exact : Exact (options st0) (Z.of_nat (length threePoints)).
Proof. split; vm_compute; congruence. Qed.

Lemma cluster01_record : clusterRecord st3 cluster01.
Proof.
  eexists 4, _, 0%nat.
  split_and!; [vm_compute; reflexivity|reflexivity|reflexivity].
Qed.

Lemma box_covers :
  ∀ data p, trees st3 !! _limitZoom (options st3) 2 = Some data →
            p ∈ coordsOf data → inside box p = true.
Proof.
  intros data p Hd Hp. vm_compute in Hd. injection Hd as <-.
  repeat (apply elem_of_cons in Hp as [-> | Hp]; [vm_compute; reflexivity|]).
  by apply elem_of_nil in Hp.
Qed.




Lemma C8_getChildren_witness :
  let N := Z.of_nat (length (points st3)) in
  let originId := _getOriginId N 8 in
  let originZoom := _getOriginZoom N 8 in
  let r := ndiv (radius (options st3)) (ofZ (originZoom - 1)) in
  let found data anchor :=
    filter (λ rk, rparent rk = 8)
           (recordsAt data (within (coordsOf data) (Some (rx anchor)) (Some (ry anchor)) r)) in
  (∀ cs, getChildren st3 8 = Ok cs ↔
         ∃ data anchor, trees st3 !! originZoom = Some data
                        ∧ lookupZ data originId = Some anchor
                        ∧ found data anchor ≠ []
                        ∧ cs = project st3 <$> found data anchor)
  ∧ (failed (getChildren st3 8) ↔
       trees st3 !! originZoom = None
       ∨ (∃ data, trees st3 !! originZoom = Some data ∧ lookupZ data originId = None)
       ∨ (∃ data anchor, trees st3 !! originZoom = Some data
                         ∧ lookupZ data originId = Some anchor
                         ∧ found data anchor = []))
  ∧ (∀ e, getChildren st3 8 = Err e → e = NoCluster).
Proof. exact (C8_getChildren st3 8 scan_within_undefined). Defined.



(** C4 as stated fails: the second [load] on a loaded instance
    succeeds. *)
Lemma C4_second_load_succeeds :
  load st0 threePoints = Ok st3 ∧ ¬ failed (load st3 twoPoints).
Proof. split; [reflexivity|]. by intros [e ?]. Qed.



(** The error that C5 expects at construction shows at query time: with
    a [maxZoom] of 40 the cluster formed at zoom 40 gets the identifier
    43, which decodes to position 1 of level 9, where there is one
    record. *)
Lemma maxZoom_40_fails_at_query :
  loaded opts40 twoClose = Ok stDeep
  ∧ getClusters stDeep box 40
    = Ok [FCluster (mkCluster 43 43 2 (AbbrevNum 2) (1 # 2, 0 # 2))]
  ∧ _getOriginZoom 2 43 = 9 ∧ _getOriginId 2 43 = 1
  ∧ getChildren stDeep 43 = Err NoCluster
  ∧ getLeaves 41 stDeep 43 (Some XInf) (Some (XZ 0)) = Some (Err NoCluster).
Proof. by vm_compute. Qed.

(** *** The zooms up to 31 *)

Lemma st31_loaded : loaded opts31 threeNear = Ok st31.
Proof. by vm_compute. Qed.

Lemma cluster31_record : clusterRecord st31 cluster31.
Proof.
  eexists 31, _, 0%nat.
  split_and!; [vm_compute; reflexivity|reflexivity|reflexivity].
Qed.




(** C2, at the input where the code departs from it: with the scaling
    function [2 ^ -zoom] of the README and the default radius 40, the
    documented radius of the pass at zoom 2 is 40 * 2^-2 = 10, within
    which a point at (0, 0) has no neighbour but itself; the pass uses the
    radius 40 / 2 = 20, finds the point 15 away, and merges the two. *)
Theorem C2_radius_ignores_scalingFunction :
  let level := coordsOf (_createTree (imap initialRec twoApart)) in
  let documented := (radius (options stScaled) * customScale 2)%Q in
  loaded optsScaled twoApart = Ok stScaled
  ∧ scalingFunction (options stScaled) = Some customScale
  ∧ (documented == 10)%Q
  ∧ (clusterRadius (options stScaled) 2 == 20)%Q
  ∧ within level (Some 0%Q) (Some 0%Q) documented = [0%nat]
  ∧ within level (Some 0%Q) (Some 0%Q) (clusterRadius (options stScaled) 2) = [0%nat; 1%nat]
  ∧ getClusters stScaled box 3 = Ok [FPoint 0; FPoint 1]
  ∧ getClusters stScaled box 2
    = Ok [FCluster (mkCluster 5 5 2 (AbbrevNum 2) (15 # 2, 0 # 2))].
Proof. by vm_compute. Qed.

(** *** Instances of the further properties *)

Lemma stEmpty_loaded : load st0 [] = Ok stEmpty.
Proof. reflexivity. Qed.


Lemma children_counts_add_up_witness :
  let c := _getClusterJSON cluster01 in
  ∃ children,
    getChildren st3 (cluster_id c) = Ok children
    ∧ (2 ≤ length children)%nat
    ∧ (FUndefined ∉ children)
    ∧ sumZ (pointCountOf <$> children) = point_count c.
Proof.
  apply (children_counts_add_up opts14 st0 st3 threePoints cluster01).
  - exact st0_constructed.
  - exact st3_loaded.
  - exact st0_configured.
  - exact scan_within_contract.
  - exact (scan_within_self _).
  - exact cluster01_record.
Defined.




Lemma queries_before_load_witness :
  (∀ bbox zoom, getClusters st0 bbox zoom = Err TypeError)
  ∧ (∀ id, getChildren st0 id = Err NoCluster)
  ∧ (∀ fuel id limit offset, getLeaves (S fuel) st0 id limit offset = Some (Err NoCluster))
  ∧ (∀ id, getClusterExpansionZoom st0 id
           = if _getOriginZoom 0 id - 1 <=? maxZoom (options st0)
             then Err NoCluster
             else Ok (_getOriginZoom 0 id - 1)).
Proof. apply (queries_before_load opts14 st0). exact st0_constructed. Defined.

Lemma loaded_levels_witness :
  (∀ key, is_Some (trees st3 !! key)
          ↔ key = maxZoom (options st3) + 1
            ∨ minZoom (options st3) ≤ key ≤ maxZoom (options st3))
  ∧ (∀ bbox zoom, failed (getClusters st3 bbox zoom)
                  ↔ maxZoom (options st3) + 1 < minZoom (options st3))
  ∧ (∀ bbox zoom e, getClusters st3 bbox zoom = Err e → e = TypeError).
Proof.
  apply (loaded_levels opts14 st0 st3 threePoints).
  - exact st0_constructed.
  - exact st3_loaded.
Defined.

Lemma point_positions_are_no_cluster_ids_witness :
  getChildren st3 1 = Err NoCluster
  ∧ (∀ fuel limit offset, getLeaves (S fuel) st3 1 limit offset = Some (Err NoCluster))
  ∧ (-1 ≤ maxZoom (options st3) → getClusterExpansionZoom st3 1 = Err NoCluster).
Proof.
  apply (point_positions_are_no_cluster_ids st3 1).
  - exact scan_within_undefined.
  - vm_compute. congruence.
  - vm_compute. split; congruence.
Defined.

Lemma load_of_no_point_witness :
  getClusters stEmpty box 2 = Ok []
  ∧ ∀ key data, minZoom (options st0) ≤ key ≤ maxZoom (options st0) + 1 →
                trees stEmpty !! key = Some data → data = [].
Proof.
  apply (load_of_no_point st0 stEmpty box 2).
  - exact stEmpty_loaded.
  - vm_compute. congruence.
  - exact scan_range_contract.
Defined.

Lemma decode_then_encode_witness :
  encodeId 3 (_getOriginId 3 8) (_getOriginZoom 3 8 - 1) = 8
  ∧ 0 ≤ _getOriginId 3 8 < 2 ^ 26
  ∧ 0 ≤ _getOriginZoom 3 8 ≤ 31.
Proof. apply (decode_then_encode 3 8). lia. Defined.



Lemma results_have_distinct_ids_witness :
  ∃ fs,
    getClusters st3 box 2 = Ok fs
    ∧ NoDup (featureId <$> fs)
    ∧ (FUndefined ∉ fs)
    ∧ (∀ idx, FPoint idx ∈ fs → 0 ≤ idx < Z.of_nat (length threePoints))
    ∧ (∀ c, FCluster c ∈ fs → Z.of_nat (length threePoints) < cluster_id c).
Proof.
  apply (results_have_distinct_ids st0 st3 threePoints box 2).
  - exact st3_loaded.
  - exact st0_configured.
  - vm_compute. congruence.
  - exact scan_within_contract.
  - exact scan_range_contract.
Defined.

(** *** Instances of the properties of the aggregation *)

Lemma sr0_constructed : WithReduce.constructor opts14 sumCallbacks = Ok sr0.
Proof. reflexivity. Qed.

Lemma sr3_loaded : WithReduce.load sr0 valued = Ok sr3.
Proof. vm_compute. reflexivity. Qed.

Lemma sr0_configured : Configured (WithReduce.options sr0) (Z.of_nat (length valued)).
Proof. split; vm_compute; congruence. Qed.

Lemma sr0_exact : Exact (WithReduce.options sr0) (Z.of_nat (length valued)).
Proof. split; vm_compute; congruence. Qed.

Lemma C4_load_again_rebuilds_witness :
  (∃ st2, load st3 twoPoints = Ok st2
          ∧ ¬ failed (load st3 twoPoints)
          ∧ load st0 twoPoints = Ok st2
          ∧ points st2 = twoPoints)
  ∧ ∃ sa2 sb,
      WithReduce.load sr3 valued = Ok sa2
      ∧ ¬ failed (WithReduce.load sr3 valued)
      ∧ WithReduce.load sr0 valued = Ok sb
      ∧ withoutProps sa2 = withoutProps sb
      ∧ WithReduce.points sa2 = valued
      ∧ WithReduce.clusterProps sr3 `prefix_of` WithReduce.clusterProps sa2.
Proof.
  split.
  - apply (proj1 (@C4_load_again_rebuilds QNumber ScanIndex unit unit)
                 st0 st3 threePoints twoPoints).
    exact st3_loaded.
  - apply (proj2 (@C4_load_again_rebuilds QNumber ScanIndex Z Z) sr0 sr3 valued valued).
    + exact sr3_loaded.
    + exact sr0_exact.
    + exact scan_within_contract.
Defined.


Lemma aggregation_keeps_the_clustering_witness :
  WithReduce.load sr0 valued = Ok sr3
  ∧ load (withoutProps sr0) valued = Ok (withoutProps sr3)
  ∧ (∀ bbox zoom,
       getClusters (withoutProps sr3) bbox zoom
       = match WithReduce.getClusters sr3 bbox zoom with
         | Ok fs => Ok (plainFeature <$> fs)
         | Err e => Err e
         end)
  ∧ (∀ clusterId,
       getChildren (withoutProps sr3) clusterId
       = match WithReduce.getChildren sr3 clusterId with
         | Ok fs => Ok (plainFeature <$> fs)
         | Err e => Err e
         end).
Proof.
  split; [exact sr3_loaded|].
  apply (aggregation_keeps_the_clustering sr0 sr3 valued). exact sr3_loaded.
Defined.

Lemma load_never_resets_clusterProps_witness :
  WithReduce.load sr3 valued
  = Ok (match WithReduce.load sr3 valued with Ok st => st | Err _ => sr3 end)
  ∧ WithReduce.clusterProps sr3
    `prefix_of` WithReduce.clusterProps
                  (match WithReduce.load sr3 valued with Ok st => st | Err _ => sr3 end).
Proof.
  assert (Hl : WithReduce.load sr3 valued
               = Ok (match WithReduce.load sr3 valued with Ok st => st | Err _ => sr3 end)).
  { vm_compute. reflexivity. }
  split; [exact Hl|].
  apply (load_never_resets_clusterProps sr3 _ valued). exact Hl.
Defined.

Lemma reduce_without_map_aggregates_nothing_witness :
  ∃ sa',
    WithReduce.load sn0 valued = Ok sa'
    ∧ WithReduce.clusterProps sa' = WithReduce.clusterProps sn0
    ∧ (WithReduce.clusterProps sn0 = [] →
       ∀ fs c props,
         (∃ bbox zoom, WithReduce.getClusters sa' bbox zoom = Ok fs)
         ∨ (∃ clusterId, WithReduce.getChildren sa' clusterId = Ok fs) →
         WithReduce.FCluster c props ∈ fs →
         props = WithReduce.emptyObject (WithReduce.callbacks sn0)).
Proof.
  apply (reduce_without_map_aggregates_nothing sn0 valued). reflexivity.
Defined.

Lemma new_cluster_is_at_the_weighted_mean_witness :
  let opts := mergeOptions opts14 in
  let data := levelIn opts threePoints 0 in
  let ri := mkRec (inject_Z 0) (inject_Z 0) ZInfinity 0 (-1) 1 in
  let nb := within (coordsOf data) (Some (rx ri)) (Some (ry ri)) (clusterRadius opts 4) in
  let U := taken 4 data 0 nb in
  let total := rnum ri + sumZ (rnumAt data <$> U) in
  U = [1%nat]
  ∧ (clusterStep opts 3 4 (data, []) 0).2
    = [] ++ [mkRec (ndiv (weightedSum data rx U (nmul (rx ri) (ofZ (rnum ri)))) (ofZ total))
                   (ndiv (weightedSum data ry U (nmul (ry ri) (ofZ (rnum ri)))) (ofZ total))
                   ZInfinity (encodeId 3 (Z.of_nat 0) 4) (-1) total].
Proof.
  intros opts data ri nb U total. split; [vm_compute; reflexivity|].
  apply (new_cluster_is_at_the_weighted_mean opts 3 4 ltac:(vm_compute; congruence)
           data [] 0%nat ri).
  - exact scan_within_contract.
  - vm_compute. reflexivity.
  - reflexivity.
  - vm_compute. reflexivity.
  - vm_compute. congruence.
Defined.

End ReferenceProofs.
